(** * FVG-Lite analysis core: a shallow embedding and its properties

    The development follows the Python sources of the analysis pipeline
    ([fvg_detector.py], [liquidity_analyzer.py], [market_bias_analyzer.py],
    [silver_bullet_engine.py]) and of the signal lifecycle
    ([live_signal_generator.py], [signal_scheduler.py]).

    Conventions of the embedding.
    - A Python float is the rational it denotes ([Q]) and equality of
      prices is [Qeq]; comparisons are exact.  The bias analyzer and the
      signal lifecycle compute on doubles: every sum, difference, product
      and quotient of the EMA loop, of the bias and its confidence, of the
      averaged confidence, of the pips of an exit and of the session
      statistics is followed by [fl], the rounding to the nearest double
      (halves to the even significand); a decimal constant [c] of that code
      is the double [fl c]; and [round(x, n)] there is [py_round], the
      double nearest to the multiple of [10^-n] nearest to [x].  The
      detectors of gaps, swings and liquidity levels and the engine's
      scores work on levels of five decimals: their arithmetic is taken
      exactly, and [round(x, n)] is the nearest multiple of [10^-n], halves
      to the even neighbour ([round_nd]).
    - Dictionaries used as records become records; the string enumerations
      ['bullish'/'bearish'/'neutral'], ['active'/'filled'/'closed'] and the
      exit reasons become inductive types.
    - Exceptions are an explicit [result] type.
    - Wall-clock reads ([datetime.utcnow()]) are a parameter [now]; the
      purely informational ['timestamp'] stamps of result dictionaries and
      the ISO formatting of times are left out (times are integers).  *)

From Stdlib Require Import String.
From Stdlib Require Import QArith Qabs Qround Qminmax Qfield Qpower.
From Stdlib Require Import ZArith List Sorted Bool Arith Lia Lqa.
Import ListNotations.

Local Open Scope Q_scope.

(** ** Numbers *)

Module Num.

Definition Qlt_bool (x y : Q) : bool := negb (Qle_bool y x).

(** [round_half_even q] is the integer nearest to [q], ties to even. *)
Definition round_half_even (q : Q) : Z :=
  let f := Qfloor q in
  match Qcompare (q - inject_Z f) (1 # 2) with
  | Lt => f
  | Gt => (f + 1)%Z
  | Eq => if Z.even f then f else (f + 1)%Z
  end.

Definition pow10 (n : nat) : Q := inject_Z (10 ^ Z.of_nat n).

(** Python's [round(q, n)]. *)
Definition round_nd (q : Q) (n : nat) : Q :=
  inject_Z (round_half_even (q * pow10 n)) / pow10 n.

(** Python's [min(a, b)] and [max(a, b)] on floats: the first argument wins
    a tie. *)
Definition fmin (a b : Q) : Q := if Qlt_bool b a then b else a.
Definition fmax (a b : Q) : Q := if Qlt_bool a b then b else a.

Fixpoint Qsum (l : list Q) : Q :=
  match l with
  | [] => 0
  | x :: r => x + Qsum r
  end.

(** [_mean] of [fvg_detector.py]: the empty list has mean [0.0]. *)
Definition _mean (values : list Q) : Q :=
  match values with
  | [] => 0
  | _ => Qsum values / inject_Z (Z.of_nat (length values))
  end.

End Num.
Import Num.

(** ** Doubles *)

(** Rounding to binary64.  The exponent range is not modelled: prices,
    pips and percentages are far inside it. *)
Module Binary64.

(** [2^z] *)
Definition two_pow (z : Z) : Q := Qpower 2 z.

(** The binary exponent [E] of a non-zero number: [2^E <= |x| < 2^(E+1)]. *)
Definition exponent (x : Q) : Z :=
  let k := (Z.log2 (Z.abs (Qnum x)) - Z.log2 (Zpos (Qden x)))%Z in
  if Qle_bool (two_pow k) (Qabs x) then k else (k - 1)%Z.

(** The double nearest to [x], ties to the even significand of 53 bits. *)
Definition fl (x : Q) : Q :=
  if Qeq_bool x 0 then 0
  else
    let e := (exponent x - 52)%Z in
    inject_Z (round_half_even (x * two_pow (- e))) * two_pow e.

Definition f64_add (a b : Q) : Q := fl (a + b).
Definition f64_sub (a b : Q) : Q := fl (a - b).
Definition f64_mul (a b : Q) : Q := fl (a * b).
Definition f64_div (a b : Q) : Q := fl (a / b).

(** Python's [round(x, n)] on a float. *)
Definition py_round (x : Q) (n : nat) : Q := fl (round_nd x n).

(** Half a unit in the last place of [1]: the relative error of [fl]. *)
Definition half_ulp : Q := 1 # 9007199254740992.

End Binary64.
Import Binary64.

(** ** Exceptions *)

Inductive Exn : Type :=
| ZeroDivisionError
| IndexError.

Inductive result (A : Type) : Type :=
| Ok (a : A)
| Raise (e : Exn).
Arguments Ok {A} a.
Arguments Raise {A} e.

Definition bind {A B : Type} (m : result A) (k : A -> result B) : result B :=
  match m with
  | Ok a => k a
  | Raise e => Raise e
  end.

Notation "x <- m ;; k" := (bind m (fun x => k))
  (at level 61, m at next level, right associativity).

(** Python list indexing with a non-negative index. *)
Definition getitem {A : Type} (l : list A) (i : nat) : result A :=
  match nth_error l i with
  | Some a => Ok a
  | None => Raise IndexError
  end.

(** Python float division. *)
Definition fdiv (a b : Q) : result Q :=
  if Qeq_bool b 0 then Raise ZeroDivisionError else Ok (a / b).

(** ** Data model *)

Record Candle : Type := mkCandle {
  timestamp : Z;
  open : Q;
  high : Q;
  low : Q;
  close : Q;
  volume : Z
}.

Inductive FvgType : Type := bullish | bearish.
Inductive FvgStatus : Type := active | filled.
Inductive Bias : Type := bias_bullish | bias_bearish | bias_neutral.

Definition FvgType_eqb (a b : FvgType) : bool :=
  match a, b with
  | bullish, bullish | bearish, bearish => true
  | _, _ => false
  end.

Definition FvgStatus_eqb (a b : FvgStatus) : bool :=
  match a, b with
  | active, active | filled, filled => true
  | _, _ => false
  end.

(** The dictionary returned by [_check_bullish_fvg] / [_check_bearish_fvg]. *)
Record GapData : Type := mkGapData {
  gd_type : FvgType;
  gd_gap_top : Q;
  gd_gap_bottom : Q;
  gd_gap_size : Q;
  gd_formation_index : nat
}.

(** The dictionary returned by [_check_fvg_status]. *)
Record FillStatus : Type := mkFillStatus {
  fs_status : FvgStatus;
  fs_fill_price : option Q;
  fs_fill_time : option Z;
  fs_fill_index : option nat
}.

(** The dictionary returned by [_calculate_fvg_targets]. *)
Record Targets : Type := mkTargets {
  entry : Q;
  stop_loss : Q;
  take_profit_1 : Q;
  take_profit_2 : Q;
  risk_reward_1 : Q;
  risk_reward_2 : Q
}.

(** A FairValueGap record ([_create_fvg_record]).  The ['id'] string
    [fvg_<index>_<type>] is kept as the pair it is formatted from. *)
Record FVG : Type := mkFVG {
  fvg_id : nat * FvgType;
  fvg_type : FvgType;
  formation_time : Z;
  formation_index : nat;
  gap_top : Q;
  gap_bottom : Q;
  gap_size : Q;
  status : FvgStatus;
  fill_price : option Q;
  fill_time : option Z;
  fill_index : option nat;
  target_levels : Targets;
  confidence : Q
}.

(** ** FVGDetector *)

Module FVGDetector.

Definition min_gap_size : Q := 0.0002.

Definition _check_bullish_fvg (high1 low1 high2 low2 high3 low3 : Q)
  : option GapData :=
  if Qlt_bool high3 low1 then
    let gap_size := low1 - high3 in
    if Qle_bool min_gap_size gap_size then
      Some (mkGapData bullish high3 low1 gap_size 2)
    else None
  else None.

Definition _check_bearish_fvg (high1 low1 high2 low2 high3 low3 : Q)
  : option GapData :=
  if Qlt_bool high1 low3 then
    let gap_size := low3 - high1 in
    if Qle_bool min_gap_size gap_size then
      Some (mkGapData bearish low3 high1 gap_size 2)
    else None
  else None.

Definition no_fill : FillStatus := mkFillStatus active None None None.

(** The loop body of [_check_fvg_status] for the candle at index [i]. *)
Definition fills (fvg_data : GapData) (candle : Candle) : bool :=
  match gd_type fvg_data with
  | bullish => Qle_bool (gd_gap_bottom fvg_data) (high candle)
  | bearish => Qle_bool (low candle) (gd_gap_top fvg_data)
  end.

Definition fill_at (fvg_data : GapData) (candle : Candle) (i : nat)
  : FillStatus :=
  match gd_type fvg_data with
  | bullish =>
      mkFillStatus filled (Some (gd_gap_bottom fvg_data))
        (Some (timestamp candle)) (Some i)
  | bearish =>
      mkFillStatus filled (Some (gd_gap_top fvg_data))
        (Some (timestamp candle)) (Some i)
  end.

(** [scan_fill fvg_data i later] runs the [for] loop of [_check_fvg_status]
    over the candles [later], the first of which has index [i]. *)
Fixpoint scan_fill (fvg_data : GapData) (i : nat) (later : list Candle)
  : FillStatus :=
  match later with
  | [] => no_fill
  | candle :: rest =>
      if fills fvg_data candle then fill_at fvg_data candle i
      else scan_fill fvg_data (S i) rest
  end.

Definition _check_fvg_status (candles : list Candle) (formation_index : nat)
    (fvg_data : GapData) : FillStatus :=
  scan_fill fvg_data (formation_index + 1)
    (skipn (formation_index + 1) candles).

Definition _calculate_fvg_targets (fvg_data : GapData) (fvg_type : FvgType)
  : result Targets :=
  let gap_top := gd_gap_top fvg_data in
  let gap_bottom := gd_gap_bottom fvg_data in
  let gap_size := gd_gap_size fvg_data in
  match fvg_type with
  | bullish =>
      let entry := gap_bottom in
      let stop_loss := gap_bottom - gap_size * 0.5 in
      let take_profit_1 := gap_top in
      let take_profit_2 := gap_top + gap_size * 1 in
      rr1 <- fdiv (take_profit_1 - entry) (entry - stop_loss) ;;
      rr2 <- fdiv (take_profit_2 - entry) (entry - stop_loss) ;;
      Ok (mkTargets (round_nd entry 5) (round_nd stop_loss 5)
            (round_nd take_profit_1 5) (round_nd take_profit_2 5)
            (round_nd rr1 2) (round_nd rr2 2))
  | bearish =>
      let entry := gap_top in
      let stop_loss := gap_top + gap_size * 0.5 in
      let take_profit_1 := gap_bottom in
      let take_profit_2 := gap_bottom - gap_size * 1 in
      rr1 <- fdiv (entry - take_profit_1) (stop_loss - entry) ;;
      rr2 <- fdiv (entry - take_profit_2) (stop_loss - entry) ;;
      Ok (mkTargets (round_nd entry 5) (round_nd stop_loss 5)
            (round_nd take_profit_1 5) (round_nd take_profit_2 5)
            (round_nd rr1 2) (round_nd rr2 2))
  end.

(** [candles[a:b]] for [0 <= a]. *)
Definition slice {A : Type} (l : list A) (a b : nat) : list A :=
  firstn (b - a) (skipn a l).

(** The true ranges of [_calculate_recent_volatility]: [cs] are the candles
    from index [1] on, [prev] the candle before the first of them. *)
Fixpoint true_ranges (prev : Candle) (cs : list Candle) : list Q :=
  match cs with
  | [] => []
  | c :: rest =>
      fmax (fmax (high c - low c) (Qabs (high c - close prev)))
           (Qabs (low c - close prev))
      :: true_ranges c rest
  end.

(** On [nat], [index - 10] is already [0] where the source's difference is
    negative. *)
Definition _calculate_recent_volatility (candles : list Candle) (index : nat)
  : Q :=
  let start_idx := Nat.max 0 (index - 10) in
  let recent_candles := slice candles start_idx index in
  if (length recent_candles <? 5)%nat then 0.001
  else
    match recent_candles with
    | [] => 0.001
    | c0 :: rest =>
        match true_ranges c0 rest with
        | [] => 0.001
        | atr_values => _mean atr_values
        end
    end.

Definition _calculate_fvg_confidence (fvg_data : GapData)
    (candles : list Candle) (formation_index : nat) : Q :=
  let gap_size := gd_gap_size fvg_data in
  let size_confidence := fmin (gap_size / 0.001) 1 in
  let recent_volatility :=
    _calculate_recent_volatility candles formation_index in
  let volatility_factor := fmin (recent_volatility / 0.002) 1 in
  let confidence := size_confidence * 0.6 + volatility_factor * 0.4 in
  round_nd (fmin confidence 1) 2.

Definition _create_fvg_record (candles : list Candle) (index : nat)
    (fvg_data : GapData) (fvg_type : FvgType) (candle1 candle2 candle3 : Candle)
  : result FVG :=
  let formation_time := timestamp candle2 in
  let st := _check_fvg_status candles index fvg_data in
  target_levels <- _calculate_fvg_targets fvg_data fvg_type ;;
  Ok (mkFVG (index, fvg_type) fvg_type formation_time (index - 1)
        (gd_gap_top fvg_data) (gd_gap_bottom fvg_data)
        (round_nd (gd_gap_size fvg_data) 5)
        (fs_status st) (fs_fill_price st) (fs_fill_time st) (fs_fill_index st)
        target_levels
        (_calculate_fvg_confidence fvg_data candles index)).

Definition _analyze_single_fvg (candles : list Candle) (index : nat)
  : result (option FVG) :=
  if ((index <? 2) || (length candles - 1 <=? index))%nat then Ok None
  else
    candle1 <- getitem candles (index - 2) ;;
    candle2 <- getitem candles (index - 1) ;;
    candle3 <- getitem candles index ;;
    let '(high1, low1) := (high candle1, low candle1) in
    let '(high2, low2) := (high candle2, low candle2) in
    let '(high3, low3) := (high candle3, low candle3) in
    match _check_bullish_fvg high1 low1 high2 low2 high3 low3 with
    | Some bullish_fvg =>
        r <- _create_fvg_record candles index bullish_fvg bullish
               candle1 candle2 candle3 ;;
        Ok (Some r)
    | None =>
        match _check_bearish_fvg high1 low1 high2 low2 high3 low3 with
        | Some bearish_fvg =>
            r <- _create_fvg_record candles index bearish_fvg bearish
                   candle1 candle2 candle3 ;;
            Ok (Some r)
        | None => Ok None
        end
    end.

(** The dictionary returned by [detect_fvgs]. *)
Record FvgAnalysis : Type := mkFvgAnalysis {
  fvgs : list FVG;
  active_fvgs : list FVG;
  filled_fvgs : list FVG;
  fvg_analysis_complete : bool
}.

(** The [for i in range(...)] loop of [detect_fvgs] over the indices
    [idxs]. *)
Fixpoint collect_fvgs (candles : list Candle) (idxs : list nat)
  : result (list FVG) :=
  match idxs with
  | [] => Ok []
  | i :: rest =>
      fvg <- _analyze_single_fvg candles i ;;
      more <- collect_fvgs candles rest ;;
      Ok (match fvg with
          | Some f => f :: more
          | None => more
          end)
  end.

(** [range(a, b)] *)
Definition range (a b : nat) : list nat := seq a (b - a).

Definition detect_fvgs (candles : list Candle) : result FvgAnalysis :=
  if (length candles <? 5)%nat then Ok (mkFvgAnalysis [] [] [] false)
  else
    fvgs <- collect_fvgs candles (range 2 (length candles - 1)) ;;
    let active_fvgs :=
      filter (fun fvg => FvgStatus_eqb (status fvg) active) fvgs in
    let filled_fvgs :=
      filter (fun fvg => FvgStatus_eqb (status fvg) filled) fvgs in
    Ok (mkFvgAnalysis fvgs active_fvgs filled_fvgs true).

End FVGDetector.

(** ** LiquidityAnalyzer *)

Inductive SwingType : Type := swing_high | swing_low.
Inductive LevelType : Type := buy_liquidity | sell_liquidity | buy | sell.
Inductive Significance : Type := sig_high | sig_medium.

(** A swing point ([_find_swing_highs], [_find_swing_lows]). *)
Record Swing : Type := mkSwing {
  sw_price : Q;
  sw_index : nat;
  sw_strength : Q;
  sw_type : SwingType
}.

(** A liquidity level. *)
Record LiquidityLevel : Type := mkLevel {
  ll_price : Q;
  ll_strength : Q;
  ll_distance : Q;
  ll_type : LevelType;
  ll_significance : Significance
}.

(** The dictionary returned by [find_liquidity_levels]; ['current_price'] is
    present only when the analysis is complete. *)
Record LiquidityAnalysis : Type := mkLiquidity {
  buy_side_liquidity : list LiquidityLevel;
  sell_side_liquidity : list LiquidityLevel;
  strongest_buy : option LiquidityLevel;
  strongest_sell : option LiquidityLevel;
  liq_current_price : option Q;
  analysis_complete : bool
}.

Module LiquidityAnalyzer.

Definition liquidity_threshold : Q := 0.001.
Definition min_candles_for_analysis : nat := 20.

(** [l[i]] for an index the loops keep in range. *)
Definition at_ (l : list Q) (i : nat) : Q := nth i l 0.

(** [np.mean] of the four neighbouring prices. *)
Definition np_mean (l : list Q) : Q :=
  Qsum l / inject_Z (Z.of_nat (length l)).

Definition _calculate_level_strength (level_price : Q)
    (surrounding_prices : list Q) : Q :=
  let avg_surrounding := np_mean surrounding_prices in
  let distance := Qabs (level_price - avg_surrounding) in
  let max_distance := 0.01 in
  let strength := fmin (distance / max_distance) 1 in
  round_nd strength 2.

Definition is_swing_high (highs : list Q) (i : nat) : bool :=
  Qlt_bool (at_ highs (i - 1)) (at_ highs i) &&
  Qlt_bool (at_ highs (i - 2)) (at_ highs i) &&
  Qlt_bool (at_ highs (i + 1)) (at_ highs i) &&
  Qlt_bool (at_ highs (i + 2)) (at_ highs i).

Definition is_swing_low (lows : list Q) (i : nat) : bool :=
  Qlt_bool (at_ lows i) (at_ lows (i - 1)) &&
  Qlt_bool (at_ lows i) (at_ lows (i - 2)) &&
  Qlt_bool (at_ lows i) (at_ lows (i + 1)) &&
  Qlt_bool (at_ lows i) (at_ lows (i + 2)).

Definition neighbours (l : list Q) (i : nat) : list Q :=
  [at_ l (i - 2); at_ l (i - 1); at_ l (i + 1); at_ l (i + 2)].

Fixpoint swing_highs_loop (highs : list Q) (idxs : list nat) : list Swing :=
  match idxs with
  | [] => []
  | i :: rest =>
      if is_swing_high highs i then
        mkSwing (at_ highs i) i
          (_calculate_level_strength (at_ highs i) (neighbours highs i))
          swing_high
        :: swing_highs_loop highs rest
      else swing_highs_loop highs rest
  end.

Fixpoint swing_lows_loop (lows : list Q) (idxs : list nat) : list Swing :=
  match idxs with
  | [] => []
  | i :: rest =>
      if is_swing_low lows i then
        mkSwing (at_ lows i) i
          (_calculate_level_strength (at_ lows i) (neighbours lows i))
          swing_low
        :: swing_lows_loop lows rest
      else swing_lows_loop lows rest
  end.

Definition _find_swing_highs (highs lows : list Q) : list Swing :=
  swing_highs_loop highs (FVGDetector.range 2 (length highs - 2)).

Definition _find_swing_lows (highs lows : list Q) : list Swing :=
  swing_lows_loop lows (FVGDetector.range 2 (length lows - 2)).

(** [list.sort(key=strength, reverse=True)]: a stable sort, strongest
    first. *)
Fixpoint insert_desc (x : LiquidityLevel) (l : list LiquidityLevel)
  : list LiquidityLevel :=
  match l with
  | [] => [x]
  | y :: r =>
      if Qlt_bool (ll_strength x) (ll_strength y) then y :: insert_desc x r
      else x :: l
  end.

Fixpoint sort_by_strength (l : list LiquidityLevel) : list LiquidityLevel :=
  match l with
  | [] => []
  | x :: r => insert_desc x (sort_by_strength r)
  end.

Definition significance_of (strength : Q) : Significance :=
  if Qlt_bool 0.7 strength then sig_high else sig_medium.

Fixpoint buy_side_loop (swing_lows : list Swing) (current_price : Q)
  : list LiquidityLevel :=
  match swing_lows with
  | [] => []
  | low :: rest =>
      if Qlt_bool (sw_price low) current_price then
        let distance := Qabs (current_price - sw_price low) in
        if Qlt_bool liquidity_threshold distance then
          mkLevel (sw_price low) (sw_strength low) (round_nd distance 5)
            buy_liquidity (significance_of (sw_strength low))
          :: buy_side_loop rest current_price
        else buy_side_loop rest current_price
      else buy_side_loop rest current_price
  end.

Definition _identify_buy_side_liquidity (swing_lows : list Swing)
    (current_price : Q) : list LiquidityLevel :=
  firstn 5 (sort_by_strength (buy_side_loop swing_lows current_price)).

Fixpoint sell_side_loop (swing_highs : list Swing) (current_price : Q)
  : list LiquidityLevel :=
  match swing_highs with
  | [] => []
  | high :: rest =>
      if Qlt_bool current_price (sw_price high) then
        let distance := Qabs (sw_price high - current_price) in
        if Qlt_bool liquidity_threshold distance then
          mkLevel (sw_price high) (sw_strength high) (round_nd distance 5)
            sell_liquidity (significance_of (sw_strength high))
          :: sell_side_loop rest current_price
        else sell_side_loop rest current_price
      else sell_side_loop rest current_price
  end.

Definition _identify_sell_side_liquidity (swing_highs : list Swing)
    (current_price : Q) : list LiquidityLevel :=
  firstn 5 (sort_by_strength (sell_side_loop swing_highs current_price)).

(** [max(levels, key=strength)]: the first level of maximal strength. *)
Fixpoint max_by_strength (best : LiquidityLevel) (l : list LiquidityLevel)
  : LiquidityLevel :=
  match l with
  | [] => best
  | x :: r =>
      if Qlt_bool (ll_strength best) (ll_strength x) then max_by_strength x r
      else max_by_strength best r
  end.

Definition _find_strongest_level (levels : list LiquidityLevel)
    (level_type : LevelType) : option LiquidityLevel :=
  match levels with
  | [] => None
  | x :: r =>
      let strongest := max_by_strength x r in
      Some (mkLevel (ll_price strongest) (ll_strength strongest)
              (ll_distance strongest) level_type (ll_significance strongest))
  end.

Definition find_liquidity_levels (candles : list Candle)
  : LiquidityAnalysis :=
  if (length candles <? min_candles_for_analysis)%nat then
    mkLiquidity [] [] None None None false
  else
    let highs := map high candles in
    let lows := map low candles in
    let closes := map close candles in
    let last_close := last closes 0 in
    let swing_highs := _find_swing_highs highs lows in
    let swing_lows := _find_swing_lows highs lows in
    let buy_side := _identify_buy_side_liquidity swing_lows last_close in
    let sell_side := _identify_sell_side_liquidity swing_highs last_close in
    mkLiquidity buy_side sell_side
      (_find_strongest_level buy_side buy)
      (_find_strongest_level sell_side sell)
      (Some last_close) true.

End LiquidityAnalyzer.

(** ** MarketBiasAnalyzer *)

(** The dictionary returned by [determine_bias]; ['price_vs_ema'] and
    ['ema_period'] are absent from the answer for an empty series. *)
Record BiasData : Type := mkBias {
  bd_bias : Bias;
  bd_confidence : Q;
  bd_ema_value : Q;
  bd_current_price : Q;
  bd_price_vs_ema : option Q;
  bd_timeframe : string;
  bd_ema_period : option nat
}.

(** The vote counters [overall_bias]. *)
Record BiasCount : Type := mkCount {
  n_bullish : nat;
  n_bearish : nat;
  n_neutral : nat
}.

(** The dictionary returned by [get_multi_timeframe_bias]. *)
Record MultiBias : Type := mkMulti {
  overall_bias : Bias;
  overall_confidence : Q;
  timeframe_analysis : list (string * BiasData);
  bias_distribution : BiasCount
}.

Module MarketBiasAnalyzer.

(** [default_ema_periods.get(timeframe, 200)] *)
Definition ema_period_of (timeframe : string) : nat :=
  if String.eqb timeframe "H1" then 200
  else if String.eqb timeframe "H4" then 50
  else if String.eqb timeframe "D1" then 20
  else 200.

(** [calculate_ema]; the periods in use are positive, so an empty list of
    prices always takes the first branch.  The loop runs on doubles: the
    multiplier, each product, the difference and the sum are rounded. *)
Definition calculate_ema (prices : list Q) (period : nat) : Q :=
  if (length prices <? period)%nat then last prices 0
  else
    let multiplier := f64_div 2 (inject_Z (Z.of_nat period + 1)) in
    match prices with
    | [] => 0
    | p0 :: rest =>
        fold_left
          (fun ema price =>
             f64_add (f64_mul price multiplier)
               (f64_mul ema (f64_sub 1 multiplier)))
          rest p0
    end.

(** [determine_bias].  The difference to the EMA, the threshold, the
    quotient of the confidence and the four [round]s are on doubles. *)
Definition determine_bias (candles : list Candle) (timeframe : string)
  : BiasData :=
  match candles with
  | [] => mkBias bias_neutral 0 0 0 None timeframe None
  | _ =>
      let closes := map close candles in
      let current_price := last closes 0 in
      let ema_period := ema_period_of timeframe in
      let ema_value := calculate_ema closes ema_period in
      let price_vs_ema := f64_sub current_price ema_value in
      let bias_threshold := fl 0.0005 in
      let '(bias, confidence) :=
        if Qlt_bool (Qabs price_vs_ema) bias_threshold then
          (bias_neutral, fl 0.3)
        else if Qlt_bool 0 price_vs_ema then
          (bias_bullish, fmin (f64_div (Qabs price_vs_ema) (fl 0.002)) 1)
        else
          (bias_bearish, fmin (f64_div (Qabs price_vs_ema) (fl 0.002)) 1) in
      mkBias bias (py_round confidence 2) (py_round ema_value 5)
        (py_round current_price 5) (Some (py_round price_vs_ema 5))
        timeframe (Some ema_period)
  end.

Definition count_bias (c : BiasCount) (b : Bias) : BiasCount :=
  match b with
  | bias_bullish => mkCount (S (n_bullish c)) (n_bearish c) (n_neutral c)
  | bias_bearish => mkCount (n_bullish c) (S (n_bearish c)) (n_neutral c)
  | bias_neutral => mkCount (n_bullish c) (n_bearish c) (S (n_neutral c))
  end.

(** [results[timeframe] = bias_data] on a dictionary kept in insertion
    order. *)
Fixpoint dict_set {V : Type} (d : list (string * V)) (k : string) (v : V)
  : list (string * V) :=
  match d with
  | [] => [(k, v)]
  | (k', v') :: r =>
      if String.eqb k' k then (k', v) :: r else (k', v') :: dict_set r k v
  end.

(** The [for timeframe, candles in candles_by_tf.items()] loop, threading
    [(results, overall_bias, total_confidence)]. *)
Fixpoint bias_loop (items : list (string * list Candle))
    (acc : list (string * BiasData) * BiasCount * Q)
  : list (string * BiasData) * BiasCount * Q :=
  match items with
  | [] => acc
  | (timeframe, candles) :: rest =>
      let '(results, counts, total_confidence) := acc in
      let bias_data := determine_bias candles timeframe in
      bias_loop rest
        (dict_set results timeframe bias_data,
         count_bias counts (bd_bias bias_data),
         f64_add total_confidence (bd_confidence bias_data))
  end.

Definition get_multi_timeframe_bias
    (candles_by_tf : list (string * list Candle)) : MultiBias :=
  let '(results, counts, total_confidence) :=
    bias_loop candles_by_tf ([], mkCount 0 0 0, 0) in
  let max_count :=
    Nat.max (Nat.max (n_bullish counts) (n_bearish counts)) (n_neutral counts) in
  let overall :=
    if (max_count =? n_bullish counts)%nat then bias_bullish
    else if (max_count =? n_bearish counts)%nat then bias_bearish
    else bias_neutral in
  let avg_confidence :=
    match candles_by_tf with
    | [] => 0
    | _ => f64_div total_confidence
             (inject_Z (Z.of_nat (length candles_by_tf)))
    end in
  mkMulti overall (py_round avg_confidence 2) results counts.

End MarketBiasAnalyzer.

(** ** Silver Bullet setups ([fvg_detector.py], second half) *)

Inductive AlignReason : Type :=
| bullish_in_bullish
| bearish_in_bearish
| type_conflicts_with_bias.

Inductive ProximityReason : Type :=
| no_liquidity_data
| near_significant_liquidity
| no_significant_liquidity_nearby.

Record BiasAlignment : Type := mkAlign {
  aligned : bool;
  align_reason : AlignReason
}.

Record LiquidityProximity : Type := mkProximity {
  valid : bool;
  nearest_level : option LiquidityLevel;
  distance : option Q;
  proximity_reason : ProximityReason
}.

Record Setup : Type := mkSetup {
  su_fvg : FVG;
  su_bias_alignment : BiasAlignment;
  su_liquidity_proximity : LiquidityProximity;
  su_quality_score : Q;
  su_confidence : Q
}.

Module SilverBullet.
Import FVGDetector.

Definition _check_bias_alignment (fvg : FVG) (bias_data : BiasData)
  : BiasAlignment :=
  let bias := bd_bias bias_data in
  match fvg_type fvg, bias with
  | bullish, bias_bullish => mkAlign true bullish_in_bullish
  | bearish, bias_bearish => mkAlign true bearish_in_bearish
  | _, _ => mkAlign false type_conflicts_with_bias
  end.

(** The nearest-level loop; [None] stands for the initial
    [nearest_distance = inf, nearest_level = None]. *)
Fixpoint nearest_loop (fvg_price : Q) (levels : list LiquidityLevel)
    (nearest : option (Q * LiquidityLevel)) : option (Q * LiquidityLevel) :=
  match levels with
  | [] => nearest
  | level :: rest =>
      let distance := Qabs (fvg_price - ll_price level) in
      let closer :=
        match nearest with
        | None => true
        | Some (nearest_distance, _) => Qlt_bool distance nearest_distance
        end in
      nearest_loop fvg_price rest
        (if closer then Some (distance, level) else nearest)
  end.

Definition _check_liquidity_proximity (fvg : FVG)
    (liquidity_levels : LiquidityAnalysis) : LiquidityProximity :=
  if negb (analysis_complete liquidity_levels) then
    mkProximity false None None no_liquidity_data
  else
    let fvg_price :=
      match fvg_type fvg with
      | bullish => gap_bottom fvg
      | bearish => gap_top fvg
      end in
    let relevant_liquidity :=
      match fvg_type fvg with
      | bullish => buy_side_liquidity liquidity_levels
      | bearish => sell_side_liquidity liquidity_levels
      end in
    match nearest_loop fvg_price relevant_liquidity None with
    | Some (nearest_distance, nearest_level) =>
        if Qlt_bool nearest_distance 0.002 then
          mkProximity true (Some nearest_level) (Some nearest_distance)
            near_significant_liquidity
        else mkProximity false None None no_significant_liquidity_nearby
    | None => mkProximity false None None no_significant_liquidity_nearby
    end.

Definition _calculate_setup_quality (fvg : FVG)
    (liquidity_levels : LiquidityAnalysis) (bias_data : BiasData) : Q :=
  let f1 := confidence fvg * 0.4 in
  let gap_size_factor := fmin (gap_size fvg / 0.001) 1 in
  let f2 := gap_size_factor * 0.3 in
  let bias_confidence := bd_confidence bias_data in
  let f3 := bias_confidence * 0.2 in
  let liquidity_strength :=
    if analysis_complete liquidity_levels then
      match fvg_type fvg, strongest_buy liquidity_levels,
            strongest_sell liquidity_levels with
      | bullish, Some l, _ => ll_strength l
      | bearish, _, Some l => ll_strength l
      | _, _, _ => 0.5
      end
    else 0.5 in
  let f4 := liquidity_strength * 0.1 in
  round_nd (Qsum [f1; f2; f3; f4]) 2.

Definition _evaluate_silver_bullet_setup (fvg : FVG)
    (liquidity_levels : LiquidityAnalysis) (bias_data : BiasData)
  : option Setup :=
  let bias_alignment := _check_bias_alignment fvg bias_data in
  if negb (aligned bias_alignment) then None
  else
    let liquidity_proximity :=
      _check_liquidity_proximity fvg liquidity_levels in
    if negb (valid liquidity_proximity) then None
    else
      let quality_score :=
        _calculate_setup_quality fvg liquidity_levels bias_data in
      Some (mkSetup fvg bias_alignment liquidity_proximity quality_score
              quality_score).

(** The [for fvg in fvg_data['active_fvgs']] loop. *)
Fixpoint setups_loop (fvgs : list FVG) (liquidity_levels : LiquidityAnalysis)
    (bias_data : BiasData) : list Setup :=
  match fvgs with
  | [] => []
  | fvg :: rest =>
      match _evaluate_silver_bullet_setup fvg liquidity_levels bias_data with
      | Some setup => setup :: setups_loop rest liquidity_levels bias_data
      | None => setups_loop rest liquidity_levels bias_data
      end
  end.

(** [get_silver_bullet_setups]; the answer is its ['setups'] list. *)
Definition get_silver_bullet_setups (candles : list Candle)
    (liquidity_levels : LiquidityAnalysis) (bias_data : BiasData)
  : result (list Setup) :=
  fvg_data <- detect_fvgs candles ;;
  if negb (fvg_analysis_complete fvg_data) then Ok []
  else Ok (setups_loop (active_fvgs fvg_data) liquidity_levels bias_data).

End SilverBullet.

(** ** SilverBulletEngine *)

Record PositionSize : Type := mkPosition {
  units : Z;
  risk_amount : Q;
  risk_percentage : Q
}.

Record TradeSuggestion : Type := mkSuggestion {
  ts_setup_id : nat * FvgType;
  ts_type : FvgType;
  ts_symbol : string;
  ts_timeframe : string;
  ts_entry_price : Q;
  ts_stop_loss : Q;
  ts_take_profit_1 : Q;
  ts_take_profit_2 : Q;
  ts_risk_reward_1 : Q;
  ts_risk_reward_2 : Q;
  ts_position_size : PositionSize;
  ts_confidence : Q;
  ts_setup_quality : Q;
  ts_bias_alignment : AlignReason;
  ts_liquidity_reason : ProximityReason
}.

(** The successful answer of [analyze_market_setup]. *)
Record Analysis : Type := mkAnalysis {
  an_bias : BiasData;
  an_liquidity : LiquidityAnalysis;
  an_fvgs : FVGDetector.FvgAnalysis;
  an_all_setups : list Setup;
  an_high_quality_setups : list Setup;
  trade_suggestions : list TradeSuggestion
}.

Module SilverBulletEngine.

Section Engine.

(** Strategy parameters; [__init__] sets them to [0.7], [0.02], [2.0]. *)
Variable min_setup_quality : Q.
Variable max_risk_per_trade : Q.
Variable min_risk_reward : Q.

(** [int(x)] on a float: truncation toward zero. *)
Definition int_of (x : Q) : Z := Z.quot (Qnum x) (Zpos (Qden x)).

Definition _calculate_position_size (risk_amount current_price : Q)
  : result PositionSize :=
  let account_balance := 10000 in
  let risk_percentage := max_risk_per_trade in
  let dollar_risk := account_balance * risk_percentage in
  let pip_value := 0.0001 in
  position_size <- fdiv dollar_risk (risk_amount / pip_value) ;;
  Ok (mkPosition (int_of position_size) dollar_risk (risk_percentage * 100)).

Fixpoint _generate_trade_suggestions (setups : list Setup) (current_price : Q)
  : result (list TradeSuggestion) :=
  match setups with
  | [] => Ok []
  | setup :: rest =>
      let fvg := su_fvg setup in
      let targets := target_levels fvg in
      let risk_amount := Qabs (entry targets - stop_loss targets) in
      position_size <- _calculate_position_size risk_amount current_price ;;
      let risk_reward_1 := risk_reward_1 targets in
      let risk_reward_2 := risk_reward_2 targets in
      more <- _generate_trade_suggestions rest current_price ;;
      if Qle_bool min_risk_reward risk_reward_1
         || Qle_bool min_risk_reward risk_reward_2 then
        Ok (mkSuggestion (fvg_id fvg) (fvg_type fvg) "EUR/USD" "H1"
              (entry targets) (stop_loss targets)
              (take_profit_1 targets) (take_profit_2 targets)
              risk_reward_1 risk_reward_2 position_size
              (su_confidence setup) (su_quality_score setup)
              (align_reason (su_bias_alignment setup))
              (proximity_reason (su_liquidity_proximity setup))
            :: more)
      else Ok more
  end.

(** The stages of [analyze_market_setup] that follow the setups: the quality
    filter and the trade suggestions. *)
Definition suggestions_of (setups : list Setup) (current_price : Q)
  : result (list Setup * list TradeSuggestion) :=
  let high_quality_setups :=
    filter (fun setup => Qle_bool min_setup_quality (su_quality_score setup))
      setups in
  trade_suggestions <-
    _generate_trade_suggestions high_quality_setups current_price ;;
  Ok (high_quality_setups, trade_suggestions).

(** [candles[-1]] *)
Definition last_candle (candles : list Candle) : result Candle :=
  match candles with
  | [] => Raise IndexError
  | c :: r => Ok (last r c)
  end.

(** [analyze_market_setup] from the point where [candles] holds the series
    the data streamer (or the fallback generator) returned.  [Raise] is the
    path into the outer [except], whose answer has ['success': False]. *)
Definition analyze_market_setup (candles : list Candle) (timeframe : string)
  : result Analysis :=
  let bias_analysis := MarketBiasAnalyzer.determine_bias candles timeframe in
  let liquidity_analysis := LiquidityAnalyzer.find_liquidity_levels candles in
  fvg_analysis <- FVGDetector.detect_fvgs candles ;;
  silver_bullet_setups <-
    SilverBullet.get_silver_bullet_setups candles liquidity_analysis
      bias_analysis ;;
  current <- last_candle candles ;;
  hq <- suggestions_of silver_bullet_setups (close current) ;;
  Ok (mkAnalysis bias_analysis liquidity_analysis fvg_analysis
        silver_bullet_setups (fst hq) (snd hq)).

End Engine.

(** The engine with the parameters of [__init__]. *)
Definition default_min_setup_quality : Q := 0.7.
Definition default_max_risk_per_trade : Q := 0.02.
Definition default_min_risk_reward : Q := 2.

Definition analyze (candles : list Candle) (timeframe : string)
  : result Analysis :=
  analyze_market_setup default_min_setup_quality default_max_risk_per_trade
    default_min_risk_reward candles timeframe.

End SilverBulletEngine.

(** ** LiveSignalGenerator: the signal lifecycle *)

Inductive SignalStatus : Type := signal_active | signal_closed.
Inductive ExitReason : Type := target_hit | stop_loss_hit | time_expired.

(** A signal dictionary; the educational texts it also carries play no part
    in the lifecycle and are left out. *)
Record Signal : Type := mkSignal {
  sg_signal_id : string;
  sg_symbol : string;
  sg_timeframe : string;
  sg_entry : Q;
  sg_stop_loss : Q;
  sg_take_profit : Q;
  sg_confidence : Q;
  sg_expires_at : Z;
  sg_status : SignalStatus;
  sg_exit_reason : option ExitReason;
  sg_exit_price : option Q;
  sg_pips_gained : option Q;
  sg_closed_at : option Z
}.

(** The dictionary returned by [check_exit_conditions]. *)
Record Exit : Type := mkExit {
  ex_reason : ExitReason;
  ex_exit_price : Q;
  ex_pips_gained : Q;
  ex_signal_id : string
}.

Record SessionStats : Type := mkStats {
  total_pips : Q;
  winning_trades : nat;
  losing_trades : nat;
  total_trades : nat;
  win_rate : Q
}.

(** The mutable fields of a [LiveSignalGenerator]: [active_signals] is a
    dictionary from symbol to the list of its signals, kept in insertion
    order. *)
Record Generator : Type := mkGenerator {
  active_signals : list (string * list Signal);
  closed_signals : list Signal;
  session_stats : SessionStats
}.

Module LiveSignalGenerator.

Definition SignalStatus_eqb (a b : SignalStatus) : bool :=
  match a, b with
  | signal_active, signal_active | signal_closed, signal_closed => true
  | _, _ => false
  end.

(** [check_exit_conditions]; [now] is the value of [datetime.utcnow()].
    The pips are computed on doubles: the difference and the product are
    rounded, and [round] gives the double nearest to the decimal. *)
Definition check_exit_conditions (signal : Signal) (current_price : Q)
    (now : Z) : option Exit :=
  if negb (SignalStatus_eqb (sg_status signal) signal_active) then None
  else
    let entry := sg_entry signal in
    let tp := sg_take_profit signal in
    let sl := sg_stop_loss signal in
    let is_bullish := Qlt_bool entry tp in
    if is_bullish && Qle_bool tp current_price then
      let pips_gained := f64_mul (Qabs (f64_sub tp entry)) 10000 in
      Some (mkExit target_hit tp (py_round pips_gained 1)
              (sg_signal_id signal))
    else if negb is_bullish && Qle_bool current_price tp then
      let pips_gained := f64_mul (Qabs (f64_sub tp entry)) 10000 in
      Some (mkExit target_hit tp (py_round pips_gained 1)
              (sg_signal_id signal))
    else if is_bullish && Qle_bool current_price sl then
      let pips_lost := f64_mul (Qabs (f64_sub sl entry)) 10000 in
      Some (mkExit stop_loss_hit sl (- py_round pips_lost 1)
              (sg_signal_id signal))
    else if negb is_bullish && Qle_bool sl current_price then
      let pips_lost := f64_mul (Qabs (f64_sub sl entry)) 10000 in
      Some (mkExit stop_loss_hit sl (- py_round pips_lost 1)
              (sg_signal_id signal))
    else if (sg_expires_at signal <? now)%Z then
      let current_pips := f64_mul (Qabs (f64_sub current_price entry)) 10000 in
      let pips_gained :=
        if (is_bullish && Qlt_bool entry current_price)
           || (negb is_bullish && Qlt_bool current_price entry)
        then current_pips else - current_pips in
      Some (mkExit time_expired current_price (py_round pips_gained 1)
              (sg_signal_id signal))
    else None.

(** [update_session_stats]: the running pips and the win rate are float
    operations. *)
Definition update_session_stats (stats : SessionStats) (exit_signal : Exit)
  : SessionStats :=
  let pips := ex_pips_gained exit_signal in
  let total_pips := f64_add (total_pips stats) pips in
  let total_trades := S (total_trades stats) in
  let winning_trades :=
    if Qlt_bool 0 pips then S (winning_trades stats)
    else winning_trades stats in
  let losing_trades :=
    if Qlt_bool 0 pips then losing_trades stats
    else S (losing_trades stats) in
  let win_rate :=
    if (0 <? total_trades)%nat then
      py_round
        (f64_mul (f64_div (inject_Z (Z.of_nat winning_trades))
                    (inject_Z (Z.of_nat total_trades))) 100) 1
    else win_rate stats in
  mkStats total_pips winning_trades losing_trades total_trades win_rate.

(** [d.get(symbol)] *)
Fixpoint dict_get {V : Type} (d : list (string * V)) (k : string) : option V :=
  match d with
  | [] => None
  | (k', v) :: r => if String.eqb k' k then Some v else dict_get r k
  end.

(** Truth value of an optional string argument: [None] and [''] are false. *)
Definition truthy (symbol : option string) : option string :=
  match symbol with
  | Some s => if String.eqb s "" then None else Some s
  | None => None
  end.

Definition all_signals (g : Generator) : list Signal :=
  flat_map snd (active_signals g).

Definition get_active_signals (g : Generator) (symbol : option string)
  : list Signal :=
  match truthy symbol with
  | Some s =>
      match dict_get (active_signals g) s with
      | Some signals => signals
      | None => []
      end
  | None => all_signals g
  end.

Definition add_signal (g : Generator) (signal : Signal) : Generator :=
  let symbol := sg_symbol signal in
  let bucket :=
    match dict_get (active_signals g) symbol with
    | Some signals => signals
    | None => []
    end in
  mkGenerator
    (MarketBiasAnalyzer.dict_set (active_signals g) symbol (bucket ++ [signal]))
    (closed_signals g) (session_stats g).

(** The assignments of [close_signal] to the signal it found. *)
Definition mark_closed (signal : Signal) (exit_signal : Exit) (now : Z)
  : Signal :=
  mkSignal (sg_signal_id signal) (sg_symbol signal) (sg_timeframe signal)
    (sg_entry signal) (sg_stop_loss signal) (sg_take_profit signal)
    (sg_confidence signal) (sg_expires_at signal)
    signal_closed (Some (ex_reason exit_signal))
    (Some (ex_exit_price exit_signal)) (Some (ex_pips_gained exit_signal))
    (Some now).

(** The inner [for i, signal in enumerate(signals)] loop: the first signal
    with the given id and the list with that position deleted. *)
Fixpoint take_signal (signals : list Signal) (signal_id : string)
  : option (Signal * list Signal) :=
  match signals with
  | [] => None
  | signal :: rest =>
      if String.eqb (sg_signal_id signal) signal_id then Some (signal, rest)
      else
        match take_signal rest signal_id with
        | Some (found, rest') => Some (found, signal :: rest')
        | None => None
        end
  end.

(** The outer [for symbol, signals in self.active_signals.items()] loop. *)
Fixpoint take_from_buckets (buckets : list (string * list Signal))
    (signal_id : string)
  : option (Signal * list (string * list Signal)) :=
  match buckets with
  | [] => None
  | (symbol, signals) :: rest =>
      match take_signal signals signal_id with
      | Some (found, signals') => Some (found, (symbol, signals') :: rest)
      | None =>
          match take_from_buckets rest signal_id with
          | Some (found, rest') => Some (found, (symbol, signals) :: rest')
          | None => None
          end
      end
  end.

(** [close_signal]: the returned flag and the generator afterwards. *)
Definition close_signal (g : Generator) (signal_id : string)
    (exit_signal : Exit) (now : Z) : bool * Generator :=
  match take_from_buckets (active_signals g) signal_id with
  | Some (signal, buckets') =>
      (true,
       mkGenerator buckets'
         (closed_signals g ++ [mark_closed signal exit_signal now])
         (update_session_stats (session_stats g) exit_signal))
  | None => (false, g)
  end.

End LiveSignalGenerator.

(** ** SignalSchedulerService *)

(** The exit message handed to [_broadcast_signal]. *)
Record ExitEvent : Type := mkExitEvent {
  ev_symbol : string;
  ev_timeframe : string;
  ev_signal_id : string;
  ev_exit_price : Q;
  ev_pips_gained : Q;
  ev_exit_reason : ExitReason
}.

Module SignalSchedulerService.
Import LiveSignalGenerator.

(** One evaluation of the body of the [for signal in active_signals] loop
    of [_check_exit_conditions]. *)
Definition exit_step (g : Generator) (signal : Signal) (current_price : Q)
    (now : Z) : Generator * list ExitEvent :=
  match check_exit_conditions signal current_price now with
  | Some exit_condition =>
      let '(success, g') :=
        close_signal g (ex_signal_id exit_condition) exit_condition now in
      if success then
        (g', [mkExitEvent (sg_symbol signal) (sg_timeframe signal)
                (sg_signal_id signal) (ex_exit_price exit_condition)
                (ex_pips_gained exit_condition) (ex_reason exit_condition)])
      else (g', [])
  | None => (g, [])
  end.

(** The loop when [get_active_signals] returned the bucket of [symbol]
    itself: the list iterator holds a position [idx] into the live bucket,
    which [close_signal] shortens under it.  [fuel] bounds the number of
    iterations; the bucket's length is enough, as it never grows. *)
Fixpoint exit_loop_live (fuel : nat) (symbol : string) (idx : nat)
    (g : Generator) (current_price : Q) (now : Z)
  : Generator * list ExitEvent :=
  match fuel with
  | O => (g, [])
  | S fuel' =>
      match dict_get (active_signals g) symbol with
      | None => (g, [])
      | Some bucket =>
          match nth_error bucket idx with
          | None => (g, [])
          | Some signal =>
              let '(g', evs) := exit_step g signal current_price now in
              let '(g'', evs') :=
                exit_loop_live fuel' symbol (S idx) g' current_price now in
              (g'', evs ++ evs')
          end
      end
  end.

(** The loop over a list that [close_signal] does not touch (the fresh
    [all_signals] list). *)
Fixpoint exit_loop_copy (signals : list Signal) (g : Generator)
    (current_price : Q) (now : Z) : Generator * list ExitEvent :=
  match signals with
  | [] => (g, [])
  | signal :: rest =>
      let '(g', evs) := exit_step g signal current_price now in
      let '(g'', evs') := exit_loop_copy rest g' current_price now in
      (g'', evs ++ evs')
  end.

(** [_check_exit_conditions]: the generator afterwards and the exit
    messages broadcast, in order. *)
Definition _check_exit_conditions (g : Generator) (symbol : string)
    (current_price : Q) (now : Z) : Generator * list ExitEvent :=
  match truthy (Some symbol) with
  | Some s =>
      match dict_get (active_signals g) s with
      | Some bucket =>
          exit_loop_live (length bucket) s 0 g current_price now
      | None => (g, [])
      end
  | None => exit_loop_copy (all_signals g) g current_price now
  end.

Definition _is_duplicate_signal (g : Generator) (new_signal : Signal) : bool :=
  let symbol := sg_symbol new_signal in
  let timeframe := sg_timeframe new_signal in
  let active_signals := get_active_signals g (Some symbol) in
  existsb
    (fun existing_signal =>
       String.eqb (sg_timeframe existing_signal) timeframe
       && Qlt_bool (Qabs (sg_entry existing_signal - sg_entry new_signal))
            0.001
       && SignalStatus_eqb (sg_status existing_signal) signal_active)
    active_signals.

End SignalSchedulerService.

(** ** LiquidityAnalyzer: sweeps *)

Inductive SweepType : Type := buy_sweep | sell_sweep.

Record SweptLevel : Type := mkSwept {
  swept_level : LiquidityLevel;
  sweep_type : SweepType;
  sweep_price : Q;
  sweep_magnitude : Q
}.

(** The dictionary returned by [check_liquidity_sweep]. *)
Record SweepAnalysis : Type := mkSweep {
  sweep_detected : bool;
  swept_levels : list SweptLevel
}.

Module LiquiditySweeps.

Fixpoint buy_sweeps (levels : list LiquidityLevel) (current_price : Q)
  : list SweptLevel :=
  match levels with
  | [] => []
  | level :: rest =>
      if Qlt_bool current_price (ll_price level) then
        mkSwept level buy_sweep current_price
          (Qabs (current_price - ll_price level))
        :: buy_sweeps rest current_price
      else buy_sweeps rest current_price
  end.

Fixpoint sell_sweeps (levels : list LiquidityLevel) (current_price : Q)
  : list SweptLevel :=
  match levels with
  | [] => []
  | level :: rest =>
      if Qlt_bool (ll_price level) current_price then
        mkSwept level sell_sweep current_price
          (Qabs (current_price - ll_price level))
        :: sell_sweeps rest current_price
      else sell_sweeps rest current_price
  end.

Definition check_liquidity_sweep (candles : list Candle)
    (liquidity_levels : LiquidityAnalysis) : SweepAnalysis :=
  match candles with
  | [] => mkSweep false []
  | c :: rest =>
      if negb (analysis_complete liquidity_levels) then mkSweep false []
      else
        let current_price := close (last rest c) in
        let swept_levels :=
          buy_sweeps (buy_side_liquidity liquidity_levels) current_price
          ++ sell_sweeps (sell_side_liquidity liquidity_levels) current_price in
        mkSweep (0 <? length swept_levels)%nat swept_levels
  end.

End LiquiditySweeps.

(** ** LiveSignalGenerator: the session *)

(** The dictionary returned by [get_session_summary], without its two clock
    fields. *)
Record SessionSummary : Type := mkSummary {
  sm_total_pips_gained : Q;
  sm_total_trades : nat;
  sm_winning_trades : nat;
  sm_losing_trades : nat;
  sm_win_rate : Q
}.

Module SignalSession.

(** The fields [__init__] sets: no signal and zeroed statistics. *)
Definition new_generator : Generator :=
  mkGenerator [] [] (mkStats 0 0 0 0 0).

Definition get_session_summary (g : Generator) : SessionSummary :=
  let session_stats := session_stats g in
  mkSummary (py_round (total_pips session_stats) 1)
    (total_trades session_stats) (winning_trades session_stats)
    (losing_trades session_stats) (win_rate session_stats).

End SignalSession.

(** ** SignalSchedulerService: admission of new signals *)

(** How the call of [_get_current_price] in [_process_symbol_timeframe]
    ends: with a price, with [None], or with an exception. *)
Inductive PriceAnswer : Type :=
| quoted (price : Q)
| no_quote
| quote_failed.

Module SignalAdmission.
Import LiveSignalGenerator SignalSchedulerService.

(** The loop [for signal in new_signals] of [_process_symbol_timeframe]:
    the generator afterwards and the signals handed to [_broadcast_signal],
    in order. *)
Fixpoint admit_signals (g : Generator) (new_signals : list Signal)
  : Generator * list Signal :=
  match new_signals with
  | [] => (g, [])
  | signal :: rest =>
      if negb (_is_duplicate_signal g signal) then
        let '(g', sent) := admit_signals (add_signal g signal) rest in
        (g', signal :: sent)
      else admit_signals g rest
  end.

(** The price [_process_symbol_timeframe] goes on with: the price quoted,
    the demo price [1.0850] after an exception, none after [None]. *)
Definition price_used (answer : PriceAnswer) : option Q :=
  match answer with
  | quoted price => Some price
  | no_quote => None
  | quote_failed => Some 1.0850
  end.

(** [_process_symbol_timeframe]: the generator afterwards, the exit
    messages and the new signals broadcast.  [answer] is how
    [_get_current_price] ended; [new_signals] is the list
    [generate_educational_signals] returns, which does not depend on the
    signals held. *)
Definition _process_symbol_timeframe (g : Generator) (symbol : string)
    (answer : PriceAnswer) (now : Z) (new_signals : list Signal)
  : Generator * list ExitEvent * list Signal :=
  match price_used answer with
  | None => (g, [], [])
  | Some current_price =>
      let '(g1, exits) := _check_exit_conditions g symbol current_price now in
      let '(g2, sent) := admit_signals g1 new_signals in
      (g2, exits, sent)
  end.

End SignalAdmission.

(** * Vocabulary of the statements *)

(** The fill condition of a gap record against one candle: for a bullish
    gap the candle's high reaches [gap_bottom], for a bearish gap its low
    reaches [gap_top]. *)
Definition fill_condition (f : FVG) (c : Candle) : bool :=
  match fvg_type f with
  | bullish => Qle_bool (gap_bottom f) (high c)
  | bearish => Qle_bool (low c) (gap_top f)
  end.

(** Candle [j] lies after the window ending at [i] and meets the fill
    condition of [f]. *)
Definition qualifies (candles : list Candle) (f : FVG) (i j : nat) : Prop :=
  (i < j)%nat /\
  exists c, nth_error candles j = Some c /\ fill_condition f c = true.

(** [high[i]] and [low[i]] of a series, for an index in range. *)
Definition high_at (candles : list Candle) (i : nat) : Q :=
  nth i (map high candles) 0.
Definition low_at (candles : list Candle) (i : nat) : Q :=
  nth i (map low candles) 0.

(** The record [_create_fvg_record] builds from gap data [gd], the middle
    candle [c2] and targets [t]. *)
Definition record_of (candles : list Candle) (i : nat) (gd : GapData)
    (c2 : Candle) (t : Targets) : FVG :=
  let st := FVGDetector._check_fvg_status candles i gd in
  mkFVG (i, gd_type gd) (gd_type gd) (timestamp c2) (i - 1)
    (gd_gap_top gd) (gd_gap_bottom gd) (round_nd (gd_gap_size gd) 5)
    (fs_status st) (fs_fill_price st) (fs_fill_time st) (fs_fill_index st)
    t (FVGDetector._calculate_fvg_confidence gd candles i).

Definition bullish_gap (c1 c3 : Candle) : GapData :=
  mkGapData bullish (high c3) (low c1) (low c1 - high c3) 2.

Definition bearish_gap (c1 c3 : Candle) : GapData :=
  mkGapData bearish (low c3) (high c1) (low c3 - high c1) 2.

(** The records of [detect_fvgs] are told apart by the window they come
    from, whose last index is the first component of the id. *)
Definition in_window (i : nat) (g : FVG) : bool := (fst (fvg_id g) =? i)%nat.

(** The risk-reward ratios a record carries, by its type. *)
Definition rr_by_type (f : FVG) : Prop :=
  match fvg_type f with
  | bullish =>
      gap_top f < gap_bottom f /\
      risk_reward_1 (target_levels f) == -2 /\
      risk_reward_2 (target_levels f) == 0
  | bearish =>
      gap_bottom f < gap_top f /\
      risk_reward_1 (target_levels f) == 2 /\
      risk_reward_2 (target_levels f) == 4
  end.

(** The bias a gap type needs. *)
Definition bias_of_type (t : FvgType) : Bias :=
  match t with
  | bullish => bias_bullish
  | bearish => bias_bearish
  end.

(** Two swing points at the same index, of equal strength and mirrored
    price. *)
Definition mirrored (a b : Swing) : Prop :=
  sw_index a = sw_index b /\
  sw_strength a = sw_strength b /\
  sw_price a == - sw_price b.

(** The ids of the signals in the active index. *)
Definition active_ids (g : Generator) : list string :=
  map sg_signal_id (LiveSignalGenerator.all_signals g).

(** The test [_is_duplicate_signal] applies to one existing signal. *)
Definition near_duplicate (new_signal existing_signal : Signal) : Prop :=
  sg_timeframe existing_signal = sg_timeframe new_signal /\
  Qabs (sg_entry existing_signal - sg_entry new_signal) < 0.001 /\
  sg_status existing_signal = signal_active.

(** The per-timeframe answers: each timeframe's bias from its own
    candles. *)
Definition per_timeframe (candles_by_tf : list (string * list Candle))
  : list (string * BiasData) :=
  map (fun p => (fst p, MarketBiasAnalyzer.determine_bias (snd p) (fst p)))
    candles_by_tf.

Definition Bias_eqb (a b : Bias) : bool :=
  match a, b with
  | bias_bullish, bias_bullish
  | bias_bearish, bias_bearish
  | bias_neutral, bias_neutral => true
  | _, _ => false
  end.

(** The number of timeframes voting [b]. *)
Definition votes (b : Bias) (answers : list (string * BiasData)) : nat :=
  length (filter (fun p => Bias_eqb b (bd_bias (snd p))) answers).

Definition counted (c : BiasCount) (b : Bias) : nat :=
  match b with
  | bias_bullish => n_bullish c
  | bias_bearish => n_bearish c
  | bias_neutral => n_neutral c
  end.

(** The simple average of the per-timeframe confidences. *)
Definition average_confidence (answers : list (string * BiasData)) : Q :=
  Qsum (map (fun p => bd_confidence (snd p)) answers)
  / inject_Z (Z.of_nat (length answers)).

(** The same average taken in doubles: a running sum from [0], then one
    division by the number of answers. *)
Definition float_average (answers : list (string * BiasData)) : Q :=
  f64_div
    (fold_left f64_add (map (fun p => bd_confidence (snd p)) answers) 0)
    (inject_Z (Z.of_nat (length answers))).

(** The length of the bucket of [symbol] in the active index. *)
Definition bucket_len (g : Generator) (symbol : string) : nat :=
  match LiveSignalGenerator.dict_get (active_signals g) symbol with
  | Some bucket => length bucket
  | None => 0%nat
  end.

(** * Concrete inputs *)

(** A candle from its time and its four prices. *)
Definition bar (t : Z) (o h l c : Q) : Candle := mkCandle t o h l c 1000.

(** The value of a computation that returned. *)
Definition value_of {A : Type} (d : A) (r : result A) : A :=
  match r with
  | Ok a => a
  | Raise _ => d
  end.

Definition no_fvgs : FVGDetector.FvgAnalysis :=
  FVGDetector.mkFvgAnalysis [] [] [] false.

Definition no_targets : Targets := mkTargets 0 0 0 0 0 0.

Definition no_fvg : FVG :=
  mkFVG (O, bullish) bullish 0 0 0 0 0 active None None None no_targets 0.

(** Six candles: a gap down over candles 0..2 ([low 1.1020] above
    [high 1.1000]); candle 3 stays below [1.1020], candles 4 and 5 reach
    it. *)
Definition gap_then_fill : list Candle :=
  [ bar 0 1.1025 1.1030 1.1020 1.1022;
    bar 1 1.1020 1.1025 1.0995 1.0998;
    bar 2 1.0998 1.1000 1.0990 1.0995;
    bar 3 1.0995 1.1010 1.0995 1.1008;
    bar 4 1.1008 1.1025 1.1005 1.1020;
    bar 5 1.1020 1.1030 1.1010 1.1025 ].

Definition gap_then_fill_fvgs : FVGDetector.FvgAnalysis :=
  Eval vm_compute in value_of no_fvgs (FVGDetector.detect_fvgs gap_then_fill).

Definition gap_then_fill_first : FVG :=
  Eval vm_compute in hd no_fvg (FVGDetector.fvgs gap_then_fill_fvgs).

(** Ten candles with a single gap, the gap down over candles 0..2
    ([low 1.1020] above [high 1.1000]); every later candle stays below
    [1.1020], so the gap stays open. *)
Definition crafted_series : list Candle :=
  [ bar 0 1.1025 1.1030 1.1020 1.1022;
    bar 1 1.1020 1.1025 1.0995 1.0998;
    bar 2 1.0998 1.1000 1.0990 1.0995;
    bar 3 1.0995 1.1018 1.0994 1.1015;
    bar 4 1.1015 1.1018 1.0998 1.1015;
    bar 5 1.1015 1.1018 1.0998 1.1015;
    bar 6 1.1015 1.1018 1.0998 1.1015;
    bar 7 1.1015 1.1018 1.0998 1.1015;
    bar 8 1.1015 1.1018 1.0998 1.1015;
    bar 9 1.1015 1.1018 1.0998 1.1015 ].

(** The context supplied with [crafted_series]: a bullish bias of full
    confidence and one buy-side level, a swing low at [1.1003], which is
    [0.0017] from the gap's entry price [1.1020] and [0.0012] below the
    last close. *)
Definition crafted_bias : BiasData :=
  mkBias bias_bullish 1 1.0950 1.1015 (Some 0.0065) "H1" (Some 200%nat).

Definition crafted_level : LiquidityLevel :=
  mkLevel 1.1003 0.9 0.0012 buy_liquidity sig_high.

Definition crafted_liquidity : LiquidityAnalysis :=
  mkLiquidity [crafted_level] []
    (Some (mkLevel 1.1003 0.9 0.0012 buy sig_high)) None
    (Some 1.1015) true.

Definition crafted_setups : list Setup :=
  Eval vm_compute in
    value_of []
      (SilverBullet.get_silver_bullet_setups crafted_series crafted_liquidity
         crafted_bias).

(** Twenty-four daily candles: sixteen falling ones, then a gap up over
    candles 16..18 ([high 1.0965] below [low 1.0990]) that later lows never
    reach, and a swing high at candle 20 ([1.1009]). *)
Definition falling_bar (j : nat) : Candle :=
  let h := 1.1410 - 0.0030 * inject_Z (Z.of_nat j) in
  bar (Z.of_nat j) (h - 0.0002) h (h - 0.0020) (h - 0.0015).

Definition bearish_series : list Candle :=
  map falling_bar (seq 0 16) ++
  [ bar 16 1.0946 1.0965 1.0945 1.0960;
    bar 17 1.0960 1.0995 1.0950 1.0993;
    bar 18 1.0993 1.1000 1.0990 1.0998;
    bar 19 1.0998 1.1002 1.0992 1.0999;
    bar 20 1.0999 1.1009 1.0993 1.0997;
    bar 21 1.0997 1.1003 1.0992 1.0996;
    bar 22 1.0996 1.1001 1.0991 1.0995;
    bar 23 1.0995 1.1000 1.0991 1.0995 ].

Definition no_suggestion : TradeSuggestion :=
  mkSuggestion (O, bullish) bullish "" "" 0 0 0 0 0 0 (mkPosition 0 0 0) 0 0
    type_conflicts_with_bias no_liquidity_data.

Definition no_analysis : Analysis :=
  mkAnalysis (MarketBiasAnalyzer.determine_bias [] "")
    (LiquidityAnalyzer.find_liquidity_levels []) no_fvgs [] [] [].

Definition bearish_analysis : Analysis :=
  Eval vm_compute in
    value_of no_analysis (SilverBulletEngine.analyze bearish_series "D1").

Definition bearish_suggestion : TradeSuggestion :=
  Eval vm_compute in hd no_suggestion (trade_suggestions bearish_analysis).

Definition crafted_fvgs : FVGDetector.FvgAnalysis :=
  Eval vm_compute in value_of no_fvgs (FVGDetector.detect_fvgs crafted_series).

Definition crafted_fvg : FVG :=
  Eval vm_compute in hd no_fvg (FVGDetector.fvgs crafted_fvgs).

Definition neutral_bias : BiasData :=
  mkBias bias_neutral 0.3 1.1013 1.1015 (Some 0.0002) "H1" (Some 200%nat).

Definition bearish_bias : BiasData :=
  mkBias bias_bearish 1 1.1080 1.1015 (Some (-0.0065)) "H1" (Some 200%nat).

(** A bullish signal with the prices of the lifecycle example. *)
Definition example_signal : Signal :=
  mkSignal "signal_frxEURUSD_H1_0" "frxEURUSD" "H1" 1.1000 1.0950 1.1100
    0.8 14400 signal_active None None None None.

Definition no_stats : SessionStats := mkStats 0 0 0 0 0.

Definition one_signal : Generator :=
  mkGenerator [("frxEURUSD"%string, [example_signal])] [] no_stats.

Definition target_exit : Exit :=
  mkExit target_hit 1.1100 100 "signal_frxEURUSD_H1_0".

Definition after_close : Generator :=
  Eval vm_compute in
    snd (LiveSignalGenerator.close_signal one_signal "signal_frxEURUSD_H1_0"
           target_exit 100).

(** An active signal at [1.0850] on H1, and candidates on H1. *)
Definition existing_h1 (symbol : string) : Signal :=
  mkSignal "signal_0" symbol "H1" 1.0850 1.0800 1.0950 0.8 14400
    signal_active None None None None.

Definition candidate_h1 (symbol : string) (entry : Q) : Signal :=
  mkSignal "signal_1" symbol "H1" entry (entry - 0.0050) (entry + 0.0100) 0.8
    14400 signal_active None None None None.

Definition index_with (symbol : string) : Generator :=
  mkGenerator [(symbol, [existing_h1 symbol])] [] no_stats.

(** Series for the vote: twenty daily closes ending in a rise, fifty
    four-hour closes ending in a fall, and a single hourly candle. *)
Definition flat_bar (c : Q) : Candle := bar 0 c c c c.

Definition rising_d1 : list Candle :=
  map flat_bar (repeat 1.0 19 ++ [1.5]).

Definition falling_h4 : list Candle :=
  map flat_bar (repeat 1.5 49 ++ [1.0]).

Definition single_h1 : list Candle := [flat_bar 1.25].

Definition tied_vote : list (string * list Candle) :=
  [("D1"%string, rising_d1); ("H4"%string, falling_h4)].

Definition three_way_vote : list (string * list Candle) :=
  [("D1"%string, rising_d1); ("H4"%string, falling_h4);
   ("H1"%string, single_h1)].

(** Two bullish signals of one symbol, on M15 and on H1, with the prices of
    the lifecycle example. *)
Definition example_m15 : Signal :=
  mkSignal "signal_frxEURUSD_M15_0" "frxEURUSD" "M15" 1.1000 1.0950 1.1100
    0.8 14400 signal_active None None None None.

Definition two_signals : Generator :=
  mkGenerator [("frxEURUSD"%string, [example_m15; example_signal])] [] no_stats.

Definition after_first_pass : Generator :=
  Eval vm_compute in
    fst (SignalSchedulerService._check_exit_conditions two_signals "frxEURUSD"
           1.1105 100).

Definition after_second_pass : Generator :=
  Eval vm_compute in
    fst (SignalSchedulerService._check_exit_conditions after_first_pass
           "frxEURUSD" 1.1105 100).

(** The example signal as the code holds it: each level is the double the
    literal denotes. *)
Definition example_double : Signal :=
  mkSignal "signal_frxEURUSD_H1_0" "frxEURUSD" "H1" (fl 1.1000) (fl 1.0950)
    (fl 1.1100) (fl 0.8) 14400 signal_active None None None None.

(** * Vocabulary of the further properties *)

(** The gap conditions of window [i] of a series. *)
Definition has_bullish_gap (candles : list Candle) (i : nat) : Prop :=
  FVGDetector.min_gap_size <= low_at candles (i - 2) - high_at candles i.

Definition has_bearish_gap (candles : list Candle) (i : nat) : Prop :=
  FVGDetector.min_gap_size <= low_at candles i - high_at candles (i - 2).

(** The window a record comes from. *)
Definition window_of (f : FVG) : nat := fst (fvg_id f).

(** Index [i] of a price list is a strict local maximum (minimum) over two
    neighbours on each side. *)
Definition peak_at (highs : list Q) (i : nat) : Prop :=
  LiquidityAnalyzer.at_ highs (i - 1) < LiquidityAnalyzer.at_ highs i /\
  LiquidityAnalyzer.at_ highs (i - 2) < LiquidityAnalyzer.at_ highs i /\
  LiquidityAnalyzer.at_ highs (i + 1) < LiquidityAnalyzer.at_ highs i /\
  LiquidityAnalyzer.at_ highs (i + 2) < LiquidityAnalyzer.at_ highs i.

Definition trough_at (lows : list Q) (i : nat) : Prop :=
  LiquidityAnalyzer.at_ lows i < LiquidityAnalyzer.at_ lows (i - 1) /\
  LiquidityAnalyzer.at_ lows i < LiquidityAnalyzer.at_ lows (i - 2) /\
  LiquidityAnalyzer.at_ lows i < LiquidityAnalyzer.at_ lows (i + 1) /\
  LiquidityAnalyzer.at_ lows i < LiquidityAnalyzer.at_ lows (i + 2).

(** Two swing points at least three candles apart, in index order. *)
Definition apart (a b : Swing) : Prop := (sw_index a + 3 <= sw_index b)%nat.

(** The close of the last candle, the current price of the analyses. *)
Definition last_close (candles : list Candle) : Q := last (map close candles) 0.

(** [a] is listed before [b] only if it is at least as strong. *)
Definition stronger_first (a b : LiquidityLevel) : Prop :=
  ll_strength b <= ll_strength a.

(** A level as [_find_strongest_level] reports it: same numbers, the type
    replaced by the side. *)
Definition relabel (side : LevelType) (l : LiquidityLevel) : LiquidityLevel :=
  mkLevel (ll_price l) (ll_strength l) (ll_distance l) side (ll_significance l).

(** The EMA [determine_bias] compares the last close with. *)
Definition ema_of (candles : list Candle) (timeframe : string) : Q :=
  MarketBiasAnalyzer.calculate_ema (map close candles)
    (MarketBiasAnalyzer.ema_period_of timeframe).

(** A rising series of twenty daily closes for the EMA. *)
Definition rising_closes : list Q := map close rising_d1.

(** The slack one turn of the EMA loop can add on prices up to [1000]: its
    four roundings together stay below [10^-12]. *)
Definition ema_step_slack : Q := 1 # 1000000000000.

(** The engine's answer on the ten candles of [crafted_series], read as
    hourly candles. *)
Definition crafted_analysis : Analysis :=
  Eval vm_compute in
    value_of no_analysis (SilverBulletEngine.analyze crafted_series "H1").


(** The order of the prices in a record's targets, by its type. *)
Definition price_ladder (f : FVG) : Prop :=
  let t := target_levels f in
  match fvg_type f with
  | bullish =>
      take_profit_1 t < stop_loss t /\ stop_loss t < entry t /\
      take_profit_2 t = entry t
  | bearish =>
      take_profit_2 t < take_profit_1 t /\ take_profit_1 t < entry t /\
      entry t < stop_loss t
  end.


(** The suggestion [_generate_trade_suggestions] writes for a setup, given
    its position size. *)
Definition suggestion_from (s : Setup) (ps : PositionSize) : TradeSuggestion :=
  let fvg := su_fvg s in
  let targets := target_levels fvg in
  mkSuggestion (fvg_id fvg) (fvg_type fvg) "EUR/USD" "H1"
    (entry targets) (stop_loss targets)
    (take_profit_1 targets) (take_profit_2 targets)
    (risk_reward_1 targets) (risk_reward_2 targets) ps
    (su_confidence s) (su_quality_score s)
    (align_reason (su_bias_alignment s))
    (proximity_reason (su_liquidity_proximity s)).


(** The take-profit of a signal is reached at [price]: at or above it for a
    signal whose take-profit lies above its entry, at or below it
    otherwise. *)
Definition target_reached (signal : Signal) (price : Q) : Prop :=
  (sg_entry signal < sg_take_profit signal /\ sg_take_profit signal <= price) \/
  (sg_take_profit signal <= sg_entry signal /\ price <= sg_take_profit signal).

Definition stop_reached (signal : Signal) (price : Q) : Prop :=
  (sg_entry signal < sg_take_profit signal /\ price <= sg_stop_loss signal) \/
  (sg_take_profit signal <= sg_entry signal /\ sg_stop_loss signal <= price).

(** The price has moved from the entry towards the take-profit. *)
Definition in_favour (signal : Signal) (price : Q) : Prop :=
  (sg_entry signal < sg_take_profit signal /\ sg_entry signal < price) \/
  (sg_take_profit signal <= sg_entry signal /\ price < sg_entry signal).

(** The states of a generator: a fresh one, and what [add_signal] and
    [close_signal] make of a state. *)
Inductive reachable : Generator -> Prop :=
| reach_new : reachable SignalSession.new_generator
| reach_add g signal :
    reachable g -> reachable (LiveSignalGenerator.add_signal g signal)
| reach_close g signal_id exit_signal now :
    reachable g ->
    reachable (snd (LiveSignalGenerator.close_signal g signal_id exit_signal now)).

(** The pips a closed signal was booked with. *)
Definition booked_pips (signal : Signal) : Q :=
  match sg_pips_gained signal with
  | Some pips => pips
  | None => 0
  end.

(** The closed signals booked as wins. *)
Definition wins (closed : list Signal) : list Signal :=
  filter (fun signal => Qlt_bool 0 (booked_pips signal)) closed.

(** The signals of a list that belong to [symbol]. *)
Definition of_symbol (symbol : string) (signals : list Signal) : list Signal :=
  filter (fun signal => String.eqb (sg_symbol signal) symbol) signals.

(** No signal of a bucket is a near-duplicate of one listed before it. *)
Definition distinct_entries (bucket : list Signal) : Prop :=
  ForallOrdPairs (fun earlier later => ~ near_duplicate later earlier) bucket.


(** The session statistics agree with the closed log. *)
Definition books_balance (g : Generator) : Prop :=
  total_trades (session_stats g) = length (closed_signals g) /\
  winning_trades (session_stats g) = length (wins (closed_signals g)) /\
  (winning_trades (session_stats g) + losing_trades (session_stats g)
   = total_trades (session_stats g))%nat /\
  total_pips (session_stats g)
  = fold_left f64_add (map booked_pips (closed_signals g)) 0 /\
  Forall (fun signal => sg_status signal = signal_closed) (closed_signals g) /\
  0 <= win_rate (session_stats g) /\ win_rate (session_stats g) <= 100 /\
  (closed_signals g <> [] ->
   win_rate (session_stats g)
   = py_round
       (f64_mul
          (f64_div (inject_Z (Z.of_nat (winning_trades (session_stats g))))
             (inject_Z (Z.of_nat (total_trades (session_stats g))))) 100) 1).


(** The active index has one bucket per symbol, and every signal is filed
    under its own symbol. *)
Definition well_filed (buckets : list (string * list Signal)) : Prop :=
  NoDup (map fst buckets) /\
  forall symbol bucket signal,
    In (symbol, bucket) buckets -> In signal bucket ->
    sg_symbol signal = symbol.


(** The closed signal [signal] is the booking of the exit message [ev]. *)
Definition booked_as (ev : ExitEvent) (signal : Signal) : Prop :=
  sg_signal_id signal = ev_signal_id ev /\
  sg_status signal = signal_closed /\
  sg_exit_reason signal = Some (ev_exit_reason ev) /\
  sg_exit_price signal = Some (ev_exit_price ev) /\
  sg_pips_gained signal = Some (ev_pips_gained ev).

(** The generator after a pass of [_check_exit_conditions], and the exit
    messages of the pass. *)
Definition after_pass (g : Generator) (symbol : string) (price : Q) (now : Z)
  : Generator :=
  fst (SignalSchedulerService._check_exit_conditions g symbol price now).

Definition exits_of_pass (g : Generator) (symbol : string) (price : Q)
    (now : Z) : list ExitEvent :=
  snd (SignalSchedulerService._check_exit_conditions g symbol price now).

(** What separates [g'] from [g] when the exits [evs] were broadcast in
    between. *)
Definition pass_effect (g g' : Generator) (evs : list ExitEvent) : Prop :=
  (exists booked,
      closed_signals g' = closed_signals g ++ booked /\
      Forall2 booked_as evs booked) /\
  (length (LiveSignalGenerator.all_signals g') + length evs
   = length (LiveSignalGenerator.all_signals g))%nat /\
  total_trades (session_stats g')
  = (total_trades (session_stats g) + length evs)%nat /\
  map fst (active_signals g') = map fst (active_signals g) /\
  (reachable g -> reachable g').


(** Every bucket of the active index has distinct entries. *)
Definition entries_distinct (g : Generator) : Prop :=
  forall symbol bucket,
    LiveSignalGenerator.dict_get (active_signals g) symbol = Some bucket ->
    distinct_entries bucket.

(** Three H1 candidates for one symbol, the second within [0.001] of the
    first. *)
Definition h1_candidates : list Signal :=
  [candidate_h1 "frxEURUSD" 1.0850; candidate_h1 "frxEURUSD" 1.0851;
   candidate_h1 "frxEURUSD" 1.0900].


(** The price of a gap that [_check_liquidity_proximity] measures from, and
    the side of the liquidity it measures to. *)
Definition anchor_price (fvg : FVG) : Q :=
  match fvg_type fvg with
  | bullish => gap_bottom fvg
  | bearish => gap_top fvg
  end.

Definition relevant_side (fvg : FVG) (liq : LiquidityAnalysis)
  : list LiquidityLevel :=
  match fvg_type fvg with
  | bullish => buy_side_liquidity liq
  | bearish => sell_side_liquidity liq
  end.

(** The distance of a level from the anchor price of a gap. *)
Definition away (fvg : FVG) (level : LiquidityLevel) : Q :=
  Qabs (anchor_price fvg - ll_price level).

(** * Properties *)

(** ** Rounding *)

Section Rounding.

Lemma Qlt_bool_iff x y : Qlt_bool x y = true <-> x < y.
Proof.
  unfold Qlt_bool. rewrite negb_true_iff.
  split; intro H.
  - apply Qnot_le_lt. intro Hle. apply Qle_bool_iff in Hle. congruence.
  - destruct (Qle_bool y x) eqn:E; [|reflexivity].
    apply Qle_bool_iff in E. exfalso. exact (Qlt_not_le _ _ H E).
Qed.

Lemma Qlt_bool_false_iff x y : Qlt_bool x y = false <-> y <= x.
Proof.
  unfold Qlt_bool. rewrite negb_false_iff. apply Qle_bool_iff.
Qed.

Lemma Qle_bool_false_iff x y : Qle_bool x y = false <-> y < x.
Proof.
  rewrite <- Qlt_bool_iff. unfold Qlt_bool.
  destruct (Qle_bool x y); simpl; split; congruence.
Qed.

Lemma round_half_even_comp (p q : Q) :
  p == q -> round_half_even p = round_half_even q.
Proof.
  intro H. unfold round_half_even.
  rewrite (Qfloor_comp _ _ H).
  assert (E : Qcompare (p - inject_Z (Qfloor q)) (1 # 2)
              = Qcompare (q - inject_Z (Qfloor q)) (1 # 2)).
  { apply Qcompare_comp; [rewrite H|]; reflexivity. }
  rewrite E. reflexivity.
Qed.

Lemma round_nd_comp (p q : Q) (n : nat) :
  p == q -> round_nd p n = round_nd q n.
Proof.
  intro H. unfold round_nd.
  rewrite (round_half_even_comp (p * pow10 n) (q * pow10 n)); [reflexivity|].
  rewrite H. reflexivity.
Qed.

Lemma round_half_even_Z (z : Z) : round_half_even (inject_Z z) = z.
Proof.
  unfold round_half_even. rewrite Qfloor_Z.
  assert (E : Qcompare (inject_Z z - inject_Z z) (1 # 2) = Lt).
  { assert (Z0 : inject_Z z - inject_Z z == 0) by ring.
    rewrite (Qcompare_comp _ _ Z0 _ _ (Qeq_refl (1 # 2))). reflexivity. }
  rewrite E. reflexivity.
Qed.

Lemma pow10_pos (n : nat) : 0 < pow10 n.
Proof.
  unfold pow10. rewrite <- (Zlt_Qlt 0). apply Z.pow_pos_nonneg; lia.
Qed.

(** Rounding leaves a multiple of [10^-n] alone. *)
Lemma round_nd_exact (q : Q) (n : nat) (z : Z) :
  q * pow10 n == inject_Z z -> round_nd q n == q.
Proof.
  intro H. unfold round_nd.
  rewrite (round_half_even_comp _ _ H), round_half_even_Z.
  rewrite <- H. field.
  intro E. pose proof (pow10_pos n) as P. rewrite E in P.
  exact (Qlt_irrefl _ P).
Qed.

Lemma round_nd_Z (z : Z) (n : nat) : round_nd (inject_Z z) n == inject_Z z.
Proof.
  apply (round_nd_exact _ n (z * 10 ^ Z.of_nat n)).
  unfold pow10. rewrite inject_Z_mult. reflexivity.
Qed.

End Rounding.

(** ** The gap detector *)

Section GapDetector.
Import FVGDetector.

(** What [_check_bullish_fvg] and [_check_bearish_fvg] return. *)
Lemma check_bullish_some h1 l1 h2 l2 h3 l3 gd :
  _check_bullish_fvg h1 l1 h2 l2 h3 l3 = Some gd ->
  gd = mkGapData bullish h3 l1 (l1 - h3) 2 /\ min_gap_size <= l1 - h3.
Proof.
  unfold _check_bullish_fvg.
  destruct (Qlt_bool h3 l1); [|discriminate].
  destruct (Qle_bool min_gap_size (l1 - h3)) eqn:E; [|discriminate].
  intro H. inversion H. split; [reflexivity|]. now apply Qle_bool_iff.
Qed.

Lemma check_bearish_some h1 l1 h2 l2 h3 l3 gd :
  _check_bearish_fvg h1 l1 h2 l2 h3 l3 = Some gd ->
  gd = mkGapData bearish l3 h1 (l3 - h1) 2 /\ min_gap_size <= l3 - h1.
Proof.
  unfold _check_bearish_fvg.
  destruct (Qlt_bool h1 l3); [|discriminate].
  destruct (Qle_bool min_gap_size (l3 - h1)) eqn:E; [|discriminate].
  intro H. inversion H. split; [reflexivity|]. now apply Qle_bool_iff.
Qed.

Lemma min_gap_size_pos : 0 < min_gap_size.
Proof. reflexivity. Qed.

(** A gap that passed the size check has well-defined targets with constant
    risk-reward ratios. *)
Lemma fdiv_ok (a b : Q) : ~ b == 0 -> fdiv a b = Ok (a / b).
Proof.
  intro H. unfold fdiv.
  destruct (Qeq_bool b 0) eqn:E; [|reflexivity].
  apply Qeq_bool_iff in E. contradiction.
Qed.

Lemma targets_bullish (top bottom : Q) :
  0 < bottom - top ->
  exists t,
    _calculate_fvg_targets (mkGapData bullish top bottom (bottom - top) 2)
      bullish = Ok t
    /\ risk_reward_1 t == -2 /\ risk_reward_2 t == 0
    /\ entry t = round_nd bottom 5
    /\ stop_loss t = round_nd (bottom - (bottom - top) * 0.5) 5.
Proof.
  intro Hpos.
  assert (Hne : ~ bottom - top == 0).
  { intro E. rewrite E in Hpos. exact (Qlt_irrefl _ Hpos). }
  assert (Hden : ~ bottom - (bottom - (bottom - top) * 0.5) == 0).
  { intro E. apply Hne.
    setoid_replace (bottom - top)
      with (2 * (bottom - (bottom - (bottom - top) * 0.5))) by ring.
    rewrite E. ring. }
  unfold _calculate_fvg_targets. cbn [gd_gap_top gd_gap_bottom gd_gap_size].
  rewrite !(fdiv_ok _ _ Hden). cbn [bind].
  eexists. split; [reflexivity|]. cbn [risk_reward_1 risk_reward_2 entry stop_loss].
  repeat split.
  - rewrite (round_nd_comp _ (inject_Z (-2))).
    + apply round_nd_Z.
    + change (inject_Z (-2)) with (-2). field. exact Hden.
  - rewrite (round_nd_comp _ (inject_Z 0)).
    + apply round_nd_Z.
    + change (inject_Z 0) with 0. field. exact Hden.
Qed.

Lemma targets_bearish (top bottom : Q) :
  0 < top - bottom ->
  exists t,
    _calculate_fvg_targets (mkGapData bearish top bottom (top - bottom) 2)
      bearish = Ok t
    /\ risk_reward_1 t == 2 /\ risk_reward_2 t == 4
    /\ entry t = round_nd top 5
    /\ stop_loss t = round_nd (top + (top - bottom) * 0.5) 5.
Proof.
  intro Hpos.
  assert (Hne : ~ top - bottom == 0).
  { intro E. rewrite E in Hpos. exact (Qlt_irrefl _ Hpos). }
  assert (Hden : ~ top + (top - bottom) * 0.5 - top == 0).
  { intro E. apply Hne.
    setoid_replace (top - bottom)
      with (2 * (top + (top - bottom) * 0.5 - top)) by ring.
    rewrite E. ring. }
  unfold _calculate_fvg_targets. cbn [gd_gap_top gd_gap_bottom gd_gap_size].
  rewrite !(fdiv_ok _ _ Hden). cbn [bind].
  eexists. split; [reflexivity|]. cbn [risk_reward_1 risk_reward_2 entry stop_loss].
  repeat split.
  - rewrite (round_nd_comp _ (inject_Z 2)).
    + apply round_nd_Z.
    + change (inject_Z 2) with 2. field. exact Hden.
  - rewrite (round_nd_comp _ (inject_Z 4)).
    + apply round_nd_Z.
    + change (inject_Z 4) with 4. field. exact Hden.
Qed.

End GapDetector.

Section FillScan.
Import FVGDetector.

Lemma scan_fill_none gd i later :
  (forall c, In c later -> fills gd c = false) ->
  scan_fill gd i later = no_fill.
Proof.
  revert i. induction later as [|c rest IH]; intros i H; [reflexivity|].
  cbn [scan_fill]. rewrite (H c (or_introl eq_refl)).
  apply IH. intros x Hx. apply H. now right.
Qed.

Lemma scan_fill_first gd i pre c post :
  (forall x, In x pre -> fills gd x = false) ->
  fills gd c = true ->
  scan_fill gd i (pre ++ c :: post) = fill_at gd c (i + length pre).
Proof.
  revert i. induction pre as [|p pre IH]; intros i Hpre Hc; cbn [app scan_fill length].
  - rewrite Hc. now rewrite Nat.add_0_r.
  - rewrite (Hpre p (or_introl eq_refl)).
    rewrite IH; [|intros x Hx; apply Hpre; now right | exact Hc].
    f_equal. lia.
Qed.

(** Either no candle of [later] fills the gap, or [later] splits at the
    first one that does. *)
Lemma first_fill_split gd later :
  (forall c, In c later -> fills gd c = false) \/
  exists pre c post,
    later = pre ++ c :: post /\
    (forall x, In x pre -> fills gd x = false) /\ fills gd c = true.
Proof.
  induction later as [|c rest IH].
  - left. intros c [].
  - destruct (fills gd c) eqn:E.
    + right. exists [], c, rest. repeat split; [intros x []|exact E].
    + destruct IH as [IH | (pre & d & post & -> & Hpre & Hd)].
      * left. intros x [<-|Hx]; [exact E | now apply IH].
      * right. exists (c :: pre), d, post. repeat split; [|exact Hd].
        intros x [<-|Hx]; [exact E | now apply Hpre].
Qed.

Lemma fill_at_status gd c k : fs_status (fill_at gd c k) = filled.
Proof. unfold fill_at. now destruct (gd_type gd). Qed.

Lemma fill_at_index gd c k : fs_fill_index (fill_at gd c k) = Some k.
Proof. unfold fill_at. now destruct (gd_type gd). Qed.

(** Later candles never undo a fill. *)
Lemma scan_fill_app gd i later more :
  fs_status (scan_fill gd i later) = filled ->
  scan_fill gd i (later ++ more) = scan_fill gd i later.
Proof.
  revert i. induction later as [|c rest IH]; intros i H; cbn [scan_fill app] in *.
  - discriminate.
  - destruct (fills gd c); [reflexivity | now apply IH].
Qed.

End FillScan.

Section SingleWindow.
Import FVGDetector.

Lemma create_record_inv candles i gd c1 c2 c3 f :
  _create_fvg_record candles i gd (gd_type gd) c1 c2 c3 = Ok f ->
  exists t, _calculate_fvg_targets gd (gd_type gd) = Ok t /\
            f = record_of candles i gd c2 t.
Proof.
  unfold _create_fvg_record.
  destruct (_calculate_fvg_targets gd (gd_type gd)) as [t|e]; cbn [bind];
    [|discriminate].
  intro H. inversion H. exists t. split; reflexivity.
Qed.

Lemma getitem_ok {A} (l : list A) i a : getitem l i = Ok a -> nth_error l i = Some a.
Proof. unfold getitem. destruct (nth_error l i); congruence. Qed.

Lemma getitem_in_range {A} (l : list A) i :
  (i < length l)%nat -> exists a, getitem l i = Ok a /\ nth_error l i = Some a.
Proof.
  intro H. unfold getitem. destruct (nth_error l i) as [a|] eqn:E.
  - now exists a.
  - apply nth_error_None in E. lia.
Qed.

(** What an emitted record is made of. *)
Lemma analyze_single_inv candles i f :
  _analyze_single_fvg candles i = Ok (Some f) ->
  (2 <= i)%nat /\ (i < length candles - 1)%nat /\
  exists c1 c2 c3 gd t,
    nth_error candles (i - 2) = Some c1 /\
    nth_error candles (i - 1) = Some c2 /\
    nth_error candles i = Some c3 /\
    ((gd = bullish_gap c1 c3 /\ min_gap_size <= low c1 - high c3 /\
      _check_bullish_fvg (high c1) (low c1) (high c2) (low c2)
        (high c3) (low c3) = Some gd) \/
     (gd = bearish_gap c1 c3 /\ min_gap_size <= low c3 - high c1 /\
      _check_bullish_fvg (high c1) (low c1) (high c2) (low c2)
        (high c3) (low c3) = None /\
      _check_bearish_fvg (high c1) (low c1) (high c2) (low c2)
        (high c3) (low c3) = Some gd)) /\
    _calculate_fvg_targets gd (gd_type gd) = Ok t /\
    f = record_of candles i gd c2 t.
Proof.
  unfold _analyze_single_fvg.
  destruct ((i <? 2)%nat || (length candles - 1 <=? i)%nat) eqn:G; [discriminate|].
  apply orb_false_iff in G. destruct G as [G1 G2].
  apply Nat.ltb_ge in G1. apply Nat.leb_gt in G2.
  destruct (getitem candles (i - 2)) as [c1|] eqn:E1; cbn [bind]; [|discriminate].
  destruct (getitem candles (i - 1)) as [c2|] eqn:E2; cbn [bind]; [|discriminate].
  destruct (getitem candles i) as [c3|] eqn:E3; cbn [bind]; [|discriminate].
  apply getitem_ok in E1, E2, E3.
  intro H. split; [exact G1|]. split; [exact G2|].
  destruct (_check_bullish_fvg _ _ _ _ _ _) as [gd|] eqn:B.
  - pose proof (check_bullish_some _ _ _ _ _ _ _ B) as [-> Hsz].
    destruct (_create_fvg_record _ _ _ _ _ _ _) as [r|] eqn:R; cbn [bind] in H;
      [|discriminate].
    inversion H; subst r.
    apply (create_record_inv candles i (bullish_gap c1 c3)) in R.
    destruct R as (t & Ht & ->).
    exists c1, c2, c3, (bullish_gap c1 c3), t.
    split; [exact E1|]. split; [exact E2|]. split; [exact E3|].
    split; [left; auto|]. split; [exact Ht | reflexivity].
  - destruct (_check_bearish_fvg _ _ _ _ _ _) as [gd|] eqn:B'; [|discriminate].
    pose proof (check_bearish_some _ _ _ _ _ _ _ B') as [-> Hsz].
    destruct (_create_fvg_record _ _ _ _ _ _ _) as [r|] eqn:R; cbn [bind] in H;
      [|discriminate].
    inversion H; subst r.
    apply (create_record_inv candles i (bearish_gap c1 c3)) in R.
    destruct R as (t & Ht & ->).
    exists c1, c2, c3, (bearish_gap c1 c3), t.
    split; [exact E1|]. split; [exact E2|]. split; [exact E3|].
    split; [right; auto|]. split; [exact Ht | reflexivity].
Qed.

(** A window never raises: the size check keeps the targets' divisions
    away from zero. *)
Lemma analyze_single_total candles i :
  exists r, _analyze_single_fvg candles i = Ok r.
Proof.
  unfold _analyze_single_fvg.
  destruct ((i <? 2)%nat || (length candles - 1 <=? i)%nat) eqn:G;
    [now eexists|].
  apply orb_false_iff in G. destruct G as [G1 G2].
  apply Nat.ltb_ge in G1. apply Nat.leb_gt in G2.
  destruct (getitem_in_range candles (i - 2)) as (c1 & -> & _); [lia|].
  destruct (getitem_in_range candles (i - 1)) as (c2 & -> & _); [lia|].
  destruct (getitem_in_range candles i) as (c3 & -> & _); [lia|].
  cbn [bind].
  destruct (_check_bullish_fvg _ _ _ _ _ _) as [gd|] eqn:B.
  - apply check_bullish_some in B. destruct B as [-> B].
    destruct (targets_bullish (high c3) (low c1)) as (t & Ht & _).
    { eapply Qlt_le_trans; [exact min_gap_size_pos | exact B]. }
    unfold _create_fvg_record. rewrite Ht. cbn [bind]. now eexists.
  - destruct (_check_bearish_fvg _ _ _ _ _ _) as [gd|] eqn:B'; [|now eexists].
    apply check_bearish_some in B'. destruct B' as [-> B'].
    destruct (targets_bearish (low c3) (high c1)) as (t & Ht & _).
    { eapply Qlt_le_trans; [exact min_gap_size_pos | exact B']. }
    unfold _create_fvg_record. rewrite Ht. cbn [bind]. now eexists.
Qed.

Lemma collect_fvgs_total candles idxs :
  exists l, collect_fvgs candles idxs = Ok l.
Proof.
  induction idxs as [|i rest (l & IH)]; cbn [collect_fvgs]; [now eexists|].
  destruct (analyze_single_total candles i) as (r & ->). rewrite IH.
  cbn [bind]. now eexists.
Qed.

(** [detect_fvgs] always returns. *)
Lemma detect_fvgs_total candles : exists fa, detect_fvgs candles = Ok fa.
Proof.
  unfold detect_fvgs. destruct (length candles <? 5)%nat; [now eexists|].
  destruct (collect_fvgs_total candles (range 2 (length candles - 1)))
    as (l & ->).
  cbn [bind]. now eexists.
Qed.

Lemma collect_fvgs_In candles idxs l f :
  collect_fvgs candles idxs = Ok l ->
  (In f l <-> exists i, In i idxs /\ _analyze_single_fvg candles i = Ok (Some f)).
Proof.
  revert l. induction idxs as [|i rest IH]; intros l; cbn [collect_fvgs].
  - intro H. inversion H. split; [intros [] | intros (i & [] & _)].
  - destruct (_analyze_single_fvg candles i) as [r|] eqn:E; cbn [bind];
      [|discriminate].
    destruct (collect_fvgs candles rest) as [more|]; cbn [bind]; [|discriminate].
    intro H. inversion H; subst l. clear H.
    specialize (IH more eq_refl).
    destruct r as [g|].
    + split.
      * intros [<-|Hin].
        -- exists i. split; [now left | exact E].
        -- apply IH in Hin. destruct Hin as (j & Hj & Hf).
           exists j. split; [now right | exact Hf].
      * intros (j & [<-|Hj] & Hf).
        -- left. congruence.
        -- right. apply IH. now exists j.
    + split.
      * intro Hin. apply IH in Hin. destruct Hin as (j & Hj & Hf).
        exists j. split; [now right | exact Hf].
      * intros (j & [<-|Hj] & Hf); [congruence|].
        apply IH. now exists j.
Qed.

(** Every record of [detect_fvgs] is the record of its own window, whose
    last index is the first component of the id. *)
Lemma detect_fvgs_In candles fa f :
  detect_fvgs candles = Ok fa -> In f (fvgs fa) ->
  _analyze_single_fvg candles (fst (fvg_id f)) = Ok (Some f).
Proof.
  unfold detect_fvgs. destruct (length candles <? 5)%nat.
  - intro H. inversion H. intros [].
  - destruct (collect_fvgs candles _) as [l|] eqn:E; cbn [bind]; [|discriminate].
    intro H. inversion H; subst fa. cbn [fvgs]. intro Hin.
    apply (collect_fvgs_In _ _ _ f E) in Hin. destruct Hin as (i & _ & Hi).
    pose proof (analyze_single_inv _ _ _ Hi)
      as (_ & _ & c1 & c2 & c3 & gd & t & _ & _ & _ & _ & _ & ->).
    exact Hi.
Qed.

End SingleWindow.

Section FillStatus.
Import FVGDetector.

Lemma fill_condition_record candles i gd c2 t c :
  fill_condition (record_of candles i gd c2 t) c = fills gd c.
Proof. reflexivity. Qed.

Lemma later_candle (candles : list Candle) i j c :
  (i < j)%nat -> nth_error candles j = Some c -> In c (skipn (i + 1) candles).
Proof.
  intros Hij Hj. apply (nth_error_In _ (j - (i + 1))).
  rewrite nth_error_skipn. replace (i + 1 + (j - (i + 1)))%nat with j by lia.
  exact Hj.
Qed.

(** The status of the record of window [i]: filled at the least qualifying
    index, active when there is none. *)
Lemma record_fill_status candles i gd c2 t :
  let f := record_of candles i gd c2 t in
  (status f = active /\ fill_index f = None /\
   forall j, ~ qualifies candles f i j)
  \/
  (status f = filled /\
   exists k, fill_index f = Some k /\ qualifies candles f i k /\
             forall j, qualifies candles f i j -> (k <= j)%nat).
Proof.
  intro f.
  destruct (first_fill_split gd (skipn (i + 1) candles))
    as [Hnone | (pre & c & post & Hsplit & Hpre & Hc)].
  - left.
    assert (E : _check_fvg_status candles i gd = no_fill)
      by (apply scan_fill_none; exact Hnone).
    unfold f, record_of. cbn [status fill_index]. rewrite E.
    repeat split.
    intros j (Hij & c & Hj & Hq).
    change (fills gd c = true) in Hq.
    rewrite (Hnone c (later_candle _ _ _ _ Hij Hj)) in Hq. discriminate.
  - right.
    assert (E : _check_fvg_status candles i gd
                = fill_at gd c (i + 1 + length pre)).
    { unfold _check_fvg_status. rewrite Hsplit.
      now apply scan_fill_first. }
    assert (Hk : nth_error candles (i + 1 + length pre) = Some c).
    { rewrite <- nth_error_skipn, Hsplit, nth_error_app2 by lia.
      now rewrite Nat.sub_diag. }
    unfold f, record_of. cbn [status fill_index]. rewrite E.
    rewrite fill_at_status, fill_at_index. split; [reflexivity|].
    exists (i + 1 + length pre)%nat. split; [reflexivity|]. split.
    + split; [lia|]. exists c. split; [exact Hk | exact Hc].
    + intros j (Hij & d & Hj & Hq).
      destruct (Nat.le_gt_cases (i + 1 + length pre) j) as [|Hlt]; [assumption|].
      exfalso.
      assert (Hd : nth_error pre (j - (i + 1)) = Some d).
      { rewrite <- (nth_error_app1 pre (c :: post)) by lia.
        rewrite <- Hsplit, nth_error_skipn.
        replace (i + 1 + (j - (i + 1)))%nat with j by lia. exact Hj. }
      change (fills gd d = true) in Hq.
      rewrite (Hpre d (nth_error_In _ _ Hd)) in Hq. discriminate.
Qed.

(** Appending candles keeps the window, its gap data and a fill once it has
    happened. *)
Lemma analyze_single_extend candles more i f :
  _analyze_single_fvg candles i = Ok (Some f) ->
  exists f',
    _analyze_single_fvg (candles ++ more) i = Ok (Some f') /\
    fvg_id f' = fvg_id f /\ fvg_type f' = fvg_type f /\
    gap_top f' = gap_top f /\ gap_bottom f' = gap_bottom f /\
    (status f = filled ->
     status f' = filled /\ fill_index f' = fill_index f).
Proof.
  intro H.
  destruct (analyze_single_inv _ _ _ H)
    as (H2 & Hlen & c1 & c2 & c3 & gd & t & E1 & E2 & E3 & Hgd & Ht & ->).
  assert (L : forall k c, nth_error candles k = Some c ->
                          getitem (candles ++ more) k = Ok c).
  { intros k c Hk. unfold getitem.
    rewrite nth_error_app1, Hk; [reflexivity|].
    apply nth_error_Some. congruence. }
  exists (record_of (candles ++ more) i gd c2 t).
  split.
  - unfold _analyze_single_fvg.
    assert (G : ((i <? 2)%nat || (length (candles ++ more) - 1 <=? i)%nat) = false).
    { apply orb_false_iff. split; [apply Nat.ltb_ge; lia|].
      apply Nat.leb_gt. rewrite length_app. lia. }
    rewrite G, (L _ _ E1), (L _ _ E2), (L _ _ E3). cbn [bind].
    destruct Hgd as [(-> & Hsz & B) | (-> & Hsz & B & B')].
    + rewrite B. unfold _create_fvg_record.
      change (gd_type (bullish_gap c1 c3)) with bullish in Ht.
      rewrite Ht. reflexivity.
    + rewrite B, B'. unfold _create_fvg_record.
      change (gd_type (bearish_gap c1 c3)) with bearish in Ht.
      rewrite Ht. reflexivity.
  - repeat split.
    + unfold record_of in *. cbn [status] in *.
      unfold _check_fvg_status in *. rewrite skipn_app.
      rewrite scan_fill_app; assumption.
    + unfold record_of in *. cbn [status fill_index] in *.
      unfold _check_fvg_status in *. rewrite skipn_app.
      rewrite scan_fill_app; [reflexivity | assumption].
Qed.

End FillStatus.

Section DetectedGaps.
Import FVGDetector.

Lemma detect_fvgs_contains candles i f :
  (5 <= length candles)%nat ->
  _analyze_single_fvg candles i = Ok (Some f) ->
  exists fa, detect_fvgs candles = Ok fa /\ In f (fvgs fa).
Proof.
  intros Hlen H.
  destruct (analyze_single_inv _ _ _ H) as (H2 & Hi & _).
  unfold detect_fvgs.
  destruct (length candles <? 5)%nat eqn:L; [apply Nat.ltb_lt in L; lia|].
  destruct (collect_fvgs_total candles (range 2 (length candles - 1)))
    as (l & E).
  rewrite E. cbn [bind]. eexists. split; [reflexivity|]. cbn [fvgs].
  apply (collect_fvgs_In _ _ _ f E). exists i. split; [|exact H].
  unfold range. apply in_seq. lia.
Qed.

Lemma detect_fvgs_length candles fa f :
  detect_fvgs candles = Ok fa -> In f (fvgs fa) -> (5 <= length candles)%nat.
Proof.
  unfold detect_fvgs. destruct (length candles <? 5)%nat eqn:L.
  - intro H. inversion H. intros [].
  - intros _ _. now apply Nat.ltb_ge in L.
Qed.

End DetectedGaps.

(** C4.  For every gap record [f] that [detect_fvgs] reports, with [i] the
    last index of its formation window: if some later candle meets the fill
    condition (bullish: its high reaches [gap_bottom]; bearish: its low
    reaches [gap_top]) then [f] is filled and its [fill_index] is the least
    qualifying index; if none does, [f] is active with no fill index; and
    the step from active to filled is one-way: on any continuation of the
    series the record of the same window is again reported, and once filled
    it stays filled at the same index. *)
Theorem C4_fill_is_first_and_final :
  forall candles fa f,
    FVGDetector.detect_fvgs candles = Ok fa ->
    In f (FVGDetector.fvgs fa) ->
    ((exists j, qualifies candles f (fst (fvg_id f)) j) ->
     status f = filled /\
     exists k, fill_index f = Some k /\
               qualifies candles f (fst (fvg_id f)) k /\
               forall j, qualifies candles f (fst (fvg_id f)) j -> (k <= j)%nat)
    /\
    ((forall j, ~ qualifies candles f (fst (fvg_id f)) j) ->
     status f = active /\ fill_index f = None)
    /\
    (forall more, exists fa' f',
        FVGDetector.detect_fvgs (candles ++ more) = Ok fa' /\
        In f' (FVGDetector.fvgs fa') /\
        fvg_id f' = fvg_id f /\
        (status f = filled ->
         status f' = filled /\ fill_index f' = fill_index f)).
Proof.
  intros candles fa f Hd Hin.
  pose proof (detect_fvgs_In _ _ _ Hd Hin) as Hf.
  pose proof (detect_fvgs_length _ _ _ Hd Hin) as Hlen.
  destruct (analyze_single_inv _ _ _ Hf)
    as (_ & _ & c1 & c2 & c3 & gd & t & _ & _ & _ & _ & _ & E).
  set (i := fst (fvg_id f)) in *.
  assert (Ei : f = record_of candles i gd c2 t) by exact E.
  pose proof (record_fill_status candles i gd c2 t) as S.
  cbv zeta in S. rewrite <- Ei in S.
  split; [|split].
  - intros (j & Hj).
    destruct S as [(_ & _ & Hno) | S]; [exfalso; exact (Hno j Hj) | exact S].
  - intro Hno.
    destruct S as [(Hs & Hi & _) | (_ & k & _ & Hk & _)];
      [split; assumption | exfalso; exact (Hno k Hk)].
  - intro more.
    destruct (analyze_single_extend candles more i f Hf)
      as (f' & Hf' & Hid & _ & _ & _ & Hst).
    destruct (detect_fvgs_contains (candles ++ more) i f') as (fa' & Hd' & Hin').
    + rewrite length_app. lia.
    + exact Hf'.
    + exists fa', f'. repeat split; try assumption; now apply Hst.
Qed.

(** The theorem at the series [gap_then_fill]: the gap of window 2 is
    filled at index 4, the first of the two later candles that reach it. *)
Lemma C4_fill_is_first_and_final_witness :
  FVGDetector.detect_fvgs gap_then_fill = Ok gap_then_fill_fvgs /\
  In gap_then_fill_first (FVGDetector.fvgs gap_then_fill_fvgs) /\
  qualifies gap_then_fill gap_then_fill_first 2 5 /\
  status gap_then_fill_first = filled /\
  exists k, fill_index gap_then_fill_first = Some k /\
            qualifies gap_then_fill gap_then_fill_first 2 k /\
            forall j, qualifies gap_then_fill gap_then_fill_first 2 j ->
                      (k <= j)%nat.
Proof.
  assert (Hd : FVGDetector.detect_fvgs gap_then_fill = Ok gap_then_fill_fvgs)
    by (vm_compute; reflexivity).
  assert (Hin : In gap_then_fill_first (FVGDetector.fvgs gap_then_fill_fvgs))
    by (left; reflexivity).
  assert (Hq : qualifies gap_then_fill gap_then_fill_first 2 5).
  { split; [lia|]. eexists. split; [reflexivity | vm_compute; reflexivity]. }
  split; [exact Hd|]. split; [exact Hin|]. split; [exact Hq|].
  apply (proj1 (C4_fill_is_first_and_final _ _ _ Hd Hin)).
  exists 5%nat. exact Hq.
Defined.

Section BullishWindow.
Import FVGDetector.

Lemma fvg_id_of_window candles i f :
  _analyze_single_fvg candles i = Ok (Some f) -> fst (fvg_id f) = i.
Proof.
  intro H.
  destruct (analyze_single_inv _ _ _ H)
    as (_ & _ & c1 & c2 & c3 & gd & t & _ & _ & _ & _ & _ & ->).
  reflexivity.
Qed.

Lemma collect_filter_absent candles idxs l i :
  collect_fvgs candles idxs = Ok l -> ~ In i idxs ->
  filter (in_window i) l = [].
Proof.
  intros E Hni.
  assert (A : forall g, In g l -> in_window i g = false).
  { intros g Hg. apply (collect_fvgs_In _ _ _ g E) in Hg.
    destruct Hg as (j & Hj & Hf). apply fvg_id_of_window in Hf.
    unfold in_window. apply Nat.eqb_neq. intro Hgi.
    apply Hni. rewrite <- Hgi, Hf. exact Hj. }
  clear E. induction l as [|g l IH]; [reflexivity|].
  cbn [filter]. rewrite (A g (or_introl eq_refl)).
  apply IH. intros x Hx. apply A. now right.
Qed.

(** The records of a run over distinct indices, restricted to one window,
    are the single record of that window. *)
Lemma collect_filter_window candles idxs l i f :
  NoDup idxs -> collect_fvgs candles idxs = Ok l -> In i idxs ->
  _analyze_single_fvg candles i = Ok (Some f) ->
  filter (in_window i) l = [f].
Proof.
  revert l. induction idxs as [|j rest IH]; intros l Hnd E Hin Hf; [destruct Hin|].
  cbn [collect_fvgs] in E.
  destruct (_analyze_single_fvg candles j) as [r|] eqn:Ej; cbn [bind] in E;
    [|discriminate].
  destruct (collect_fvgs candles rest) as [more|] eqn:Er; cbn [bind] in E;
    [|discriminate].
  inversion E; subst l; clear E.
  inversion Hnd as [|? ? Hnj Hnd']; subst.
  destruct (Nat.eq_dec j i) as [->|Hne].
  - rewrite Hf in Ej. inversion Ej; subst r.
    assert (W : in_window i f = true).
    { unfold in_window. rewrite (fvg_id_of_window _ _ _ Hf). apply Nat.eqb_refl. }
    cbn [filter]. rewrite W.
    now rewrite (collect_filter_absent _ _ _ _ Er Hnj).
  - destruct Hin as [->|Hin]; [contradiction|].
    destruct r as [g|].
    + assert (W : in_window i g = false).
      { unfold in_window. rewrite (fvg_id_of_window _ _ _ Ej).
        now apply Nat.eqb_neq. }
      cbn [filter]. rewrite W. now apply IH.
    + now apply IH.
Qed.

Lemma high_at_nth candles i c :
  nth_error candles i = Some c -> high_at candles i = high c.
Proof.
  intro H. unfold high_at. apply nth_error_nth.
  now rewrite nth_error_map, H.
Qed.

Lemma low_at_nth candles i c :
  nth_error candles i = Some c -> low_at candles i = low c.
Proof.
  intro H. unfold low_at. apply nth_error_nth.
  now rewrite nth_error_map, H.
Qed.

(** A window whose first low clears its last high by the minimum size is
    reported as a bullish gap. *)
Lemma analyze_single_bullish candles i :
  (2 <= i)%nat -> (i < length candles - 1)%nat ->
  min_gap_size <= low_at candles (i - 2) - high_at candles i ->
  exists c2 t,
    nth_error candles (i - 1) = Some c2 /\
    _analyze_single_fvg candles i
    = Ok (Some (record_of candles i
                  (mkGapData bullish (high_at candles i)
                     (low_at candles (i - 2))
                     (low_at candles (i - 2) - high_at candles i) 2)
                  c2 t)).
Proof.
  intros H2 Hi Hsz.
  destruct (getitem_in_range candles (i - 2)) as (c1 & G1 & E1); [lia|].
  destruct (getitem_in_range candles (i - 1)) as (c2 & G2 & E2); [lia|].
  destruct (getitem_in_range candles i) as (c3 & G3 & E3); [lia|].
  rewrite (low_at_nth _ _ _ E1), (high_at_nth _ _ _ E3) in *.
  destruct (targets_bullish (high c3) (low c1)) as (t & Ht & _).
  { eapply Qlt_le_trans; [exact min_gap_size_pos | exact Hsz]. }
  exists c2, t. split; [exact E2|].
  unfold _analyze_single_fvg.
  assert (G : ((i <? 2)%nat || (length candles - 1 <=? i)%nat) = false).
  { apply orb_false_iff. split; [apply Nat.ltb_ge | apply Nat.leb_gt]; lia. }
  rewrite G, G1, G2, G3. cbn [bind].
  assert (B : _check_bullish_fvg (high c1) (low c1) (high c2) (low c2)
                (high c3) (low c3)
              = Some (mkGapData bullish (high c3) (low c1) (low c1 - high c3) 2)).
  { unfold _check_bullish_fvg.
    assert (P : high c3 < low c1).
    { apply Qlt_minus_iff.
      eapply Qlt_le_trans; [exact min_gap_size_pos|].
      unfold Qminus in Hsz. exact Hsz. }
    apply Qlt_bool_iff in P. rewrite P.
    apply Qle_bool_iff in Hsz. rewrite Hsz. reflexivity. }
  rewrite B. unfold _create_fvg_record. rewrite Ht. reflexivity.
Qed.

End BullishWindow.

(** C5, as stated, fails on [gap_then_fill]: window 2 satisfies
    [low[0] > high[2] + 0.0002], and its one record is emitted with status
    [filled], not [active], because candle 4 already reaches the gap. *)
Lemma C5_counterexample :
  (5 <= length gap_then_fill)%nat /\
  (2 <= 2 <= length gap_then_fill - 2)%nat /\
  high_at gap_then_fill 2 + 0.0002 < low_at gap_then_fill (2 - 2) /\
  FVGDetector.detect_fvgs gap_then_fill = Ok gap_then_fill_fvgs /\
  filter (in_window 2) (FVGDetector.fvgs gap_then_fill_fvgs)
  = [gap_then_fill_first] /\
  fvg_type gap_then_fill_first = bullish /\
  status gap_then_fill_first <> active.
Proof.
  split; [vm_compute; lia|]. split; [vm_compute; lia|].
  split; [vm_compute; reflexivity|]. split; [vm_compute; reflexivity|].
  split; [vm_compute; reflexivity|]. split; [reflexivity|].
  vm_compute. discriminate.
Qed.

(** C5 (amended).  For every series of at least 5 candles and every index
    [i] with [2 <= i <= n-2] and [low[i-2] > high[i] + 0.0002], the detector
    reports exactly one record for that window; it is bullish, its
    [gap_size] is [low[i-2] - high[i]] rounded to 5 decimals, and its status
    is the outcome of the fill scan: active exactly when no later candle
    meets the fill condition, filled exactly when one does. *)
Theorem C5_bullish_window_reported :
  forall candles i,
    (5 <= length candles)%nat ->
    (2 <= i <= length candles - 2)%nat ->
    high_at candles i + 0.0002 < low_at candles (i - 2) ->
    exists fa f,
      FVGDetector.detect_fvgs candles = Ok fa /\
      filter (in_window i) (FVGDetector.fvgs fa) = [f] /\
      fvg_type f = bullish /\
      gap_size f = round_nd (low_at candles (i - 2) - high_at candles i) 5 /\
      (status f = active <-> forall j, ~ qualifies candles f i j) /\
      (status f = filled <-> exists j, qualifies candles f i j).
Proof.
  intros candles i Hlen Hi Hgap.
  assert (Hsz : FVGDetector.min_gap_size
                <= low_at candles (i - 2) - high_at candles i).
  { apply Qlt_le_weak. apply (Qplus_lt_l _ _ (high_at candles i)).
    setoid_replace (low_at candles (i - 2) - high_at candles i
                    + high_at candles i)
      with (low_at candles (i - 2)) by ring.
    rewrite Qplus_comm. exact Hgap. }
  destruct (analyze_single_bullish candles i) as (c2 & t & _ & Hf);
    [lia | lia | exact Hsz |].
  set (gd := mkGapData bullish (high_at candles i) (low_at candles (i - 2))
               (low_at candles (i - 2) - high_at candles i) 2) in *.
  set (f := record_of candles i gd c2 t) in *.
  unfold FVGDetector.detect_fvgs.
  destruct (length candles <? 5)%nat eqn:L; [apply Nat.ltb_lt in L; lia|].
  destruct (collect_fvgs_total candles
              (FVGDetector.range 2 (length candles - 1))) as (l & E).
  rewrite E. cbn [bind]. eexists. exists f.
  split; [reflexivity|]. cbn [FVGDetector.fvgs].
  split.
  { apply (collect_filter_window candles
             (FVGDetector.range 2 (length candles - 1)) l i f).
    - apply seq_NoDup.
    - exact E.
    - unfold FVGDetector.range. apply in_seq. lia.
    - exact Hf. }
  split; [reflexivity|]. split; [reflexivity|].
  pose proof (record_fill_status candles i gd c2 t) as S.
  cbv zeta in S. fold f in S.
  destruct S as [(Hs & _ & Hno) | (Hs & k & _ & Hk & _)].
  - split; split.
    + intros _. exact Hno.
    + intros _. exact Hs.
    + intro Hfill. rewrite Hs in Hfill. discriminate.
    + intros (j & Hj). exfalso. exact (Hno j Hj).
  - split; split.
    + intro Ha. rewrite Hs in Ha. discriminate.
    + intro Hno. exfalso. exact (Hno k Hk).
    + intros _. now exists k.
    + intros _. exact Hs.
Qed.

(** The theorem at window 2 of [crafted_series], whose gap stays open. *)
Lemma C5_bullish_window_reported_witness :
  exists fa f,
    FVGDetector.detect_fvgs crafted_series = Ok fa /\
    filter (in_window 2) (FVGDetector.fvgs fa) = [f] /\
    fvg_type f = bullish /\
    gap_size f
    = round_nd (low_at crafted_series (2 - 2) - high_at crafted_series 2) 5 /\
    (status f = active <-> forall j, ~ qualifies crafted_series f 2 j) /\
    (status f = filled <-> exists j, qualifies crafted_series f 2 j).
Proof.
  apply (C5_bullish_window_reported crafted_series 2).
  - vm_compute. lia.
  - vm_compute. lia.
  - vm_compute. reflexivity.
Defined.

Section RiskReward.
Import FVGDetector SilverBullet SilverBulletEngine.

Lemma pos_of_min_gap (x : Q) : min_gap_size <= x -> 0 < x.
Proof. intro H. eapply Qlt_le_trans; [exact min_gap_size_pos | exact H]. Qed.

Lemma window_rr candles i f :
  _analyze_single_fvg candles i = Ok (Some f) -> rr_by_type f.
Proof.
  intro H.
  destruct (analyze_single_inv _ _ _ H)
    as (_ & _ & c1 & c2 & c3 & gd & t & _ & _ & _ & Hgd & Ht & ->).
  destruct Hgd as [(-> & Hsz & _) | (-> & Hsz & _)];
    apply pos_of_min_gap in Hsz.
  - destruct (targets_bullish (high c3) (low c1) Hsz) as (t' & Ht' & R1 & R2 & _).
    change (gd_type (bullish_gap c1 c3)) with bullish in Ht.
    unfold bullish_gap in Ht. rewrite Ht' in Ht. inversion Ht; subst t'.
    unfold rr_by_type. cbn. repeat split; try assumption.
    apply Qlt_minus_iff. unfold Qminus in Hsz. exact Hsz.
  - destruct (targets_bearish (low c3) (high c1) Hsz) as (t' & Ht' & R1 & R2 & _).
    change (gd_type (bearish_gap c1 c3)) with bearish in Ht.
    unfold bearish_gap in Ht. rewrite Ht' in Ht. inversion Ht; subst t'.
    unfold rr_by_type. cbn. repeat split; try assumption.
    apply Qlt_minus_iff. unfold Qminus in Hsz. exact Hsz.
Qed.

Lemma detected_rr candles fa f :
  detect_fvgs candles = Ok fa -> In f (fvgs fa) -> rr_by_type f.
Proof.
  intros Hd Hin. eapply window_rr. eapply detect_fvgs_In; eassumption.
Qed.

Lemma active_fvgs_incl candles fa f :
  detect_fvgs candles = Ok fa -> In f (active_fvgs fa) ->
  In f (fvgs fa) /\ status f = active.
Proof.
  unfold detect_fvgs. destruct (length candles <? 5)%nat.
  - intro H. inversion H. intros [].
  - destruct (collect_fvgs candles _) as [l|]; cbn [bind]; [|discriminate].
    intro H. inversion H. cbn [active_fvgs fvgs]. intro Hin.
    apply filter_In in Hin. destruct Hin as [Hin Hs]. split; [exact Hin|].
    destruct (status f); [reflexivity | discriminate].
Qed.

(** Every setup of the loop is the evaluation of one of the gaps given. *)
Lemma setups_loop_In fvgs liq bias s :
  In s (setups_loop fvgs liq bias) ->
  In (su_fvg s) fvgs /\
  _evaluate_silver_bullet_setup (su_fvg s) liq bias = Some s.
Proof.
  induction fvgs as [|f rest IH]; cbn [setups_loop]; [intros []|].
  destruct (_evaluate_silver_bullet_setup f liq bias) as [s'|] eqn:E.
  - intros [<-|Hin].
    + assert (Ef : su_fvg s' = f).
      { unfold _evaluate_silver_bullet_setup in E.
        destruct (negb _); [discriminate|].
        destruct (negb _); [discriminate|]. now inversion E. }
      rewrite Ef. split; [now left | exact E].
    + destruct (IH Hin). split; [now right | assumption].
  - intro Hin. destruct (IH Hin). split; [now right | assumption].
Qed.

Lemma setups_from_detected candles liq bias setups s :
  get_silver_bullet_setups candles liq bias = Ok setups -> In s setups ->
  exists fa, detect_fvgs candles = Ok fa /\ In (su_fvg s) (fvgs fa) /\
             status (su_fvg s) = active /\
             _evaluate_silver_bullet_setup (su_fvg s) liq bias = Some s.
Proof.
  unfold get_silver_bullet_setups.
  destruct (detect_fvgs candles) as [fa|] eqn:Hd; cbn [bind]; [|discriminate].
  destruct (negb (fvg_analysis_complete fa)).
  - intro H. inversion H. intros [].
  - intro H. inversion H; subst setups. intro Hin.
    apply setups_loop_In in Hin. destruct Hin as [Hin He].
    destruct (active_fvgs_incl _ _ _ Hd Hin) as [Hf Hs].
    exists fa. repeat split; assumption.
Qed.

(** With a minimum ratio of [2.0], a setup whose gap is bullish yields no
    suggestion: its ratios are [-2] and [0]. *)
Lemma suggestions_only_bearish risk setups price sugg :
  (forall s, In s setups -> rr_by_type (su_fvg s)) ->
  _generate_trade_suggestions risk 2 setups price = Ok sugg ->
  forall x, In x sugg ->
    ts_type x = bearish /\
    exists s, In s setups /\ ts_setup_id x = fvg_id (su_fvg s) /\
              ts_type x = fvg_type (su_fvg s).
Proof.
  revert sugg. induction setups as [|s rest IH]; intros sugg Hrr;
    cbn [_generate_trade_suggestions].
  - intro H. inversion H. intros x [].
  - destruct (_calculate_position_size _ _ _) as [ps|]; cbn [bind]; [|discriminate].
    destruct (_generate_trade_suggestions risk 2 rest price) as [more|] eqn:Er;
      cbn [bind]; [|discriminate].
    assert (IH' : forall x, In x more ->
              ts_type x = bearish /\
              exists s0, In s0 rest /\ ts_setup_id x = fvg_id (su_fvg s0) /\
                         ts_type x = fvg_type (su_fvg s0)).
    { apply IH; [|reflexivity]. intros s0 H0. apply Hrr. now right. }
    assert (Lift : forall x, In x more ->
              ts_type x = bearish /\
              exists s0, In s0 (s :: rest) /\
                         ts_setup_id x = fvg_id (su_fvg s0) /\
                         ts_type x = fvg_type (su_fvg s0)).
    { intros x Hx. destruct (IH' x Hx) as (Hb & s0 & H0 & Hid).
      split; [exact Hb|]. exists s0. split; [now right | exact Hid]. }
    destruct (Qle_bool 2 (risk_reward_1 (target_levels (su_fvg s)))
              || Qle_bool 2 (risk_reward_2 (target_levels (su_fvg s)))) eqn:G.
    + intro H. inversion H; subst sugg. intros x [<-|Hx]; [|now apply Lift].
      cbn [ts_type ts_setup_id].
      assert (Hb : fvg_type (su_fvg s) = bearish).
      { pose proof (Hrr s (or_introl eq_refl)) as R. unfold rr_by_type in R.
        destruct (fvg_type (su_fvg s)); [|reflexivity].
        destruct R as (_ & R1 & R2). exfalso.
        apply orb_true_iff in G. destruct G as [G|G];
          apply Qle_bool_iff in G.
        - rewrite R1 in G. revert G. apply Qlt_not_le. reflexivity.
        - rewrite R2 in G. revert G. apply Qlt_not_le. reflexivity. }
      split; [exact Hb|]. exists s. split; [now left|]. split; reflexivity.
    + intro H. inversion H; subst sugg. exact Lift.
Qed.

End RiskReward.

Section Alignment.
Import SilverBullet.

Lemma aligned_iff fvg bias :
  aligned (_check_bias_alignment fvg bias) = true <->
  bias_of_type (fvg_type fvg) = bd_bias bias.
Proof.
  unfold _check_bias_alignment.
  destruct (fvg_type fvg), (bd_bias bias); cbn; split; congruence.
Qed.

Lemma evaluate_some_aligned fvg liq bias setup :
  _evaluate_silver_bullet_setup fvg liq bias = Some setup ->
  bias_of_type (fvg_type fvg) = bd_bias bias.
Proof.
  unfold _evaluate_silver_bullet_setup.
  destruct (aligned (_check_bias_alignment fvg bias)) eqn:A; cbn [negb];
    [|discriminate].
  intros _. now apply aligned_iff.
Qed.

Lemma evaluate_none_unaligned fvg liq bias :
  bias_of_type (fvg_type fvg) <> bd_bias bias ->
  _evaluate_silver_bullet_setup fvg liq bias = None.
Proof.
  intro H. destruct (_evaluate_silver_bullet_setup fvg liq bias) eqn:E;
    [|reflexivity].
  exfalso. apply H. eapply evaluate_some_aligned. exact E.
Qed.

End Alignment.

(** C2.  Every gap record that [detect_fvgs] reports carries risk-reward
    ratios fixed by its type: a bullish one has [gap_top < gap_bottom],
    [risk_reward_1 = -2.0] and [risk_reward_2 = 0.0]; a bearish one has
    [risk_reward_1 = 2.0] and [risk_reward_2 = 4.0].  Hence, with the
    minimum ratio [2.0], every trade suggestion comes from a bearish gap,
    whatever the liquidity and bias context, quality threshold and risk
    fraction; in particular every suggestion of the engine with its default
    parameters is bearish. *)
Theorem C2_risk_reward_fixed_by_type :
  (forall candles fa f,
      FVGDetector.detect_fvgs candles = Ok fa ->
      In f (FVGDetector.fvgs fa) -> rr_by_type f)
  /\
  (forall quality risk candles liq bias setups price hq sugg,
      SilverBullet.get_silver_bullet_setups candles liq bias = Ok setups ->
      SilverBulletEngine.suggestions_of quality risk 2 setups price
      = Ok (hq, sugg) ->
      forall x, In x sugg -> ts_type x = bearish)
  /\
  (forall candles timeframe a,
      SilverBulletEngine.analyze candles timeframe = Ok a ->
      forall x, In x (trade_suggestions a) -> ts_type x = bearish).
Proof.
  assert (Stage : forall quality risk candles liq bias setups price hq sugg,
      SilverBullet.get_silver_bullet_setups candles liq bias = Ok setups ->
      SilverBulletEngine.suggestions_of quality risk 2 setups price
      = Ok (hq, sugg) ->
      forall x, In x sugg -> ts_type x = bearish).
  { intros quality risk candles liq bias setups price hq sugg Hs Hg x Hx.
    unfold SilverBulletEngine.suggestions_of in Hg.
    destruct (SilverBulletEngine._generate_trade_suggestions _ _ _ _)
      as [l|] eqn:E; cbn [bind] in Hg; [|discriminate].
    inversion Hg; subst hq sugg.
    refine (proj1 (suggestions_only_bearish _ _ _ _ _ E x Hx)).
    intros s Hin. apply filter_In in Hin. destruct Hin as [Hin _].
    destruct (setups_from_detected _ _ _ _ _ Hs Hin) as (fa & Hd & Hf & _).
    exact (detected_rr _ _ _ Hd Hf). }
  split; [exact detected_rr|]. split; [exact Stage|].
  intros candles timeframe a Ha x Hx.
  unfold SilverBulletEngine.analyze, SilverBulletEngine.analyze_market_setup in Ha.
  destruct (FVGDetector.detect_fvgs candles) as [fa|]; cbn [bind] in Ha;
    [|discriminate].
  destruct (SilverBullet.get_silver_bullet_setups _ _ _) as [setups|] eqn:Hs;
    cbn [bind] in Ha; [|discriminate].
  destruct (SilverBulletEngine.last_candle candles) as [c|]; cbn [bind] in Ha;
    [|discriminate].
  destruct (SilverBulletEngine.suggestions_of _ _ _ _ _) as [[hq sugg]|] eqn:Hg;
    cbn [bind] in Ha; [|discriminate].
  inversion Ha; subst a. cbn [trade_suggestions snd] in Hx.
  exact (Stage _ _ _ _ _ _ _ _ _ Hs Hg x Hx).
Qed.

(** The theorem on concrete series: the ratios of the bullish gap of
    [gap_then_fill], and the one suggestion the engine makes on
    [bearish_series]. *)
Lemma C2_risk_reward_fixed_by_type_witness :
  rr_by_type gap_then_fill_first /\
  trade_suggestions bearish_analysis = [bearish_suggestion] /\
  ts_type bearish_suggestion = bearish.
Proof.
  split; [|split].
  - apply (proj1 C2_risk_reward_fixed_by_type gap_then_fill gap_then_fill_fvgs).
    + vm_compute. reflexivity.
    + left. reflexivity.
  - reflexivity.
  - apply (proj2 (proj2 C2_risk_reward_fixed_by_type) bearish_series "D1"%string
             bearish_analysis).
    + vm_compute. reflexivity.
    + left. reflexivity.
Defined.

(** C1, evaluated on the crafted input.  [crafted_series] has 10 candles
    and one gap, the bullish one of window 2; [crafted_bias] is bullish;
    [crafted_liquidity] has one buy-side level, within [0.002] of the gap's
    entry price.  The gap passes every gate of the setup evaluation with
    quality [0.91], and the suggestion stage then drops it, since its
    ratios are [-2.0] and [0.0]: the pipeline yields no trade suggestion.
    The engine run on the ten candles alone yields none either. *)
Theorem C1_crafted_series_yields_no_suggestion :
  length crafted_series = 10%nat /\
  FVGDetector.detect_fvgs crafted_series = Ok crafted_fvgs /\
  FVGDetector.fvgs crafted_fvgs = [crafted_fvg] /\
  fvg_type crafted_fvg = bullish /\ status crafted_fvg = active /\
  high_at crafted_series 2 + 0.0002 < low_at crafted_series 0 /\
  bd_bias crafted_bias = bias_bullish /\
  buy_side_liquidity crafted_liquidity = [crafted_level] /\
  Qabs (entry (target_levels crafted_fvg) - ll_price crafted_level) < 0.002 /\
  SilverBullet.get_silver_bullet_setups crafted_series crafted_liquidity
    crafted_bias = Ok crafted_setups /\
  map su_fvg crafted_setups = [crafted_fvg] /\
  SilverBulletEngine.suggestions_of SilverBulletEngine.default_min_setup_quality
    SilverBulletEngine.default_max_risk_per_trade
    SilverBulletEngine.default_min_risk_reward crafted_setups 1.1015
  = Ok (crafted_setups, []) /\
  exists a, SilverBulletEngine.analyze crafted_series "H1" = Ok a /\
            trade_suggestions a = [].
Proof.
  repeat (split; [vm_compute; reflexivity|]).
  eexists. split; vm_compute; reflexivity.
Qed.

(** C8.  The setup evaluation accepts a gap only when its type is the
    bias: a setup is returned only if [fvg.type] equals [bias]; a gap whose
    type differs from the bias is rejected, and so is every gap under a
    neutral bias.  Accordingly every setup of [get_silver_bullet_setups]
    has the type of the bias, and under a neutral bias there is none. *)
Theorem C8_setup_requires_matching_bias :
  forall fvg liq bias,
    (forall setup,
        SilverBullet._evaluate_silver_bullet_setup fvg liq bias = Some setup ->
        bias_of_type (fvg_type fvg) = bd_bias bias)
    /\
    (bias_of_type (fvg_type fvg) <> bd_bias bias ->
     SilverBullet._evaluate_silver_bullet_setup fvg liq bias = None)
    /\
    (bd_bias bias = bias_neutral ->
     SilverBullet._evaluate_silver_bullet_setup fvg liq bias = None)
    /\
    (forall candles setups,
        SilverBullet.get_silver_bullet_setups candles liq bias = Ok setups ->
        (forall s, In s setups ->
                   bias_of_type (fvg_type (su_fvg s)) = bd_bias bias) /\
        (bd_bias bias = bias_neutral -> setups = [])).
Proof.
  intros fvg liq bias.
  assert (N : forall g, bd_bias bias = bias_neutral ->
                        bias_of_type (fvg_type g) <> bd_bias bias).
  { intros g Hn. rewrite Hn. destruct (fvg_type g); discriminate. }
  split; [intros setup; apply evaluate_some_aligned|].
  split; [apply evaluate_none_unaligned|].
  split; [intro Hn; apply evaluate_none_unaligned, N, Hn|].
  intros candles setups Hs.
  assert (A : forall s, In s setups ->
                        bias_of_type (fvg_type (su_fvg s)) = bd_bias bias).
  { intros s Hin.
    destruct (setups_from_detected _ _ _ _ _ Hs Hin) as (fa & _ & _ & _ & He).
    exact (evaluate_some_aligned _ _ _ _ He). }
  split; [exact A|].
  intro Hn. destruct setups as [|s rest]; [reflexivity|].
  exfalso. exact (N (su_fvg s) Hn (A s (or_introl eq_refl))).
Qed.

(** The theorem at the gap of [crafted_series]: accepted under the bullish
    context, rejected under a bearish and under a neutral bias. *)
Lemma C8_setup_requires_matching_bias_witness :
  SilverBullet._evaluate_silver_bullet_setup crafted_fvg crafted_liquidity
    crafted_bias = Some (hd (mkSetup no_fvg (mkAlign false type_conflicts_with_bias)
                               (mkProximity false None None no_liquidity_data) 0 0)
                           crafted_setups) /\
  bias_of_type (fvg_type crafted_fvg) = bd_bias crafted_bias /\
  SilverBullet._evaluate_silver_bullet_setup crafted_fvg crafted_liquidity
    bearish_bias = None /\
  SilverBullet._evaluate_silver_bullet_setup crafted_fvg crafted_liquidity
    neutral_bias = None /\
  (forall s, In s crafted_setups ->
             bias_of_type (fvg_type (su_fvg s)) = bd_bias crafted_bias).
Proof.
  assert (E : SilverBullet._evaluate_silver_bullet_setup crafted_fvg
                crafted_liquidity crafted_bias
              = Some (hd (mkSetup no_fvg (mkAlign false type_conflicts_with_bias)
                            (mkProximity false None None no_liquidity_data) 0 0)
                        crafted_setups))
    by (vm_compute; reflexivity).
  split; [exact E|]. split; [|split; [|split]].
  - exact (proj1 (C8_setup_requires_matching_bias crafted_fvg crafted_liquidity
                    crafted_bias) _ E).
  - apply (proj1 (proj2 (C8_setup_requires_matching_bias crafted_fvg
                           crafted_liquidity bearish_bias))).
    vm_compute. discriminate.
  - apply (proj1 (proj2 (proj2 (C8_setup_requires_matching_bias crafted_fvg
                                  crafted_liquidity neutral_bias)))).
    reflexivity.
  - apply (proj1 (proj2 (proj2 (proj2 (C8_setup_requires_matching_bias
             crafted_fvg crafted_liquidity crafted_bias))) crafted_series
             crafted_setups eq_refl)).
Defined.

Section SwingSymmetry.
Import LiquidityAnalyzer.

Lemma Qlt_bool_comp a a' b b' :
  a == a' -> b == b' -> Qlt_bool a b = Qlt_bool a' b'.
Proof.
  intros Ha Hb. apply eq_iff_eq_true.
  rewrite !Qlt_bool_iff, Ha, Hb. reflexivity.
Qed.

Lemma Qlt_bool_opp a b : Qlt_bool (- a) (- b) = Qlt_bool b a.
Proof.
  apply eq_iff_eq_true. rewrite !Qlt_bool_iff. split; intro H.
  - apply Qopp_lt_compat in H. now rewrite !Qopp_involutive in H.
  - now apply Qopp_lt_compat.
Qed.

Lemma fmin_comp a a' b : a == a' -> fmin a b == fmin a' b.
Proof.
  intro H. unfold fmin.
  rewrite (Qlt_bool_comp b b a a' (Qeq_refl b) H).
  destruct (Qlt_bool b a'); [reflexivity | exact H].
Qed.

Lemma at_opp (l : list Q) (i : nat) : at_ (map Qopp l) i = - at_ l i.
Proof. unfold at_. exact (map_nth Qopp l 0 i). Qed.

Lemma strength_opp (l : list Q) (i : nat) :
  _calculate_level_strength (at_ (map Qopp l) i) (neighbours (map Qopp l) i)
  = _calculate_level_strength (at_ l i) (neighbours l i).
Proof.
  unfold _calculate_level_strength, neighbours. rewrite !at_opp.
  apply round_nd_comp. apply fmin_comp.
  assert (E : - at_ l i - np_mean [- at_ l (i - 2); - at_ l (i - 1);
                                   - at_ l (i + 1); - at_ l (i + 2)]
              == - (at_ l i - np_mean [at_ l (i - 2); at_ l (i - 1);
                                       at_ l (i + 1); at_ l (i + 2)])).
  { unfold np_mean. cbn [Qsum length]. field. }
  rewrite E, Qabs_opp. reflexivity.
Qed.

Lemma swing_high_of_opp (lows : list Q) (i : nat) :
  is_swing_high (map Qopp lows) i = is_swing_low lows i.
Proof.
  unfold is_swing_high, is_swing_low. now rewrite !at_opp, !Qlt_bool_opp.
Qed.

Lemma swing_low_of_opp (highs : list Q) (i : nat) :
  is_swing_low (map Qopp highs) i = is_swing_high highs i.
Proof.
  unfold is_swing_high, is_swing_low. now rewrite !at_opp, !Qlt_bool_opp.
Qed.

Lemma highs_loop_opp (lows : list Q) (idxs : list nat) :
  Forall2 mirrored (swing_highs_loop (map Qopp lows) idxs)
    (swing_lows_loop lows idxs).
Proof.
  induction idxs as [|i rest IH]; cbn [swing_highs_loop swing_lows_loop];
    [constructor|].
  rewrite swing_high_of_opp. destruct (is_swing_low lows i); [|exact IH].
  constructor; [|exact IH].
  unfold mirrored. cbn [sw_index sw_strength sw_price].
  split; [reflexivity|]. split; [apply strength_opp|].
  rewrite at_opp. reflexivity.
Qed.

Lemma lows_loop_opp (highs : list Q) (idxs : list nat) :
  Forall2 mirrored (swing_lows_loop (map Qopp highs) idxs)
    (swing_highs_loop highs idxs).
Proof.
  induction idxs as [|i rest IH]; cbn [swing_highs_loop swing_lows_loop];
    [constructor|].
  rewrite swing_low_of_opp. destruct (is_swing_high highs i); [|exact IH].
  constructor; [|exact IH].
  unfold mirrored. cbn [sw_index sw_strength sw_price].
  split; [reflexivity|]. split; [apply strength_opp|].
  rewrite at_opp. reflexivity.
Qed.

End SwingSymmetry.

(** C9.  For every pair of price lists, swing detection on the mirrored
    series [highs' = map negate lows], [lows' = map negate highs] swaps the
    outputs: the swing highs of the mirrored series are, in order, at the
    indices of the original swing lows, and its swing lows at the indices of
    the original swing highs, each with the same strength (and the negated
    price). *)
Theorem C9_swing_detection_mirrors :
  forall highs lows : list Q,
    Forall2 mirrored
      (LiquidityAnalyzer._find_swing_highs (map Qopp lows) (map Qopp highs))
      (LiquidityAnalyzer._find_swing_lows highs lows)
    /\
    Forall2 mirrored
      (LiquidityAnalyzer._find_swing_lows (map Qopp lows) (map Qopp highs))
      (LiquidityAnalyzer._find_swing_highs highs lows)
    /\
    map sw_index
      (LiquidityAnalyzer._find_swing_highs (map Qopp lows) (map Qopp highs))
    = map sw_index (LiquidityAnalyzer._find_swing_lows highs lows)
    /\
    map sw_index
      (LiquidityAnalyzer._find_swing_lows (map Qopp lows) (map Qopp highs))
    = map sw_index (LiquidityAnalyzer._find_swing_highs highs lows).
Proof.
  intros highs lows.
  assert (A : Forall2 mirrored
      (LiquidityAnalyzer._find_swing_highs (map Qopp lows) (map Qopp highs))
      (LiquidityAnalyzer._find_swing_lows highs lows)).
  { unfold LiquidityAnalyzer._find_swing_highs,
      LiquidityAnalyzer._find_swing_lows.
    rewrite length_map. apply highs_loop_opp. }
  assert (B : Forall2 mirrored
      (LiquidityAnalyzer._find_swing_lows (map Qopp lows) (map Qopp highs))
      (LiquidityAnalyzer._find_swing_highs highs lows)).
  { unfold LiquidityAnalyzer._find_swing_highs,
      LiquidityAnalyzer._find_swing_lows.
    rewrite length_map. apply lows_loop_opp. }
  assert (I : forall l1 l2, Forall2 mirrored l1 l2 ->
                            map sw_index l1 = map sw_index l2).
  { intros l1 l2 H. induction H as [|a b l1 l2 (Hi & _) _ IH]; [reflexivity|].
    cbn [map]. now rewrite Hi, IH. }
  repeat split; auto.
Qed.

Section Closing.
Import LiveSignalGenerator.

Lemma take_signal_none signals id :
  (forall s, In s signals -> sg_signal_id s <> id) ->
  take_signal signals id = None.
Proof.
  induction signals as [|s rest IH]; intro H; [reflexivity|].
  cbn [take_signal].
  destruct (String.eqb (sg_signal_id s) id) eqn:E.
  - apply String.eqb_eq in E. exfalso. exact (H s (or_introl eq_refl) E).
  - rewrite IH; [reflexivity|]. intros x Hx. apply H. now right.
Qed.

Lemma take_from_buckets_none buckets id :
  (forall s, In s (flat_map snd buckets) -> sg_signal_id s <> id) ->
  take_from_buckets buckets id = None.
Proof.
  induction buckets as [|[symbol signals] rest IH]; intro H; [reflexivity|].
  cbn [take_from_buckets]. cbn [flat_map snd] in H.
  rewrite take_signal_none.
  - rewrite IH; [reflexivity|]. intros x Hx. apply H, in_or_app. now right.
  - intros x Hx. apply H, in_or_app. now left.
Qed.

Lemma take_signal_none_inv signals id s :
  take_signal signals id = None -> In s signals -> sg_signal_id s <> id.
Proof.
  induction signals as [|x l IH]; intros E Hin; [destruct Hin|].
  cbn [take_signal] in E.
  destruct (String.eqb (sg_signal_id x) id) eqn:Ex; [discriminate|].
  destruct Hin as [<-|Hin]; [now apply String.eqb_neq|].
  apply IH; [|exact Hin].
  destruct (take_signal l id) as [[? ?]|]; [discriminate | reflexivity].
Qed.

(** What a successful search removes: the first signal with the id. *)
Lemma take_signal_some signals id found rest :
  take_signal signals id = Some (found, rest) ->
  sg_signal_id found = id /\
  exists pre post, signals = pre ++ found :: post /\ rest = pre ++ post /\
                   forall s, In s pre -> sg_signal_id s <> id.
Proof.
  revert rest. induction signals as [|s l IH]; intro rest; [discriminate|].
  cbn [take_signal].
  destruct (String.eqb (sg_signal_id s) id) eqn:E.
  - intro H. inversion H; subst. apply String.eqb_eq in E.
    split; [exact E|]. exists [], rest. repeat split. intros x [].
  - destruct (take_signal l id) as [[f r]|]; [|discriminate].
    intro H. inversion H; subst.
    destruct (IH r eq_refl) as (Hid & pre & post & -> & -> & Hpre).
    split; [exact Hid|]. exists (s :: pre), post. repeat split.
    intros x [<-|Hx]; [now apply String.eqb_neq | now apply Hpre].
Qed.

Lemma take_from_buckets_some buckets id found buckets' :
  take_from_buckets buckets id = Some (found, buckets') ->
  sg_signal_id found = id /\
  map fst buckets' = map fst buckets /\
  exists pre post,
    flat_map snd buckets = pre ++ found :: post /\
    flat_map snd buckets' = pre ++ post /\
    forall s, In s pre -> sg_signal_id s <> id.
Proof.
  revert buckets'. induction buckets as [|[symbol signals] rest IH];
    intro buckets'; [discriminate|].
  cbn [take_from_buckets].
  destruct (take_signal signals id) as [[f r]|] eqn:E.
  - intro H. inversion H; subst.
    destruct (take_signal_some _ _ _ _ E) as (Hid & pre & post & -> & -> & Hpre).
    split; [exact Hid|]. split; [reflexivity|].
    exists pre, (post ++ flat_map snd rest). cbn [flat_map snd].
    rewrite <- !app_assoc. repeat split. exact Hpre.
  - destruct (take_from_buckets rest id) as [[f r]|]; [|discriminate].
    intro H. inversion H; subst.
    destruct (IH r eq_refl) as (Hid & Hk & pre & post & E1 & E2 & Hpre).
    split; [exact Hid|]. split; [cbn [map fst]; now rewrite Hk|].
    exists (signals ++ pre), post. cbn [flat_map snd].
    rewrite E1, E2, <- !app_assoc. repeat split.
    intros x Hx. apply in_app_or in Hx. destruct Hx as [Hx|Hx].
    + exact (take_signal_none_inv _ _ _ E Hx).
    + now apply Hpre.
Qed.

Lemma close_signal_unknown g id exit_signal now :
  ~ In id (active_ids g) ->
  close_signal g id exit_signal now = (false, g).
Proof.
  intro H. unfold close_signal.
  rewrite take_from_buckets_none; [reflexivity|].
  intros s Hs E. apply H. unfold active_ids, all_signals.
  rewrite <- E. now apply in_map.
Qed.

Lemma close_signal_known g id exit_signal now :
  In id (active_ids g) ->
  exists signal g',
    close_signal g id exit_signal now = (true, g') /\
    In signal (all_signals g) /\ sg_signal_id signal = id /\
    closed_signals g'
    = closed_signals g ++ [mark_closed signal exit_signal now] /\
    session_stats g' = update_session_stats (session_stats g) exit_signal /\
    (NoDup (active_ids g) -> ~ In id (active_ids g')).
Proof.
  intro H. unfold close_signal.
  destruct (take_from_buckets (active_signals g) id) as [[found b']|] eqn:E.
  - destruct (take_from_buckets_some _ _ _ _ E)
      as (Hid & _ & pre & post & E1 & E2 & _).
    exists found. eexists. split; [reflexivity|].
    cbn [closed_signals session_stats]. repeat split; try assumption.
    + unfold all_signals. rewrite E1. apply in_or_app. right. now left.
    + intros Hnd. unfold active_ids, all_signals in *.
      cbn [active_signals]. rewrite E2. rewrite E1 in Hnd.
      rewrite map_app in *. cbn [map] in Hnd. rewrite Hid in Hnd.
      exact (NoDup_remove_2 _ _ _ Hnd).
  - exfalso. unfold active_ids in H. apply in_map_iff in H.
    destruct H as (s & Hs & Hin).
    clear - E Hs Hin. unfold all_signals in Hin.
    induction (active_signals g) as [|[symbol signals] rest IH]; [destruct Hin|].
    cbn [take_from_buckets] in E. cbn [flat_map snd] in Hin.
    destruct (take_signal signals id) as [[? ?]|] eqn:Et; [discriminate|].
    destruct (take_from_buckets rest id) as [[? ?]|]; [discriminate|].
    apply in_app_or in Hin. destruct Hin as [Hin|Hin]; [|now apply IH].
    exact (take_signal_none_inv _ _ _ Et Hin Hs).
Qed.

Lemma check_exit_inactive signal price now :
  sg_status signal <> signal_active ->
  check_exit_conditions signal price now = None.
Proof.
  intro H. unfold check_exit_conditions.
  destruct (sg_status signal); [contradiction | reflexivity].
Qed.

End Closing.

(** C10.  Closing a signal id that no active signal carries is a no-op:
    [close_signal] returns [False] and the active index, the closed log and
    the session statistics are unchanged.  That covers a signal already
    closed: when the active ids are distinct, a successful close removes the
    id from the active index, so closing it again fails and changes
    nothing.  And [check_exit_conditions] returns no exit for a signal whose
    status is not active, in particular for the entry a close adds to the
    closed log. *)
Theorem C10_closing_twice_is_a_noop :
  forall (g : Generator) (signal_id : string) (exit_signal : Exit) (now : Z),
    (~ In signal_id (active_ids g) ->
     LiveSignalGenerator.close_signal g signal_id exit_signal now = (false, g))
    /\
    (NoDup (active_ids g) ->
     forall g',
       LiveSignalGenerator.close_signal g signal_id exit_signal now = (true, g') ->
       forall exit_signal' now',
         LiveSignalGenerator.close_signal g' signal_id exit_signal' now'
         = (false, g'))
    /\
    (forall signal price,
        sg_status signal <> signal_active ->
        LiveSignalGenerator.check_exit_conditions signal price now = None)
    /\
    (forall signal price now',
        LiveSignalGenerator.check_exit_conditions
          (LiveSignalGenerator.mark_closed signal exit_signal now) price now'
        = None).
Proof.
  intros g signal_id exit_signal now.
  split; [apply close_signal_unknown|]. split; [|split].
  - intros Hnd g' Hc exit_signal' now'.
    apply close_signal_unknown.
    destruct (in_dec string_dec signal_id (active_ids g)) as [Hin|Hni].
    + destruct (close_signal_known g signal_id exit_signal now Hin)
        as (s & g0 & Hc0 & _ & _ & _ & _ & Hgone).
      rewrite Hc0 in Hc. inversion Hc; subst g0. exact (Hgone Hnd).
    + rewrite (close_signal_unknown g signal_id exit_signal now Hni) in Hc.
      discriminate.
  - intros signal price. apply check_exit_inactive.
  - intros signal price now'. apply check_exit_inactive. discriminate.
Qed.

(** The theorem on [one_signal]: an id that is not active, then the id of
    the one active signal closed twice. *)
Lemma C10_closing_twice_is_a_noop_witness :
  LiveSignalGenerator.close_signal one_signal "signal_frxGBPUSD_H1_0"
    target_exit 100 = (false, one_signal) /\
  LiveSignalGenerator.close_signal one_signal "signal_frxEURUSD_H1_0"
    target_exit 100 = (true, after_close) /\
  LiveSignalGenerator.close_signal after_close "signal_frxEURUSD_H1_0"
    target_exit 200 = (false, after_close) /\
  LiveSignalGenerator.check_exit_conditions
    (hd example_signal (closed_signals after_close)) 1.1105 100 = None.
Proof.
  split; [|split; [|split]].
  - apply (proj1 (C10_closing_twice_is_a_noop one_signal
                    "signal_frxGBPUSD_H1_0" target_exit 100)).
    vm_compute. intros [H|[]]. discriminate.
  - reflexivity.
  - apply (proj1 (proj2 (C10_closing_twice_is_a_noop one_signal
                           "signal_frxEURUSD_H1_0" target_exit 100))).
    + vm_compute. repeat constructor. intros [].
    + reflexivity.
  - apply (proj1 (proj2 (proj2 (C10_closing_twice_is_a_noop one_signal
                                  "signal_frxEURUSD_H1_0" target_exit 100)))).
    vm_compute. discriminate.
Defined.

Section RoundingSign.

Lemma round_half_even_nonneg (q : Q) : 0 <= q -> (0 <= round_half_even q)%Z.
Proof.
  intro H. unfold round_half_even.
  assert (F : (0 <= Qfloor q)%Z).
  { change 0%Z with (Qfloor 0). now apply Qfloor_resp_le. }
  destruct (Qcompare _ _); [destruct (Z.even _)| |]; lia.
Qed.

Lemma round_half_even_nonpos (q : Q) : q <= 0 -> (round_half_even q <= 0)%Z.
Proof.
  intro H. unfold round_half_even.
  assert (F : (Qfloor q <= 0)%Z).
  { change 0%Z with (Qfloor 0). now apply Qfloor_resp_le. }
  destruct (Z.eq_dec (Qfloor q) 0) as [E|E].
  - rewrite E.
    assert (L : Qcompare (q - inject_Z 0) (1 # 2) = Lt).
    { apply Qlt_alt. apply Qle_lt_trans with 0; [|reflexivity].
      setoid_replace (q - inject_Z 0) with q by (unfold inject_Z; ring).
      exact H. }
    rewrite L. lia.
  - destruct (Qcompare _ _); [destruct (Z.even _)| |]; lia.
Qed.

Lemma round_nd_nonneg (q : Q) (n : nat) : 0 <= q -> 0 <= round_nd q n.
Proof.
  intro H. unfold round_nd. apply Qle_shift_div_l; [apply pow10_pos|].
  rewrite Qmult_0_l. rewrite <- (Zle_Qle 0).
  apply round_half_even_nonneg. apply Qmult_le_0_compat; [exact H|].
  apply Qlt_le_weak, pow10_pos.
Qed.

Lemma round_nd_nonpos (q : Q) (n : nat) : q <= 0 -> round_nd q n <= 0.
Proof.
  intro H. unfold round_nd. apply Qle_shift_div_r; [apply pow10_pos|].
  rewrite Qmult_0_l. rewrite <- (Zle_Qle _ 0).
  apply round_half_even_nonpos.
  setoid_replace 0 with (0 * pow10 n) by ring.
  apply Qmult_le_compat_r; [exact H|]. apply Qlt_le_weak, pow10_pos.
Qed.

End RoundingSign.

(** ** Rounding: monotonicity and error *)

Section RoundingOrder.

Lemma frac_range (q : Q) :
  0 <= q - inject_Z (Qfloor q) /\ q - inject_Z (Qfloor q) < 1.
Proof.
  pose proof (Qfloor_le q) as L. pose proof (Qlt_floor q) as U.
  rewrite inject_Z_plus in U. change (inject_Z 1) with 1 in U. split; lra.
Qed.

Lemma round_half_even_cases (q : Q) :
  round_half_even q = Qfloor q \/ round_half_even q = (Qfloor q + 1)%Z.
Proof.
  unfold round_half_even.
  destruct (Qcompare _ _); [destruct (Z.even _)| |]; auto.
Qed.

(** The rounded integer is within one half of the number. *)
Lemma round_half_even_near (q : Q) :
  inject_Z (round_half_even q) - (1 # 2) <= q /\
  q <= inject_Z (round_half_even q) + (1 # 2).
Proof.
  destruct (frac_range q) as [F0 F1]. unfold round_half_even. cbv zeta.
  destruct (Qcompare (q - inject_Z (Qfloor q)) (1 # 2)) eqn:C.
  - apply Qeq_alt in C.
    destruct (Z.even (Qfloor q)); rewrite ?inject_Z_plus;
      change (inject_Z 1) with 1; split; lra.
  - apply Qlt_alt in C. split; lra.
  - apply Qgt_alt in C. rewrite inject_Z_plus. change (inject_Z 1) with 1.
    split; lra.
Qed.

Lemma round_half_even_mono (p q : Q) :
  p <= q -> (round_half_even p <= round_half_even q)%Z.
Proof.
  intro H. pose proof (Qfloor_resp_le _ _ H) as F.
  destruct (Z.eq_dec (Qfloor p) (Qfloor q)) as [E|E].
  - unfold round_half_even. cbv zeta. rewrite E.
    destruct (Qcompare (p - inject_Z (Qfloor q)) (1 # 2)) eqn:Cp;
      destruct (Qcompare (q - inject_Z (Qfloor q)) (1 # 2)) eqn:Cq;
      try (destruct (Z.even (Qfloor q))); try lia; exfalso;
      repeat match goal with
             | C : Qcompare _ _ = Eq |- _ => apply Qeq_alt in C
             | C : Qcompare _ _ = Lt |- _ => apply Qlt_alt in C
             | C : Qcompare _ _ = Gt |- _ => apply Qgt_alt in C
             end; lra.
  - destruct (round_half_even_cases p) as [-> | ->];
      destruct (round_half_even_cases q) as [-> | ->]; lia.
Qed.

Lemma pow10_nonzero (n : nat) : ~ pow10 n == 0.
Proof. pose proof (pow10_pos n). lra. Qed.

Lemma round_nd_mono (p q : Q) (n : nat) : p <= q -> round_nd p n <= round_nd q n.
Proof.
  intro H. unfold round_nd, Qdiv.
  apply Qmult_le_compat_r.
  - rewrite <- Zle_Qle. apply round_half_even_mono.
    apply Qmult_le_compat_r; [exact H|]. apply Qlt_le_weak, pow10_pos.
  - apply Qlt_le_weak, Qinv_lt_0_compat, pow10_pos.
Qed.

(** [round(q, n)] is within half a unit of the last place of [q]. *)
Lemma round_nd_near (q : Q) (n : nat) :
  round_nd q n - (1 # 2) / pow10 n <= q /\
  q <= round_nd q n + (1 # 2) / pow10 n.
Proof.
  destruct (round_half_even_near (q * pow10 n)) as [L U].
  pose proof (pow10_pos n) as P. pose proof (pow10_nonzero n) as N.
  unfold round_nd. split.
  - setoid_replace (inject_Z (round_half_even (q * pow10 n)) / pow10 n
                    - (1 # 2) / pow10 n)
      with ((inject_Z (round_half_even (q * pow10 n)) - (1 # 2)) / pow10 n)
      by (field; exact N).
    apply Qle_shift_div_r; assumption.
  - setoid_replace (inject_Z (round_half_even (q * pow10 n)) / pow10 n
                    + (1 # 2) / pow10 n)
      with ((inject_Z (round_half_even (q * pow10 n)) + (1 # 2)) / pow10 n)
      by (field; exact N).
    apply Qle_shift_div_l; assumption.
Qed.

(** Rounding keeps a number between two multiples of [10^-n]. *)
Lemma round_nd_between (q : Q) (n : nat) (lo hi : Z) :
  inject_Z lo / pow10 n <= q -> q <= inject_Z hi / pow10 n ->
  inject_Z lo / pow10 n <= round_nd q n /\
  round_nd q n <= inject_Z hi / pow10 n.
Proof.
  intros L U.
  assert (E : forall z, round_nd (inject_Z z / pow10 n) n
                        == inject_Z z / pow10 n).
  { intro z. apply (round_nd_exact _ n z). field. apply pow10_nonzero. }
  split.
  - rewrite <- (E lo). now apply round_nd_mono.
  - rewrite <- (E hi). now apply round_nd_mono.
Qed.

Lemma round_nd_unit (q : Q) (n : nat) :
  0 <= q -> q <= 1 -> 0 <= round_nd q n /\ round_nd q n <= 1.
Proof.
  intros L U. split.
  - now apply round_nd_nonneg.
  - assert (E : round_nd 1 n == 1).
    { change 1 with (inject_Z 1). apply round_nd_Z. }
    rewrite <- E. now apply round_nd_mono.
Qed.

Lemma fmin_le_r (a b : Q) : fmin a b <= b.
Proof.
  unfold fmin. destruct (Qlt_bool b a) eqn:E; [apply Qle_refl|].
  now apply Qlt_bool_false_iff in E.
Qed.

Lemma fmin_le_l (a b : Q) : fmin a b <= a.
Proof.
  unfold fmin. destruct (Qlt_bool b a) eqn:E; [|apply Qle_refl].
  apply Qlt_bool_iff in E. now apply Qlt_le_weak.
Qed.

Lemma fmin_glb (a b c : Q) : c <= a -> c <= b -> c <= fmin a b.
Proof. intros. unfold fmin. now destruct (Qlt_bool b a). Qed.

End RoundingOrder.

(** ** Doubles: sign, order and error of the rounding *)

Section Binary64Facts.

Lemma two_pow_pos (z : Z) : 0 < two_pow z.
Proof. unfold two_pow. apply Qpower_0_lt. reflexivity. Qed.

Lemma two_pow_plus (a b : Z) : two_pow (a + b) == two_pow a * two_pow b.
Proof. unfold two_pow. apply Qpower_plus. discriminate. Qed.

Lemma two_pow_le (a b : Z) : (a <= b)%Z -> two_pow a <= two_pow b.
Proof. intro H. unfold two_pow. apply Qpower_le_compat_l; [exact H|]. discriminate. Qed.

Lemma two_pow_lt_inv (a b : Z) : two_pow a < two_pow b -> (a < b)%Z.
Proof. unfold two_pow. intro H. eapply Qpower_lt_compat_l_inv; [exact H|]. reflexivity. Qed.

Lemma two_pow_Z (a : Z) : (0 <= a)%Z -> inject_Z (2 ^ a) == two_pow a.
Proof. intro H. unfold two_pow. now rewrite Zpower_Qpower. Qed.

Lemma two_pow_cancel (a : Z) : two_pow (- a) * two_pow a == 1.
Proof. rewrite <- two_pow_plus. now replace (- a + a)%Z with 0%Z by lia. Qed.

Lemma two_pow_succ (a : Z) : two_pow (a + 1) == 2 * two_pow a.
Proof. rewrite two_pow_plus. unfold two_pow at 2. rewrite Qpower_1_r. ring. Qed.

(** The bracket of a non-zero number by the logarithms of its numerator and
    denominator. *)
Lemma log2_bracket (x : Q) :
  ~ x == 0 ->
  let k := (Z.log2 (Z.abs (Qnum x)) - Z.log2 (Zpos (Qden x)))%Z in
  two_pow (k - 1) < Qabs x /\ Qabs x < two_pow (k + 1).
Proof.
  intro Hx. cbv zeta.
  set (n := Z.abs (Qnum x)). set (d := Zpos (Qden x)).
  assert (Hn : (0 < n)%Z).
  { unfold n. assert (Qnum x <> 0%Z); [|lia].
    intro E. apply Hx. unfold Qeq. cbn. lia. }
  assert (Hd : (0 < d)%Z) by (unfold d; lia).
  destruct (Z.log2_spec n Hn) as [A0 A1].
  destruct (Z.log2_spec d Hd) as [B0 B1].
  pose proof (Z.log2_nonneg n) as An. pose proof (Z.log2_nonneg d) as Bn.
  set (a := Z.log2 n) in *. set (b := Z.log2 d) in *.
  assert (E : Qabs x == inject_Z n / inject_Z d).
  { destruct x as [xn xd]. unfold n, d. cbn [Qabs Qnum Qden].
    apply Qmake_Qdiv. }
  assert (N0 : inject_Z (2 ^ a) <= inject_Z n) by (rewrite <- Zle_Qle; lia).
  assert (N1 : inject_Z n < inject_Z (2 ^ Z.succ a)) by (rewrite <- Zlt_Qlt; lia).
  assert (D0 : inject_Z (2 ^ b) <= inject_Z d) by (rewrite <- Zle_Qle; lia).
  assert (D1 : inject_Z d < inject_Z (2 ^ Z.succ b)) by (rewrite <- Zlt_Qlt; lia).
  rewrite two_pow_Z in N0, N1, D0, D1 by lia.
  assert (Dp : 0 < inject_Z d).
  { change 0 with (inject_Z 0). rewrite <- Zlt_Qlt. exact Hd. }
  pose proof (two_pow_pos a) as Pa. pose proof (two_pow_pos b) as Pb.
  pose proof (two_pow_pos (a - b - 1)) as Pk.
  replace (Z.succ a) with (a + 1)%Z in N1 by lia.
  replace (Z.succ b) with (b + 1)%Z in D1 by lia.
  rewrite two_pow_succ in N1, D1.
  rewrite E. split.
  - apply Qlt_shift_div_l; [exact Dp|].
    assert (F : two_pow (a - b - 1) * (2 * two_pow b) == two_pow a).
    { rewrite <- two_pow_succ, <- two_pow_plus.
      now replace (a - b - 1 + (b + 1))%Z with a by lia. }
    apply Qlt_le_trans with (two_pow (a - b - 1) * (2 * two_pow b)).
    + apply Qmult_lt_l; assumption.
    + rewrite F. exact N0.
  - apply Qlt_shift_div_r; [exact Dp|].
    assert (F : two_pow (a - b + 1) * two_pow b == 2 * two_pow a).
    { rewrite <- two_pow_plus, <- two_pow_succ.
      now replace (a - b + 1 + b)%Z with (a + 1)%Z by lia. }
    apply Qlt_le_trans with (two_pow (a - b + 1) * two_pow b).
    + rewrite F. exact N1.
    + apply Qmult_le_l; [apply two_pow_pos | exact D0].
Qed.

Lemma exponent_spec (x : Q) :
  ~ x == 0 ->
  two_pow (exponent x) <= Qabs x /\ Qabs x < two_pow (exponent x + 1).
Proof.
  intro Hx. destruct (log2_bracket x Hx) as [L U]. unfold exponent.
  set (k := (Z.log2 (Z.abs (Qnum x)) - Z.log2 (Zpos (Qden x)))%Z) in *.
  destruct (Qle_bool (two_pow k) (Qabs x)) eqn:C.
  - apply Qle_bool_iff in C. split; assumption.
  - apply Qle_bool_false_iff in C. replace (k - 1 + 1)%Z with k by lia.
    split; [now apply Qlt_le_weak | exact C].
Qed.

Lemma Qeq_bool_false (x : Q) : Qeq_bool x 0 = false <-> ~ x == 0.
Proof.
  split.
  - intros H E. apply Qeq_bool_iff in E. rewrite E in H. discriminate.
  - intro H. destruct (Qeq_bool x 0) eqn:E; [|reflexivity].
    apply Qeq_bool_iff in E. contradiction.
Qed.

Lemma fl_zero (x : Q) : x == 0 -> fl x = 0.
Proof. intro H. unfold fl. apply Qeq_bool_iff in H. now rewrite H. Qed.

(** The shape of [fl] away from zero. *)
Lemma fl_nonzero (x : Q) :
  ~ x == 0 ->
  fl x = inject_Z (round_half_even (x * two_pow (52 - exponent x)))
         * two_pow (exponent x - 52).
Proof.
  intro H. unfold fl. apply Qeq_bool_false in H. rewrite H. cbv zeta.
  now replace (- (exponent x - 52))%Z with (52 - exponent x)%Z by lia.
Qed.

Lemma scale_back (x : Q) (E : Z) :
  x * two_pow (52 - E) * two_pow (E - 52) == x.
Proof.
  rewrite <- Qmult_assoc, <- two_pow_plus.
  replace (52 - E + (E - 52))%Z with 0%Z by lia. unfold two_pow. cbn. ring.
Qed.

(** The scaled significand of a positive number lies between [2^52] and
    [2^53]. *)
Lemma scaled_range (x : Q) :
  ~ x == 0 ->
  two_pow 52 <= Qabs x * two_pow (52 - exponent x) /\
  Qabs x * two_pow (52 - exponent x) < two_pow 53.
Proof.
  intro H. destruct (exponent_spec x H) as [L U].
  pose proof (two_pow_pos (52 - exponent x)) as P.
  assert (A : two_pow (exponent x) * two_pow (52 - exponent x) == two_pow 52).
  { rewrite <- two_pow_plus.
    now replace (exponent x + (52 - exponent x))%Z with 52%Z by lia. }
  assert (B : two_pow (exponent x + 1) * two_pow (52 - exponent x) == two_pow 53).
  { rewrite <- two_pow_plus.
    now replace (exponent x + 1 + (52 - exponent x))%Z with 53%Z by lia. }
  split.
  - rewrite <- A. apply Qmult_le_compat_r; [exact L | now apply Qlt_le_weak].
  - rewrite <- B. apply Qmult_lt_compat_r; assumption.
Qed.

Lemma fl_nonneg (x : Q) : 0 <= x -> 0 <= fl x.
Proof.
  intro H. destruct (Qeq_dec x 0) as [E|N]; [rewrite (fl_zero x E); apply Qle_refl|].
  rewrite (fl_nonzero x N). apply Qmult_le_0_compat.
  - change 0 with (inject_Z 0). rewrite <- Zle_Qle.
    apply round_half_even_nonneg. apply Qmult_le_0_compat; [exact H|].
    apply Qlt_le_weak, two_pow_pos.
  - apply Qlt_le_weak, two_pow_pos.
Qed.

Lemma fl_nonpos (x : Q) : x <= 0 -> fl x <= 0.
Proof.
  intro H. destruct (Qeq_dec x 0) as [E|N]; [rewrite (fl_zero x E); apply Qle_refl|].
  rewrite (fl_nonzero x N).
  pose proof (two_pow_pos (exponent x - 52)) as P.
  pose proof (two_pow_pos (52 - exponent x)) as P'.
  assert (R : (round_half_even (x * two_pow (52 - exponent x)) <= 0)%Z).
  { apply round_half_even_nonpos.
    setoid_replace 0 with (0 * two_pow (52 - exponent x)) by ring.
    apply Qmult_le_compat_r; [exact H | now apply Qlt_le_weak]. }
  rewrite Zle_Qle in R. change (inject_Z 0) with 0 in R.
  setoid_replace 0 with (0 * two_pow (exponent x - 52)) by ring.
  apply Qmult_le_compat_r; [exact R | now apply Qlt_le_weak].
Qed.

(** [fl] is within half a unit in the last place: a relative error of at
    most [2^-53]. *)
Lemma fl_error (x : Q) : Qabs (fl x - x) <= Qabs x * half_ulp.
Proof.
  destruct (Qeq_dec x 0) as [E|N].
  - rewrite (fl_zero x E), E. cbn. discriminate.
  - rewrite (fl_nonzero x N).
    set (E := exponent x). set (y := x * two_pow (52 - E)).
    pose proof (two_pow_pos (E - 52)) as P.
    destruct (round_half_even_near y) as [R0 R1].
    destruct (exponent_spec x N) as [L _]. fold E in L.
    assert (X : x == y * two_pow (E - 52)).
    { unfold y. now rewrite scale_back. }
    assert (D : inject_Z (round_half_even y) * two_pow (E - 52) - x
                == (inject_Z (round_half_even y) - y) * two_pow (E - 52)).
    { rewrite X at 1. ring. }
    rewrite D, Qabs_Qmult, (Qabs_pos (two_pow (E - 52)))
      by now apply Qlt_le_weak.
    assert (A : Qabs (inject_Z (round_half_even y) - y) <= 1 # 2).
    { apply Qabs_Qle_condition. split; lra. }
    assert (H : two_pow (E - 52) * (1 # 2) == two_pow E * half_ulp).
    { replace (E - 52)%Z with (E + (- 52))%Z by lia. rewrite two_pow_plus.
      assert (K : two_pow (-52) * (1 # 2) == half_ulp) by reflexivity.
      rewrite <- Qmult_assoc, K. reflexivity. }
    apply Qle_trans with ((1 # 2) * two_pow (E - 52)).
    + apply Qmult_le_compat_r; [exact A | now apply Qlt_le_weak].
    + rewrite Qmult_comm, H. apply Qmult_le_compat_r; [exact L | discriminate].
Qed.

(** The error of [fl] for a number of magnitude at most [b]. *)
Lemma fl_within (x b : Q) :
  - b <= x -> x <= b ->
  x - b * half_ulp <= fl x /\ fl x <= x + b * half_ulp.
Proof.
  intros L U. pose proof (fl_error x) as H.
  assert (A : Qabs x <= b) by (apply Qabs_Qle_condition; split; assumption).
  assert (B : Qabs x * half_ulp <= b * half_ulp).
  { apply Qmult_le_compat_r; [exact A | discriminate]. }
  assert (C : Qabs (fl x - x) <= b * half_ulp) by (eapply Qle_trans; eassumption).
  apply Qabs_Qle_condition in C. destruct C as [C0 C1]. split; lra.
Qed.

Lemma significand_bounds (y : Q) :
  (two_pow 52 <= y -> (2 ^ 52 <= round_half_even y)%Z) /\
  (y <= two_pow 53 -> (round_half_even y <= 2 ^ 53)%Z) /\
  (y <= - two_pow 52 -> (round_half_even y <= - 2 ^ 52)%Z) /\
  (- two_pow 53 <= y -> (- 2 ^ 53 <= round_half_even y)%Z).
Proof.
  assert (A : two_pow 52 == inject_Z (2 ^ 52)) by reflexivity.
  assert (B : two_pow 53 == inject_Z (2 ^ 53)) by reflexivity.
  assert (C : - two_pow 52 == inject_Z (- 2 ^ 52)) by reflexivity.
  assert (D : - two_pow 53 == inject_Z (- 2 ^ 53)) by reflexivity.
  repeat split; intro H.
  - rewrite A in H. apply round_half_even_mono in H.
    now rewrite round_half_even_Z in H.
  - rewrite B in H. apply round_half_even_mono in H.
    now rewrite round_half_even_Z in H.
  - rewrite C in H. apply round_half_even_mono in H.
    now rewrite round_half_even_Z in H.
  - rewrite D in H. apply round_half_even_mono in H.
    now rewrite round_half_even_Z in H.
Qed.

Lemma two_pow_scale (E : Z) (k : Z) :
  inject_Z (2 ^ k) * two_pow (E - 52) == two_pow (E - 52 + k) \/ (k < 0)%Z.
Proof.
  destruct (Z_lt_le_dec k 0) as [H|H]; [now right|]. left.
  rewrite two_pow_Z by exact H. rewrite <- two_pow_plus.
  now replace (k + (E - 52))%Z with (E - 52 + k)%Z by lia.
Qed.

(** A positive number and its double have the same binade. *)
Lemma fl_range_pos (x : Q) :
  0 < x ->
  two_pow (exponent x) <= fl x /\ fl x <= two_pow (exponent x + 1).
Proof.
  intro H. assert (N : ~ x == 0) by lra.
  destruct (scaled_range x N) as [L U]. rewrite Qabs_pos in L, U by lra.
  rewrite (fl_nonzero x N). set (E := exponent x) in *.
  set (y := x * two_pow (52 - E)) in *.
  destruct (significand_bounds y) as (S0 & S1 & _ & _).
  specialize (S0 L). specialize (S1 (Qlt_le_weak _ _ U)).
  rewrite Zle_Qle in S0, S1.
  pose proof (two_pow_pos (E - 52)) as P.
  destruct (two_pow_scale E 52) as [A|A]; [|lia].
  destruct (two_pow_scale E 53) as [B|B]; [|lia].
  replace (E - 52 + 52)%Z with E in A by lia.
  replace (E - 52 + 53)%Z with (E + 1)%Z in B by lia.
  split.
  - rewrite <- A. apply Qmult_le_compat_r; [exact S0 | now apply Qlt_le_weak].
  - rewrite <- B. apply Qmult_le_compat_r; [exact S1 | now apply Qlt_le_weak].
Qed.

Lemma fl_range_neg (x : Q) :
  x < 0 ->
  - two_pow (exponent x + 1) <= fl x /\ fl x <= - two_pow (exponent x).
Proof.
  intro H. assert (N : ~ x == 0) by lra.
  destruct (scaled_range x N) as [L U]. rewrite Qabs_neg in L, U by lra.
  rewrite (fl_nonzero x N). set (E := exponent x) in *.
  set (y := x * two_pow (52 - E)) in *.
  assert (Y : - x * two_pow (52 - E) == - y) by (unfold y; ring).
  rewrite Y in L, U.
  destruct (significand_bounds y) as (_ & _ & S2 & S3).
  assert (S2' : (round_half_even y <= - 2 ^ 52)%Z) by (apply S2; lra).
  assert (S3' : (- 2 ^ 53 <= round_half_even y)%Z) by (apply S3; lra).
  rewrite Zle_Qle in S2', S3'. rewrite inject_Z_opp in S2', S3'.
  pose proof (two_pow_pos (E - 52)) as P.
  destruct (two_pow_scale E 52) as [A|A]; [|lia].
  destruct (two_pow_scale E 53) as [B|B]; [|lia].
  replace (E - 52 + 52)%Z with E in A by lia.
  replace (E - 52 + 53)%Z with (E + 1)%Z in B by lia.
  split.
  - rewrite <- B.
    setoid_replace (- (inject_Z (2 ^ 53) * two_pow (E - 52)))
      with (- inject_Z (2 ^ 53) * two_pow (E - 52)) by ring.
    apply Qmult_le_compat_r; [exact S3' | now apply Qlt_le_weak].
  - rewrite <- A.
    setoid_replace (- (inject_Z (2 ^ 52) * two_pow (E - 52)))
      with (- inject_Z (2 ^ 52) * two_pow (E - 52)) by ring.
    apply Qmult_le_compat_r; [exact S2' | now apply Qlt_le_weak].
Qed.

Lemma exponent_le (x y : Q) :
  ~ x == 0 -> ~ y == 0 -> Qabs x <= Qabs y -> (exponent x <= exponent y)%Z.
Proof.
  intros Nx Ny H.
  destruct (exponent_spec x Nx) as [Lx _]. destruct (exponent_spec y Ny) as [_ Uy].
  assert (two_pow (exponent x) < two_pow (exponent y + 1)) by lra.
  apply two_pow_lt_inv in H0. lia.
Qed.

Lemma fl_same_binade (x y : Q) :
  ~ x == 0 -> ~ y == 0 -> exponent x = exponent y -> x <= y -> fl x <= fl y.
Proof.
  intros Nx Ny E H. rewrite (fl_nonzero x Nx), (fl_nonzero y Ny), E.
  pose proof (two_pow_pos (exponent y - 52)) as P.
  pose proof (two_pow_pos (52 - exponent y)) as P'.
  apply Qmult_le_compat_r; [|now apply Qlt_le_weak].
  rewrite <- Zle_Qle. apply round_half_even_mono.
  apply Qmult_le_compat_r; [exact H | now apply Qlt_le_weak].
Qed.

(** Rounding to the nearest double keeps the order. *)
Lemma fl_mono (x y : Q) : x <= y -> fl x <= fl y.
Proof.
  intro H.
  destruct (Qlt_le_dec 0 x) as [Px|Nx].
  - assert (Py : 0 < y) by lra.
    assert (Ex : ~ x == 0) by lra. assert (Ey : ~ y == 0) by lra.
    assert (Le : (exponent x <= exponent y)%Z).
    { apply exponent_le; try assumption. rewrite !Qabs_pos by lra. exact H. }
    destruct (Z.eq_dec (exponent x) (exponent y)) as [E|E];
      [now apply fl_same_binade|].
    destruct (fl_range_pos x Px) as [_ U]. destruct (fl_range_pos y Py) as [L _].
    assert (two_pow (exponent x + 1) <= two_pow (exponent y))
      by (apply two_pow_le; lia).
    lra.
  - destruct (Qlt_le_dec y 0) as [Ny|Py].
    + assert (Nx' : x < 0) by lra.
      assert (Ex : ~ x == 0) by lra. assert (Ey : ~ y == 0) by lra.
      assert (Le : (exponent y <= exponent x)%Z).
      { apply exponent_le; try assumption. rewrite !Qabs_neg by lra. lra. }
      destruct (Z.eq_dec (exponent x) (exponent y)) as [E|E];
        [now apply fl_same_binade|].
      destruct (fl_range_neg x Nx') as [_ U]. destruct (fl_range_neg y Ny) as [L _].
      assert (two_pow (exponent y + 1) <= two_pow (exponent x))
        by (apply two_pow_le; lia).
      lra.
    + pose proof (fl_nonpos x Nx). pose proof (fl_nonneg y Py). lra.
Qed.

Lemma fl_comp (x y : Q) : x == y -> fl x == fl y.
Proof.
  intro H. apply Qle_antisym; apply fl_mono; rewrite H; apply Qle_refl.
Qed.

Lemma fl_one : fl 1 == 1.
Proof. vm_compute. reflexivity. Qed.

Lemma fl_unit (x : Q) : 0 <= x -> x <= 1 -> 0 <= fl x /\ fl x <= 1.
Proof.
  intros L U. split; [now apply fl_nonneg|].
  rewrite <- fl_one. now apply fl_mono.
Qed.

Lemma py_round_nonneg (x : Q) (n : nat) : 0 <= x -> 0 <= py_round x n.
Proof. intro H. apply fl_nonneg. now apply round_nd_nonneg. Qed.

Lemma py_round_nonpos (x : Q) (n : nat) : x <= 0 -> py_round x n <= 0.
Proof. intro H. apply fl_nonpos. now apply round_nd_nonpos. Qed.

Lemma py_round_mono (x y : Q) (n : nat) : x <= y -> py_round x n <= py_round y n.
Proof. intro H. apply fl_mono. now apply round_nd_mono. Qed.

(** The pips between two levels depend on the numbers only, not on the
    fractions that denote them. *)
Lemma pips_comp (a b a' b' : Q) :
  a == a' -> b == b' ->
  py_round (f64_mul (Qabs (f64_sub a b)) 10000) 1
  = py_round (f64_mul (Qabs (f64_sub a' b')) 10000) 1.
Proof.
  intros Ha Hb. unfold py_round, f64_mul, f64_sub.
  assert (E : fl (a - b) == fl (a' - b'))
    by (apply fl_comp; now rewrite Ha, Hb).
  assert (F : fl (Qabs (fl (a - b)) * 10000)
              == fl (Qabs (fl (a' - b')) * 10000))
    by (apply fl_comp; now rewrite E).
  now rewrite (round_nd_comp _ _ 1 F).
Qed.

Lemma pips_nonneg (a b : Q) :
  0 <= py_round (f64_mul (Qabs (f64_sub a b)) 10000) 1.
Proof.
  apply py_round_nonneg, fl_nonneg.
  apply Qmult_le_0_compat; [apply Qabs_nonneg | discriminate].
Qed.

End Binary64Facts.

Section ExitConditions.
Import LiveSignalGenerator.

Variable signal : Signal.
Hypothesis Hactive : sg_status signal = signal_active.
Hypothesis Hentry : sg_entry signal == fl 1.1000.
Hypothesis Hstop : sg_stop_loss signal == fl 1.0950.
Hypothesis Htarget : sg_take_profit signal == fl 1.1100.

Lemma example_is_bullish : Qlt_bool (sg_entry signal) (sg_take_profit signal) = true.
Proof. apply Qlt_bool_iff. rewrite Hentry, Htarget. reflexivity. Qed.

Lemma exit_at_target price now :
  fl 1.1100 <= price ->
  check_exit_conditions signal price now
  = Some (mkExit target_hit (sg_take_profit signal)
            (py_round
               (f64_mul (Qabs (f64_sub (fl 1.1100) (fl 1.1000))) 10000) 1)
            (sg_signal_id signal)).
Proof.
  intro Hp. unfold check_exit_conditions.
  rewrite Hactive. cbn [SignalStatus_eqb negb]. cbv zeta.
  rewrite example_is_bullish.
  assert (T : Qle_bool (sg_take_profit signal) price = true)
    by (apply Qle_bool_iff; now rewrite Htarget).
  rewrite T. cbn [andb]. do 2 f_equal.
  apply pips_comp; assumption.
Qed.

Lemma exit_at_stop price now :
  price <= fl 1.0950 ->
  check_exit_conditions signal price now
  = Some (mkExit stop_loss_hit (sg_stop_loss signal)
            (- py_round
                 (f64_mul (Qabs (f64_sub (fl 1.0950) (fl 1.1000))) 10000) 1)
            (sg_signal_id signal)).
Proof.
  intro Hp. unfold check_exit_conditions.
  rewrite Hactive. cbn [SignalStatus_eqb negb]. cbv zeta.
  rewrite example_is_bullish.
  assert (T : Qle_bool (sg_take_profit signal) price = false).
  { apply Qle_bool_false_iff. rewrite Htarget.
    eapply Qle_lt_trans; [exact Hp | reflexivity]. }
  assert (S : Qle_bool price (sg_stop_loss signal) = true)
    by (apply Qle_bool_iff; now rewrite Hstop).
  rewrite T, S. cbn [andb negb]. do 2 f_equal.
  f_equal. apply pips_comp; assumption.
Qed.

Lemma between_no_price_exit price :
  fl 1.0950 < price -> price < fl 1.1100 ->
  Qle_bool (sg_take_profit signal) price = false /\
  Qle_bool price (sg_stop_loss signal) = false.
Proof.
  intros H1 H2. split; apply Qle_bool_false_iff.
  - now rewrite Htarget.
  - now rewrite Hstop.
Qed.

Lemma exit_at_expiry price now :
  fl 1.0950 < price -> price < fl 1.1100 -> (sg_expires_at signal < now)%Z ->
  check_exit_conditions signal price now
  = Some (mkExit time_expired price
            (py_round
               (if Qlt_bool (sg_entry signal) price
                then f64_mul (Qabs (f64_sub price (sg_entry signal))) 10000
                else - f64_mul (Qabs (f64_sub price (sg_entry signal))) 10000)
               1)
            (sg_signal_id signal)).
Proof.
  intros H1 H2 Ht. unfold check_exit_conditions.
  rewrite Hactive. cbn [SignalStatus_eqb negb]. cbv zeta.
  rewrite example_is_bullish.
  destruct (between_no_price_exit price H1 H2) as [T S].
  rewrite T, S. cbn [andb negb].
  apply Z.ltb_lt in Ht. rewrite Ht. now rewrite orb_false_r.
Qed.

Lemma no_exit_before_expiry price now :
  fl 1.0950 < price -> price < fl 1.1100 -> (now <= sg_expires_at signal)%Z ->
  check_exit_conditions signal price now = None.
Proof.
  intros H1 H2 Ht. unfold check_exit_conditions.
  rewrite Hactive. cbn [SignalStatus_eqb negb]. cbv zeta.
  rewrite example_is_bullish.
  destruct (between_no_price_exit price H1 H2) as [T S].
  rewrite T, S. cbn [andb negb].
  apply Z.ltb_ge in Ht. now rewrite Ht.
Qed.

End ExitConditions.

Section ClosingTheEvaluated.
Import LiveSignalGenerator.

Lemma same_id_same_signal (l : list Signal) a b :
  NoDup (map sg_signal_id l) -> In a l -> In b l ->
  sg_signal_id a = sg_signal_id b -> a = b.
Proof.
  induction l as [|x l IH]; intros Hnd Ha Hb E; [destruct Ha|].
  cbn [map] in Hnd. inversion Hnd as [|? ? Hx Hnd']; subst.
  destruct Ha as [->|Ha], Hb as [->|Hb].
  - reflexivity.
  - exfalso. apply Hx. rewrite E. now apply in_map.
  - exfalso. apply Hx. rewrite <- E. now apply in_map.
  - now apply IH.
Qed.

Lemma exit_carries_id signal price now ex :
  check_exit_conditions signal price now = Some ex ->
  ex_signal_id ex = sg_signal_id signal.
Proof.
  unfold check_exit_conditions.
  repeat match goal with
         | |- context [if ?b then _ else _] => destruct b
         end; intro H; inversion H; reflexivity.
Qed.

(** Closing an active signal on the exit its evaluation returned moves
    that signal, marked closed, to the end of the closed log. *)
Lemma close_evaluated g signal price now ex :
  NoDup (active_ids g) -> In signal (all_signals g) ->
  check_exit_conditions signal price now = Some ex ->
  exists g',
    close_signal g (ex_signal_id ex) ex now = (true, g') /\
    closed_signals g' = closed_signals g ++ [mark_closed signal ex now] /\
    session_stats g' = update_session_stats (session_stats g) ex /\
    ~ In (sg_signal_id signal) (active_ids g').
Proof.
  intros Hnd Hin Hex.
  pose proof (exit_carries_id _ _ _ _ Hex) as Hid.
  assert (Hact : In (ex_signal_id ex) (active_ids g)).
  { rewrite Hid. unfold active_ids. now apply in_map. }
  destruct (close_signal_known g (ex_signal_id ex) ex now Hact)
    as (found & g' & Hc & Hf & Hfid & Hlog & Hstats & Hgone).
  assert (found = signal).
  { apply (same_id_same_signal (all_signals g)); try assumption. congruence. }
  subst found. exists g'. repeat split; try assumption.
  rewrite <- Hid. now apply Hgone.
Qed.

End ClosingTheEvaluated.

(** C6, as stated, fails after expiry for a small favourable move: at the
    tick [1.100001] the example signal closes with [time_expired], but
    [pips_gained] is [0.0], not [|1.100001 - 1.1000| * 10000 = 0.01], and so
    is not positive although the price moved in favour. *)
Lemma C6_counterexample :
  exists ex,
    LiveSignalGenerator.check_exit_conditions example_double (fl 1.100001) 14401
    = Some ex /\
    ex_reason ex = time_expired /\
    sg_entry example_double < fl 1.100001 /\
    ex_pips_gained ex == 0 /\
    ~ ex_pips_gained ex
      == Qabs (fl 1.100001 - sg_entry example_double) * 10000.
Proof.
  eexists. split; [vm_compute; reflexivity|].
  split; [reflexivity|]. split; [reflexivity|].
  split; [reflexivity|]. vm_compute. discriminate.
Qed.

(** C6 (amended).  For every active signal whose entry, stop and target
    are the doubles of [1.1000], [1.0950] and [1.1100], whatever the time: a
    price at or above the target (so [1.1105]) gives [target_hit] with
    [pips_gained = 100.0]; a price at or below the stop (so [1.0940]) gives
    [stop_loss_hit] with [pips_gained = -50.0]; a price strictly between,
    after [expires_at], gives [time_expired] at that price with
    [pips_gained] the float product [|price - entry| * 10000], signed
    positive when the price is above the entry and negative otherwise, and
    then rounded to one decimal by [round] (so never negative after a
    favourable move and never positive otherwise); before [expires_at] it
    gives no exit.  The evaluation returns at most one exit, target and
    stop being decided before the time is looked at.  Closing an active
    signal on the exit so returned succeeds and appends it to the closed
    log with status closed and that reason, price and pips. *)
Theorem C6_exit_of_the_example_signal :
  forall (signal : Signal) (now : Z),
    sg_status signal = signal_active ->
    sg_entry signal == fl 1.1000 ->
    sg_stop_loss signal == fl 1.0950 ->
    sg_take_profit signal == fl 1.1100 ->
    (forall price, fl 1.1100 <= price ->
       exists ex,
         LiveSignalGenerator.check_exit_conditions signal price now = Some ex /\
         ex_reason ex = target_hit /\
         ex_exit_price ex = sg_take_profit signal /\
         ex_pips_gained ex == 100)
    /\
    (forall price, price <= fl 1.0950 ->
       exists ex,
         LiveSignalGenerator.check_exit_conditions signal price now = Some ex /\
         ex_reason ex = stop_loss_hit /\
         ex_exit_price ex = sg_stop_loss signal /\
         ex_pips_gained ex == -50)
    /\
    (forall price, fl 1.0950 < price -> price < fl 1.1100 ->
       (sg_expires_at signal < now)%Z ->
       exists ex,
         LiveSignalGenerator.check_exit_conditions signal price now = Some ex /\
         ex_reason ex = time_expired /\
         ex_exit_price ex = price /\
         ex_pips_gained ex
         = py_round
             (if Qlt_bool (sg_entry signal) price
              then f64_mul (Qabs (f64_sub price (sg_entry signal))) 10000
              else - f64_mul (Qabs (f64_sub price (sg_entry signal))) 10000)
             1 /\
         (sg_entry signal < price -> 0 <= ex_pips_gained ex) /\
         (price <= sg_entry signal -> ex_pips_gained ex <= 0))
    /\
    (forall price, fl 1.0950 < price -> price < fl 1.1100 ->
       (now <= sg_expires_at signal)%Z ->
       LiveSignalGenerator.check_exit_conditions signal price now = None)
    /\
    (forall g price ex,
       NoDup (active_ids g) ->
       In signal (LiveSignalGenerator.all_signals g) ->
       LiveSignalGenerator.check_exit_conditions signal price now = Some ex ->
       exists g',
         LiveSignalGenerator.close_signal g (ex_signal_id ex) ex now
         = (true, g') /\
         closed_signals g'
         = closed_signals g
           ++ [LiveSignalGenerator.mark_closed signal ex now] /\
         ~ In (sg_signal_id signal) (active_ids g')).
Proof.
  intros signal now Ha He Hs Ht.
  split; [|split; [|split; [|split]]].
  - intros price Hp. eexists.
    split; [apply (exit_at_target signal Ha He Ht price now Hp)|].
    cbn [ex_reason ex_exit_price ex_pips_gained].
    split; [reflexivity|]. split; [reflexivity|]. vm_compute. reflexivity.
  - intros price Hp. eexists.
    split; [apply (exit_at_stop signal Ha He Hs Ht price now Hp)|].
    cbn [ex_reason ex_exit_price ex_pips_gained].
    split; [reflexivity|]. split; [reflexivity|]. vm_compute. reflexivity.
  - intros price H1 H2 Hx. eexists.
    split; [apply (exit_at_expiry signal Ha He Hs Ht price now H1 H2 Hx)|].
    cbn [ex_reason ex_exit_price ex_pips_gained].
    split; [reflexivity|]. split; [reflexivity|]. split; [reflexivity|].
    assert (P : 0 <= f64_mul (Qabs (f64_sub price (sg_entry signal))) 10000).
    { apply fl_nonneg. apply Qmult_le_0_compat; [apply Qabs_nonneg | discriminate]. }
    split.
    + intro Hfav. apply Qlt_bool_iff in Hfav. rewrite Hfav.
      now apply py_round_nonneg.
    + intro Hunf. apply Qlt_bool_false_iff in Hunf. rewrite Hunf.
      apply py_round_nonpos.
      apply (Qopp_le_compat 0) in P. exact P.
  - intros price H1 H2 Hx.
    apply (no_exit_before_expiry signal Ha He Hs Ht price now H1 H2 Hx).
  - intros g price ex Hnd Hin Hex.
    destruct (close_evaluated g signal price now ex Hnd Hin Hex)
      as (g' & Hc & Hlog & _ & Hgone).
    exists g'. repeat split; assumption.
Qed.

(** The theorem at [example_double]: the ticks [1.1105], [1.0940] and
    [1.1050]. *)
Lemma C6_exit_of_the_example_signal_witness :
  (exists ex,
      LiveSignalGenerator.check_exit_conditions example_double (fl 1.1105) 100
      = Some ex /\
      ex_reason ex = target_hit /\
      ex_exit_price ex = sg_take_profit example_double /\
      ex_pips_gained ex == 100)
  /\
  (exists ex,
      LiveSignalGenerator.check_exit_conditions example_double (fl 1.0940) 100
      = Some ex /\
      ex_reason ex = stop_loss_hit /\
      ex_exit_price ex = sg_stop_loss example_double /\
      ex_pips_gained ex == -50)
  /\
  LiveSignalGenerator.check_exit_conditions example_double (fl 1.1050) 100
  = None.
Proof.
  pose proof (C6_exit_of_the_example_signal example_double 100 eq_refl
                (Qeq_refl _) (Qeq_refl _) (Qeq_refl _)) as (T & S & _ & N & _).
  split; [|split].
  - apply T. vm_compute. discriminate.
  - apply S. vm_compute. discriminate.
  - apply N; [reflexivity | reflexivity | vm_compute; discriminate].
Defined.

(** C7, as stated, fails across symbols: with an active H1 signal at
    [1.0850] held for frxGBPUSD, an H1 candidate at [1.0851] for frxEURUSD
    is accepted, although an existing active signal with the same timeframe
    has its entry within [0.001]. *)
Lemma C7_counterexample :
  In (existing_h1 "frxGBPUSD")
     (LiveSignalGenerator.all_signals (index_with "frxGBPUSD")) /\
  near_duplicate (candidate_h1 "frxEURUSD" 1.0851) (existing_h1 "frxGBPUSD") /\
  SignalSchedulerService._is_duplicate_signal (index_with "frxGBPUSD")
    (candidate_h1 "frxEURUSD" 1.0851) = false.
Proof.
  split; [left; reflexivity|]. split; [|reflexivity].
  split; [reflexivity|]. split; reflexivity.
Qed.

(** C7 (amended).  The deduplication check rejects a candidate if and only
    if, among the signals [get_active_signals] returns for the candidate's
    own symbol, one has the same timeframe, status active and an entry
    strictly less than [0.001] away from the candidate's.  In particular,
    with an active signal at [1.0850] on H1 for a symbol, a candidate for
    that symbol on H1 is rejected at [1.0851] and accepted at [1.0900]. *)
Theorem C7_duplicate_in_own_symbol :
  (forall (g : Generator) (new_signal : Signal),
      SignalSchedulerService._is_duplicate_signal g new_signal = true <->
      exists existing_signal,
        In existing_signal
           (LiveSignalGenerator.get_active_signals g
              (Some (sg_symbol new_signal))) /\
        near_duplicate new_signal existing_signal)
  /\
  SignalSchedulerService._is_duplicate_signal (index_with "frxEURUSD")
    (candidate_h1 "frxEURUSD" 1.0851) = true
  /\
  SignalSchedulerService._is_duplicate_signal (index_with "frxEURUSD")
    (candidate_h1 "frxEURUSD" 1.0900) = false.
Proof.
  split; [|split; reflexivity].
  intros g new_signal. unfold SignalSchedulerService._is_duplicate_signal.
  rewrite existsb_exists. unfold near_duplicate.
  split; intros (s & Hin & H); exists s; (split; [exact Hin|]).
  - apply andb_true_iff in H. destruct H as [H Hst].
    apply andb_true_iff in H. destruct H as [Htf Hd].
    apply String.eqb_eq in Htf. apply Qlt_bool_iff in Hd.
    repeat split; try assumption.
    destruct (sg_status s); [reflexivity | discriminate].
  - destruct H as (Htf & Hd & Hst).
    apply String.eqb_eq in Htf. apply Qlt_bool_iff in Hd.
    rewrite Htf, Hd, Hst. reflexivity.
Qed.

(** ** The reading of the bias *)

Section BiasReading.
Import MarketBiasAnalyzer.

Lemma ema_short prices period :
  (length prices < period)%nat -> calculate_ema prices period = last prices 0.
Proof.
  intro H. unfold calculate_ema. apply Nat.ltb_lt in H. now rewrite H.
Qed.

Lemma threshold_pos : 0 < fl 0.0005.
Proof. vm_compute. reflexivity. Qed.

Lemma determine_bias_cases candles timeframe :
  candles <> [] ->
  let d := f64_sub (last_close candles) (ema_of candles timeframe) in
  (Qabs d < fl 0.0005 /\
   bd_bias (determine_bias candles timeframe) = bias_neutral /\
   bd_confidence (determine_bias candles timeframe) = py_round (fl 0.3) 2)
  \/
  (fl 0.0005 <= d /\
   bd_bias (determine_bias candles timeframe) = bias_bullish /\
   bd_confidence (determine_bias candles timeframe)
   = py_round (fmin (f64_div (Qabs d) (fl 0.002)) 1) 2)
  \/
  (d <= - fl 0.0005 /\
   bd_bias (determine_bias candles timeframe) = bias_bearish /\
   bd_confidence (determine_bias candles timeframe)
   = py_round (fmin (f64_div (Qabs d) (fl 0.002)) 1) 2).
Proof.
  intro Hne. cbv zeta. unfold determine_bias.
  destruct candles as [|c rest] eqn:Ec; [contradiction|]. rewrite <- Ec.
  fold (last_close candles). fold (ema_of candles timeframe).
  set (d := f64_sub (last_close candles) (ema_of candles timeframe)).
  destruct (Qlt_bool (Qabs d) (fl 0.0005)) eqn:E1.
  - left. apply Qlt_bool_iff in E1. repeat split. exact E1.
  - apply Qlt_bool_false_iff in E1.
    destruct (Qlt_bool 0 d) eqn:E2.
    + right. left. apply Qlt_bool_iff in E2.
      rewrite Qabs_pos in E1 by lra. repeat split. exact E1.
    + right. right. apply Qlt_bool_false_iff in E2.
      rewrite Qabs_neg in E1 by exact E2. repeat split. lra.
Qed.

(** A move of at least the threshold has a confidence of at least a
    quarter: the doubles of [0.0005] and [0.002] are in the ratio 1 to 4. *)
Lemma confidence_of_move (d : Q) :
  fl 0.0005 <= Qabs d ->
  0.25 <= py_round (fmin (f64_div (Qabs d) (fl 0.002)) 1) 2 /\
  py_round (fmin (f64_div (Qabs d) (fl 0.002)) 1) 2 <= 1.
Proof.
  intro H.
  assert (R : fl 0.0005 / fl 0.002 == 0.25) by (vm_compute; reflexivity).
  assert (P : 0 <= / fl 0.002) by (vm_compute; discriminate).
  assert (F : fl 0.25 == 0.25) by (vm_compute; reflexivity).
  assert (A : 0.25 <= fmin (f64_div (Qabs d) (fl 0.002)) 1).
  { apply fmin_glb; [|lra]. unfold f64_div. rewrite <- F. apply fl_mono.
    rewrite <- R. unfold Qdiv. now apply Qmult_le_compat_r. }
  split.
  - assert (E : py_round 0.25 2 == 0.25) by (vm_compute; reflexivity).
    rewrite <- E. now apply py_round_mono.
  - assert (E : py_round 1 2 == 1) by (vm_compute; reflexivity).
    eapply Qle_trans; [apply py_round_mono, fmin_le_r|].
    rewrite E. apply Qle_refl.
Qed.

Lemma short_series_is_neutral candles timeframe :
  (length candles < ema_period_of timeframe)%nat ->
  bd_bias (determine_bias candles timeframe) = bias_neutral.
Proof.
  intro H. destruct candles as [|c rest]; [reflexivity|].
  set (candles := c :: rest) in *.
  assert (Hne : candles <> []) by discriminate.
  assert (Z0 : f64_sub (last_close candles) (ema_of candles timeframe) = 0).
  { unfold ema_of. rewrite ema_short by (rewrite length_map; exact H).
    fold (last_close candles). unfold f64_sub. apply fl_zero. ring. }
  pose proof threshold_pos as T.
  destruct (determine_bias_cases candles timeframe Hne)
    as [(_ & B & _) | [(D & _) | (D & _)]]; [exact B| |];
    exfalso; revert D; rewrite Z0; lra.
Qed.

Lemma bias_confidence_unit candles timeframe :
  0 <= bd_confidence (determine_bias candles timeframe) /\
  bd_confidence (determine_bias candles timeframe) <= 1.
Proof.
  destruct candles as [|c rest] eqn:Ec; [cbn; split; lra|].
  rewrite <- Ec.
  assert (Hne : candles <> []) by (rewrite Ec; discriminate).
  pose proof (determine_bias_cases candles timeframe Hne) as H.
  cbv zeta in H.
  set (d := f64_sub (last_close candles) (ema_of candles timeframe)) in *.
  pose proof threshold_pos as T.
  destruct H as [(D & _ & ->) | [(D & _ & ->) | (D & _ & ->)]].
  - split; vm_compute; discriminate.
  - assert (A : fl 0.0005 <= Qabs d) by (rewrite Qabs_pos; lra).
    destruct (confidence_of_move d A). split; lra.
  - assert (A : fl 0.0005 <= Qabs d) by (rewrite Qabs_neg; lra).
    destruct (confidence_of_move d A). split; lra.
Qed.

End BiasReading.

Section MultiTimeframe.
Import MarketBiasAnalyzer.

Lemma dict_set_fresh {V} (d : list (string * V)) k v :
  ~ In k (map fst d) -> dict_set d k v = d ++ [(k, v)].
Proof.
  induction d as [|[k' v'] r IH]; intro H; [reflexivity|].
  cbn [dict_set]. destruct (String.eqb k' k) eqn:E.
  - apply String.eqb_eq in E. exfalso. apply H. now left.
  - cbn [app]. rewrite IH; [reflexivity|]. intro Hin. apply H. now right.
Qed.

(** The loop appends one answer per timeframe, counts its vote and adds
    its confidence to the running sum. *)
Lemma bias_loop_spec items results counts total :
  NoDup (map fst results ++ map fst items) ->
  bias_loop items (results, counts, total)
  = (results ++ per_timeframe items,
     fold_left count_bias (map (fun p => bd_bias (snd p)) (per_timeframe items))
       counts,
     fold_left f64_add (map (fun p => bd_confidence (snd p)) (per_timeframe items))
       total).
Proof.
  revert results counts total.
  induction items as [|[tf cs] rest IH]; intros results counts total Hnd.
  - cbn. now rewrite app_nil_r.
  - cbn [bias_loop]. rewrite dict_set_fresh.
    + rewrite IH.
      * cbn [per_timeframe map fst snd fold_left]. now rewrite <- app_assoc.
      * rewrite map_app. cbn [map fst]. rewrite <- app_assoc. exact Hnd.
    + cbn [map fst] in Hnd. apply NoDup_remove_2 in Hnd.
      intro Hin. apply Hnd. apply in_or_app. now left.
Qed.

Lemma fold_count_votes answers c b :
  counted (fold_left count_bias (map (fun p => bd_bias (snd p)) answers) c) b
  = (counted c b + votes b answers)%nat.
Proof.
  revert c. induction answers as [|[tf a] rest IH]; intro c.
  - cbn. lia.
  - cbn [map fold_left snd]. rewrite IH. unfold votes. cbn [filter snd].
    destruct b, (bd_bias a); cbn; lia.
Qed.

Lemma length_per_timeframe items : length (per_timeframe items) = length items.
Proof. unfold per_timeframe. apply length_map. Qed.

Lemma per_timeframe_unit items c :
  In c (map (fun p => bd_confidence (snd p)) (per_timeframe items)) ->
  0 <= c /\ c <= 1.
Proof.
  unfold per_timeframe. rewrite map_map. cbn [snd]. intro H.
  apply in_map_iff in H. destruct H as ([tf cs] & <- & _).
  apply bias_confidence_unit.
Qed.

Lemma inject_nat_succ (k : nat) :
  inject_Z (Z.of_nat (S k)) == inject_Z (Z.of_nat k) + 1.
Proof. rewrite Nat2Z.inj_succ. unfold Z.succ. now rewrite inject_Z_plus. Qed.

Lemma inject_nat_le (k n : nat) :
  (k <= n)%nat -> inject_Z (Z.of_nat k) <= inject_Z (Z.of_nat n).
Proof. intro H. rewrite <- Zle_Qle. lia. Qed.

Lemma inject_nat_nonneg (k : nat) : 0 <= inject_Z (Z.of_nat k).
Proof. change 0 with (inject_Z 0). rewrite <- Zle_Qle. lia. Qed.

(** The running sum of at most a thousand numbers of the unit interval,
    taken in doubles, is within [1001] half-units of the last place per
    addition of the exact sum. *)
Lemma running_sum_error (l : list Q) :
  forall (k : nat) (t s : Q),
    (forall c, In c l -> 0 <= c /\ c <= 1) ->
    (k + length l <= 1000)%nat ->
    0 <= s -> s <= inject_Z (Z.of_nat k) ->
    s - inject_Z (Z.of_nat k) * (1001 * half_ulp) <= t ->
    t <= s + inject_Z (Z.of_nat k) * (1001 * half_ulp) ->
    0 <= s + Qsum l /\
    s + Qsum l <= inject_Z (Z.of_nat (k + length l)) /\
    s + Qsum l - inject_Z (Z.of_nat (k + length l)) * (1001 * half_ulp)
    <= fold_left f64_add l t /\
    fold_left f64_add l t
    <= s + Qsum l + inject_Z (Z.of_nat (k + length l)) * (1001 * half_ulp).
Proof.
  induction l as [|c r IH]; intros k t s Hu Hk S0 S1 T0 T1.
  - cbn [fold_left Qsum length]. rewrite Nat.add_0_r.
    repeat split; lra.
  - cbn [fold_left Qsum length] in *.
    destruct (Hu c (or_introl eq_refl)) as [C0 C1].
    assert (K : inject_Z (Z.of_nat k) <= 999).
    { change 999 with (inject_Z (Z.of_nat 999)). apply inject_nat_le. lia. }
    pose proof (inject_nat_nonneg k) as K0.
    pose proof (inject_nat_succ k) as KS.
    unfold half_ulp in *.
    destruct (fl_within (t + c) 1001) as [F0 F1]; [lra | lra |].
    unfold half_ulp in F0, F1.
    replace (k + S (length r))%nat with (S k + length r)%nat by lia.
    setoid_replace (s + (c + Qsum r)) with ((s + c) + Qsum r) by ring.
    apply (IH (S k) (f64_add t c) (s + c)).
    + intros x Hx. apply Hu. now right.
    + lia.
    + lra.
    + rewrite KS. lra.
    + unfold f64_add. rewrite KS. lra.
    + unfold f64_add. rewrite KS. lra.
Qed.

Lemma scale_unit (x e r : Q) :
  - e <= x -> x <= e -> 0 <= r -> r <= 1 -> - e <= x * r /\ x * r <= e.
Proof.
  intros L U R0 R1.
  assert (A : 0 <= (e - x) * r) by (apply Qmult_le_0_compat; lra).
  assert (B : 0 <= (e + x) * r) by (apply Qmult_le_0_compat; lra).
  assert (C : 0 <= e * (1 - r)) by (apply Qmult_le_0_compat; lra).
  setoid_replace ((e - x) * r) with (e * r - x * r) in A by ring.
  setoid_replace ((e + x) * r) with (e * r + x * r) in B by ring.
  setoid_replace (e * (1 - r)) with (e - e * r) in C by ring.
  split; lra.
Qed.

(** The average the code computes is close to the exact one. *)
Lemma float_average_error (answers : list (string * BiasData)) :
  answers <> [] -> (length answers <= 1000)%nat ->
  (forall c, In c (map (fun p => bd_confidence (snd p)) answers) ->
             0 <= c /\ c <= 1) ->
  Qabs (py_round (float_average answers) 2 - average_confidence answers)
  <= 0.005000001.
Proof.
  intros Hne Hlen Hu. unfold float_average, average_confidence.
  set (l := map (fun p => bd_confidence (snd p)) answers) in *.
  assert (Ll : length l = length answers) by (unfold l; apply length_map).
  destruct (running_sum_error l 0 0 0 Hu) as (S0 & S1 & T0 & T1);
    [cbn; lia | apply Qle_refl | discriminate | discriminate | discriminate |].
  cbn [Nat.add] in S1, T0, T1. rewrite Ll in S1, T0, T1.
  rewrite Qplus_0_l in S0, S1, T0, T1.
  set (n := inject_Z (Z.of_nat (length answers))) in *.
  assert (N1 : 1 <= n).
  { unfold n. change 1 with (inject_Z (Z.of_nat 1)). apply inject_nat_le.
    destruct answers; [contradiction | cbn; lia]. }
  assert (N2 : n <= 1000).
  { unfold n. change 1000 with (inject_Z (Z.of_nat 1000)).
    now apply inject_nat_le. }
  assert (R0 : 0 < / n) by (apply Qinv_lt_0_compat; lra).
  assert (R1 : / n <= 1).
  { assert (E : n * / n == 1) by (field; lra).
    assert (X : 0 <= (n - 1) * / n) by (apply Qmult_le_0_compat; lra).
    setoid_replace ((n - 1) * / n) with (n * / n - / n) in X by ring. lra. }
  unfold f64_div, Qdiv.
  set (t := fold_left f64_add l 0) in *. set (s := Qsum l) in *.
  set (r := / n) in *.
  unfold half_ulp in T0, T1.
  destruct (scale_unit (t - s) (1000 * (1001 * (1 # 9007199254740992))) r)
    as [D0 D1]; [lra | lra | lra | exact R1 |].
  setoid_replace ((t - s) * r) with (t * r - s * r) in D0 by ring.
  setoid_replace ((t - s) * r) with (t * r - s * r) in D1 by ring.
  assert (A0 : 0 <= s * r) by (apply Qmult_le_0_compat; lra).
  assert (A1 : s * r <= 1).
  { assert (E : n * r == 1) by (unfold r; field; lra).
    assert (X : 0 <= (n - s) * r) by (apply Qmult_le_0_compat; lra).
    setoid_replace ((n - s) * r) with (n * r - s * r) in X by ring. lra. }
  destruct (fl_within (t * r) 1001) as [F0 F1]; [lra | lra |].
  unfold half_ulp in F0, F1.
  destruct (round_nd_near (fl (t * r)) 2) as [G0 G1].
  assert (H2 : (1 # 2) / pow10 2 == 0.005) by reflexivity.
  rewrite H2 in G0, G1.
  destruct (fl_within (round_nd (fl (t * r)) 2) 1002) as [P0 P1]; [lra | lra |].
  unfold half_ulp in P0, P1.
  unfold py_round. apply Qabs_Qle_condition. split; lra.
Qed.

End MultiTimeframe.

(** C3, as stated, fails on ties and on the confidence.  With one bullish
    and one bearish vote the overall bias is bullish, not neutral; with one
    vote of each kind it is bullish as well, and the overall confidence is
    the double of [0.77], not the average of the three confidences [1.0],
    [1.0] and the double of [0.3], which lies below [0.767]. *)
Lemma C3_counterexample :
  votes bias_bullish (per_timeframe tied_vote) = 1%nat /\
  votes bias_bearish (per_timeframe tied_vote) = 1%nat /\
  votes bias_neutral (per_timeframe tied_vote) = 0%nat /\
  overall_bias (MarketBiasAnalyzer.get_multi_timeframe_bias tied_vote)
  <> bias_neutral /\
  overall_bias (MarketBiasAnalyzer.get_multi_timeframe_bias three_way_vote)
  <> bias_neutral /\
  overall_confidence
    (MarketBiasAnalyzer.get_multi_timeframe_bias three_way_vote)
  == fl 0.77 /\
  average_confidence (per_timeframe three_way_vote) < 0.767 /\
  ~ overall_confidence
      (MarketBiasAnalyzer.get_multi_timeframe_bias three_way_vote)
    == average_confidence (per_timeframe three_way_vote).
Proof.
  repeat (split; [vm_compute; try reflexivity; discriminate|]).
  vm_compute. discriminate.
Qed.

(** C3 (amended).  For every non-empty mapping of timeframes to candle
    series, the aggregation computes each timeframe's bias from that
    timeframe's own candles, counts the votes, and reports a bias with the
    greatest number of votes, which is the majority bias whenever one bias
    has strictly more votes than each of the others.  The overall confidence
    is the average of the per-timeframe confidences as the doubles give it
    (a running sum, then one division), rounded to 2 decimals by [round];
    for up to a thousand timeframes it is within [0.005000001] of the exact
    simple average. *)
Theorem C3_multi_timeframe_vote :
  forall candles_by_tf : list (string * list Candle),
    candles_by_tf <> [] ->
    NoDup (map fst candles_by_tf) ->
    timeframe_analysis
      (MarketBiasAnalyzer.get_multi_timeframe_bias candles_by_tf)
    = per_timeframe candles_by_tf
    /\
    (forall b,
        counted
          (bias_distribution
             (MarketBiasAnalyzer.get_multi_timeframe_bias candles_by_tf)) b
        = votes b (per_timeframe candles_by_tf))
    /\
    (forall b,
        (votes b (per_timeframe candles_by_tf)
         <= votes
              (overall_bias
                 (MarketBiasAnalyzer.get_multi_timeframe_bias candles_by_tf))
              (per_timeframe candles_by_tf))%nat)
    /\
    (forall b,
        (forall b', b' <> b ->
                    (votes b' (per_timeframe candles_by_tf)
                     < votes b (per_timeframe candles_by_tf))%nat) ->
        overall_bias (MarketBiasAnalyzer.get_multi_timeframe_bias candles_by_tf)
        = b)
    /\
    overall_confidence
      (MarketBiasAnalyzer.get_multi_timeframe_bias candles_by_tf)
    = py_round (float_average (per_timeframe candles_by_tf)) 2
    /\
    ((length candles_by_tf <= 1000)%nat ->
     Qabs (overall_confidence
             (MarketBiasAnalyzer.get_multi_timeframe_bias candles_by_tf)
           - average_confidence (per_timeframe candles_by_tf))
     <= 0.005000001).
Proof.
  intros items Hne Hnd.
  assert (Conf :
    overall_confidence (MarketBiasAnalyzer.get_multi_timeframe_bias items)
    = py_round (float_average (per_timeframe items)) 2).
  { unfold MarketBiasAnalyzer.get_multi_timeframe_bias.
    rewrite bias_loop_spec by exact Hnd. cbn [app overall_confidence].
    destruct items as [|p rest] eqn:Ei; [contradiction|]. rewrite <- Ei.
    unfold float_average. now rewrite length_per_timeframe. }
  split; [|split; [|split; [|split; [|split]]]]; try exact Conf.
  5:{ intro Hlen. rewrite Conf. apply float_average_error.
      - destruct items; [contradiction | discriminate].
      - now rewrite length_per_timeframe.
      - apply per_timeframe_unit. }
  all: unfold MarketBiasAnalyzer.get_multi_timeframe_bias;
    rewrite bias_loop_spec by exact Hnd; cbn [app];
    set (answers := per_timeframe items);
    set (counts := fold_left MarketBiasAnalyzer.count_bias
                     (map (fun p => bd_bias (snd p)) answers)
                     (mkCount 0 0 0));
    assert (C : forall b, counted counts b = votes b answers)
      by (intro b; unfold counts; rewrite fold_count_votes; now destruct b);
    pose proof (C bias_bullish) as Cb; pose proof (C bias_bearish) as Cr;
    pose proof (C bias_neutral) as Cn; cbn [counted] in Cb, Cr, Cn;
    cbn [timeframe_analysis bias_distribution overall_bias];
    assert (V : forall b,
      (votes b answers
       <= votes (if (Nat.max (Nat.max (n_bullish counts)
                                (n_bearish counts))
                       (n_neutral counts)
                     =? n_bullish counts)%nat
                 then bias_bullish
                 else if (Nat.max (Nat.max (n_bullish counts)
                                     (n_bearish counts))
                            (n_neutral counts)
                          =? n_bearish counts)%nat
                      then bias_bearish else bias_neutral) answers)%nat)
      by (intro b; rewrite Cb, Cr, Cn;
          destruct (Nat.eqb_spec
                      (Nat.max (Nat.max (votes bias_bullish answers)
                                  (votes bias_bearish answers))
                         (votes bias_neutral answers))
                      (votes bias_bullish answers)) as [E1|E1];
          [destruct b; lia|];
          destruct (Nat.eqb_spec
                      (Nat.max (Nat.max (votes bias_bullish answers)
                                  (votes bias_bearish answers))
                         (votes bias_neutral answers))
                      (votes bias_bearish answers)) as [E2|E2];
          destruct b; lia).
  - reflexivity.
  - exact C.
  - exact V.
  - intros b Hlead.
    match goal with
    | |- ?o = b => destruct (Bias_eqb o b) eqn:E; [|pose proof (V b) as Vb]
    end.
    + match goal with
      | |- ?o = b => destruct o, b; try discriminate; reflexivity
      end.
    + match type of Vb with
      | (_ <= votes ?o _)%nat =>
          assert (Hneq : o <> b)
            by (intro Heq; rewrite Heq in E; destruct b; discriminate);
          pose proof (Hlead o Hneq)
      end.
      lia.
Qed.

(** The theorem at [three_way_vote]. *)
Lemma C3_multi_timeframe_vote_witness :
  timeframe_analysis
    (MarketBiasAnalyzer.get_multi_timeframe_bias three_way_vote)
  = per_timeframe three_way_vote /\
  overall_confidence
    (MarketBiasAnalyzer.get_multi_timeframe_bias three_way_vote)
  = py_round (float_average (per_timeframe three_way_vote)) 2 /\
  Qabs (overall_confidence
          (MarketBiasAnalyzer.get_multi_timeframe_bias three_way_vote)
        - average_confidence (per_timeframe three_way_vote))
  <= 0.005000001.
Proof.
  assert (Hne : three_way_vote <> []) by discriminate.
  assert (Hnd : NoDup (map fst three_way_vote)).
  { cbn. repeat constructor; cbn; intuition discriminate. }
  pose proof (C3_multi_timeframe_vote three_way_vote Hne Hnd)
    as (A & _ & _ & _ & B & C).
  split; [exact A|]. split; [exact B|]. apply C. cbn. lia.
Defined.

(** ** The scheduler's pass over a bucket *)

Section SchedulerPass.
Import LiveSignalGenerator SignalSchedulerService.

Lemma take_signal_length signals id found rest :
  take_signal signals id = Some (found, rest) ->
  length signals = S (length rest).
Proof.
  intro H. destruct (take_signal_some _ _ _ _ H) as (_ & pre & post & -> & -> & _).
  rewrite !length_app. cbn [length]. lia.
Qed.

Lemma take_from_buckets_len buckets id found buckets' symbol :
  take_from_buckets buckets id = Some (found, buckets') ->
  (bucket_len (mkGenerator buckets' [] no_stats) symbol
   <= bucket_len (mkGenerator buckets [] no_stats) symbol)%nat.
Proof.
  unfold bucket_len. cbn [active_signals].
  revert buckets'. induction buckets as [|[k signals] rest IH];
    intro buckets'; [discriminate|].
  cbn [take_from_buckets].
  destruct (take_signal signals id) as [[f r]|] eqn:E.
  - intro H. inversion H; subst. cbn [dict_get].
    destruct (String.eqb k symbol); [|lia].
    apply take_signal_length in E. lia.
  - destruct (take_from_buckets rest id) as [[f r]|]; [|discriminate].
    intro H. inversion H; subst. cbn [dict_get].
    destruct (String.eqb k symbol); [lia|]. now apply IH.
Qed.

Lemma close_signal_len g id ex now symbol :
  (bucket_len (snd (close_signal g id ex now)) symbol <= bucket_len g symbol)%nat.
Proof.
  unfold close_signal.
  destruct (take_from_buckets (active_signals g) id) as [[f b]|] eqn:E;
    cbn [snd]; [|lia].
  exact (take_from_buckets_len _ _ _ _ symbol E).
Qed.

Lemma exit_step_len g signal price now symbol :
  (bucket_len (fst (exit_step g signal price now)) symbol
   <= bucket_len g symbol)%nat.
Proof.
  unfold exit_step.
  destruct (check_exit_conditions signal price now) as [ex|]; cbn [fst]; [|lia].
  pose proof (close_signal_len g (ex_signal_id ex) ex now symbol) as L.
  destruct (close_signal g (ex_signal_id ex) ex now) as [[|] g'];
    cbn [fst snd] in *; exact L.
Qed.

(** The pass ends by itself within the bucket's length: fuel beyond it
    changes nothing. *)
Lemma exit_loop_live_fuel fuel k symbol idx g price now :
  (bucket_len g symbol <= idx + fuel)%nat ->
  exit_loop_live (fuel + k) symbol idx g price now
  = exit_loop_live fuel symbol idx g price now.
Proof.
  revert idx g. induction fuel as [|fuel IH]; intros idx g Hlen.
  - cbn [Nat.add exit_loop_live]. destruct k; [reflexivity|].
    cbn [exit_loop_live]. unfold bucket_len in Hlen.
    destruct (dict_get (active_signals g) symbol) as [bucket|]; [|reflexivity].
    assert (E : nth_error bucket idx = None) by (apply nth_error_None; lia).
    now rewrite E.
  - cbn [Nat.add exit_loop_live].
    destruct (dict_get (active_signals g) symbol) as [bucket|]; [|reflexivity].
    destruct (nth_error bucket idx) as [signal|]; [|reflexivity].
    pose proof (exit_step_len g signal price now symbol) as L.
    destruct (exit_step g signal price now) as [g' evs]. cbn [fst] in L.
    rewrite IH; [reflexivity | lia].
Qed.

Lemma check_exit_conditions_fuel g symbol bucket price now k :
  String.eqb symbol "" = false ->
  dict_get (active_signals g) symbol = Some bucket ->
  exit_loop_live (length bucket + k) symbol 0 g price now
  = _check_exit_conditions g symbol price now.
Proof.
  intros Hs Hb. unfold _check_exit_conditions, truthy. rewrite Hs, Hb.
  apply exit_loop_live_fuel. unfold bucket_len. rewrite Hb. lia.
Qed.

(** The closed log only grows during a pass. *)
Lemma exit_step_log g signal price now x :
  In x (closed_signals g) ->
  In x (closed_signals (fst (exit_step g signal price now))).
Proof.
  intro H. unfold exit_step.
  destruct (check_exit_conditions signal price now) as [ex|]; [|exact H].
  unfold close_signal.
  destruct (take_from_buckets (active_signals g) (ex_signal_id ex))
    as [[f b]|]; cbn [fst closed_signals]; [|exact H].
  apply in_or_app. now left.
Qed.

Lemma exit_loop_live_log fuel symbol idx g price now x :
  In x (closed_signals g) ->
  In x (closed_signals (fst (exit_loop_live fuel symbol idx g price now))).
Proof.
  revert idx g. induction fuel as [|fuel IH]; intros idx g H; [exact H|].
  cbn [exit_loop_live].
  destruct (dict_get (active_signals g) symbol) as [bucket|]; [|exact H].
  destruct (nth_error bucket idx) as [signal|]; [|exact H].
  pose proof (exit_step_log g signal price now x H) as H'.
  destruct (exit_step g signal price now) as [g' evs]. cbn [fst] in H'.
  specialize (IH (S idx) g' H').
  destruct (exit_loop_live fuel symbol (S idx) g' price now) as [g'' evs'].
  exact IH.
Qed.

(** The first signal of a bucket is always evaluated: if its exit
    conditions are met, the pass closes it and broadcasts its exit first. *)
Lemma first_of_bucket_is_closed g symbol signal rest price now ex :
  String.eqb symbol "" = false ->
  dict_get (active_signals g) symbol = Some (signal :: rest) ->
  NoDup (active_ids g) ->
  check_exit_conditions signal price now = Some ex ->
  exists g' evs,
    _check_exit_conditions g symbol price now
    = (g', mkExitEvent (sg_symbol signal) (sg_timeframe signal)
             (sg_signal_id signal) (ex_exit_price ex) (ex_pips_gained ex)
             (ex_reason ex) :: evs) /\
    In (mark_closed signal ex now) (closed_signals g').
Proof.
  intros Hs Hb Hnd Hex.
  assert (Hin : In signal (all_signals g)).
  { unfold all_signals. clear - Hb.
    induction (active_signals g) as [|[k l] r IH]; [discriminate|].
    cbn [dict_get] in Hb. cbn [flat_map snd]. apply in_or_app.
    destruct (String.eqb k symbol).
    - inversion Hb; subst. left. now left.
    - right. now apply IH. }
  destruct (close_evaluated g signal price now ex Hnd Hin Hex)
    as (g1 & Hc & Hlog & _ & _).
  unfold _check_exit_conditions, truthy. rewrite Hs, Hb.
  cbn [length exit_loop_live]. rewrite Hb. cbn [nth_error].
  unfold exit_step at 1. rewrite Hex, Hc.
  pose proof (exit_loop_live_log (length rest) symbol 1 g1 price now
                (mark_closed signal ex now)) as M.
  destruct (exit_loop_live (length rest) symbol 1 g1 price now) as [g' evs].
  exists g', evs. split; [reflexivity|].
  apply M. rewrite Hlog. apply in_or_app. right. now left.
Qed.

(** After a close the iterator steps over the signal that moved into the
    freed position: of two signals whose targets are both hit, one pass
    closes the first only, and the next pass closes the second. *)
Lemma pass_steps_over_the_next_signal :
  _check_exit_conditions two_signals "frxEURUSD" 1.1105 100
  = (after_first_pass,
     [mkExitEvent "frxEURUSD" "M15" "signal_frxEURUSD_M15_0" 1.1100
        (fl 100) target_hit]) /\
  active_signals after_first_pass = [("frxEURUSD"%string, [example_signal])] /\
  map sg_signal_id (closed_signals after_first_pass)
  = ["signal_frxEURUSD_M15_0"%string] /\
  active_signals after_second_pass = [("frxEURUSD"%string, [])] /\
  map sg_signal_id (closed_signals after_second_pass)
  = ["signal_frxEURUSD_M15_0"%string; "signal_frxEURUSD_H1_0"%string].
Proof. repeat split; vm_compute; reflexivity. Qed.

End SchedulerPass.

(** * Further properties of the code *)

(** ** The gap detector: what is reported *)

Section Reported.
Import FVGDetector.

Lemma filter_status_split (l : list FVG) :
  (forall f, In f l <->
     In f (filter (fun g => FvgStatus_eqb (status g) active) l) \/
     In f (filter (fun g => FvgStatus_eqb (status g) filled) l)) /\
  (forall f, ~ (In f (filter (fun g => FvgStatus_eqb (status g) active) l) /\
                In f (filter (fun g => FvgStatus_eqb (status g) filled) l))) /\
  length l
  = (length (filter (fun g => FvgStatus_eqb (status g) active) l)
     + length (filter (fun g => FvgStatus_eqb (status g) filled) l))%nat.
Proof.
  split; [|split].
  - intro f. rewrite !filter_In. destruct (status f); cbn; tauto.
  - intros f [A B]. apply filter_In in A, B.
    destruct (status f); cbn in *; destruct A, B; discriminate.
  - induction l as [|g l IH]; [reflexivity|].
    cbn [filter length]. destruct (status g); cbn; lia.
Qed.

End Reported.

(** X1.  [detect_fvgs] returns on every series: no window makes the
    targets' divisions fail.  In its answer every record is either active
    or filled, never both, so that [total_count = active_count +
    filled_count]; and the answer is marked complete exactly when the
    series has at least 5 candles. *)
Theorem detect_fvgs_returns_a_partition :
  forall candles : list Candle,
  exists fa,
    FVGDetector.detect_fvgs candles = Ok fa /\
    (forall f, In f (FVGDetector.fvgs fa) <->
               In f (FVGDetector.active_fvgs fa) \/
               In f (FVGDetector.filled_fvgs fa)) /\
    (forall f, ~ (In f (FVGDetector.active_fvgs fa) /\
                  In f (FVGDetector.filled_fvgs fa))) /\
    length (FVGDetector.fvgs fa)
    = (length (FVGDetector.active_fvgs fa)
       + length (FVGDetector.filled_fvgs fa))%nat /\
    (FVGDetector.fvg_analysis_complete fa = true <->
     (5 <= length candles)%nat).
Proof.
  intro candles. unfold FVGDetector.detect_fvgs.
  destruct (length candles <? 5)%nat eqn:L.
  - apply Nat.ltb_lt in L. eexists. split; [reflexivity|].
    cbn. repeat split; try tauto; try discriminate; lia.
  - apply Nat.ltb_ge in L.
    destruct (collect_fvgs_total candles
                (FVGDetector.range 2 (length candles - 1))) as (l & ->).
    cbn [bind]. eexists. split; [reflexivity|].
    cbn [FVGDetector.fvgs FVGDetector.active_fvgs FVGDetector.filled_fvgs
         FVGDetector.fvg_analysis_complete].
    destruct (filter_status_split l) as (A & B & C).
    repeat split; try assumption; try apply A; tauto.
Qed.

Section Windows.
Import FVGDetector.

Lemma collect_fvgs_windows candles idxs l :
  collect_fvgs candles idxs = Ok l ->
  exists kept, map window_of l = kept /\
               (forall i, In i kept -> In i idxs) /\
               (forall R : nat -> nat -> Prop,
                   StronglySorted R idxs -> StronglySorted R kept).
Proof.
  revert l. induction idxs as [|i rest IH]; intros l E; cbn [collect_fvgs] in E.
  - inversion E. exists []. repeat split; [intros i []|auto].
  - destruct (_analyze_single_fvg candles i) as [r|] eqn:Ei; cbn [bind] in E;
      [|discriminate].
    destruct (collect_fvgs candles rest) as [more|]; cbn [bind] in E;
      [|discriminate].
    inversion E; subst l; clear E.
    destruct (IH more eq_refl) as (kept & Hk & Hin & Hs).
    destruct r as [f|].
    + exists (i :: kept). cbn [map]. unfold window_of at 1.
      rewrite (fvg_id_of_window _ _ _ Ei), Hk. split; [reflexivity|]. split.
      * intros j [<-|Hj]; [now left | right; now apply Hin].
      * intros R HR. inversion HR as [|? ? HR' Hall]; subst.
        constructor; [now apply Hs|].
        rewrite Forall_forall in *. intros j Hj. apply Hall, Hin, Hj.
    + exists kept. split; [exact Hk|]. split.
      * intros j Hj. right. now apply Hin.
      * intros R HR. inversion HR; subst. now apply Hs.
Qed.

Lemma seq_sorted_lt start len : StronglySorted lt (seq start len).
Proof.
  revert start. induction len as [|len IH]; intro start; cbn [seq];
    constructor; [apply IH|].
  apply Forall_forall. intros j Hj. apply in_seq in Hj. lia.
Qed.

End Windows.

(** X2.  The records of [detect_fvgs] come in the order of their windows,
    one record per window at most: the window indices are strictly
    increasing and lie between 2 and n-2, so there are at most n-3
    records; each record names the middle candle of its window as
    [formation_index]. *)
Theorem detected_windows_are_increasing :
  forall candles fa,
    FVGDetector.detect_fvgs candles = Ok fa ->
    StronglySorted lt (map window_of (FVGDetector.fvgs fa)) /\
    (forall f, In f (FVGDetector.fvgs fa) ->
               (2 <= window_of f <= length candles - 2)%nat /\
               formation_index f = (window_of f - 1)%nat /\
               snd (fvg_id f) = fvg_type f) /\
    (length (FVGDetector.fvgs fa) <= length candles - 3)%nat.
Proof.
  intros candles fa Hd.
  assert (In_f : forall f, In f (FVGDetector.fvgs fa) ->
             (2 <= window_of f <= length candles - 2)%nat /\
             formation_index f = (window_of f - 1)%nat /\
             snd (fvg_id f) = fvg_type f).
  { intros f Hin. pose proof (detect_fvgs_In _ _ _ Hd Hin) as Hf.
    unfold window_of. remember (fst (fvg_id f)) as w eqn:Hw.
    destruct (analyze_single_inv _ _ _ Hf)
      as (H2 & Hi & c1 & c2 & c3 & gd & t & _ & _ & _ & _ & _ & E).
    split; [lia|]. rewrite E. split; reflexivity. }
  unfold FVGDetector.detect_fvgs in Hd.
  destruct (length candles <? 5)%nat eqn:L.
  - inversion Hd; subst fa. cbn. repeat split; try constructor; try lia.
    all: intros f [].
  - destruct (FVGDetector.collect_fvgs candles _) as [l|] eqn:E;
      cbn [bind] in Hd; [|discriminate].
    inversion Hd; subst fa. cbn [FVGDetector.fvgs] in *.
    destruct (collect_fvgs_windows _ _ _ E) as (kept & Hk & Hin & Hs).
    split; [|split; [exact In_f|]].
    + rewrite Hk. apply Hs. apply seq_sorted_lt.
    + apply Nat.ltb_ge in L.
      assert (Hnd : NoDup kept).
      { specialize (Hs lt (seq_sorted_lt _ _)).
        clear - Hs. induction Hs as [|a l Hs IH Hall]; constructor; [|exact IH].
        intro Hin. rewrite Forall_forall in Hall. specialize (Hall a Hin). lia. }
      assert (Hincl : incl kept (FVGDetector.range 2 (length candles - 1)))
        by exact Hin.
      pose proof (NoDup_incl_length Hnd Hincl) as Hlen.
      unfold FVGDetector.range in Hlen. rewrite length_seq in Hlen.
      rewrite <- Hk, length_map in Hlen. lia.
Qed.

(** The theorem on [gap_then_fill]: windows 2 and 4. *)
Lemma detected_windows_are_increasing_witness :
  map window_of (FVGDetector.fvgs gap_then_fill_fvgs) = [2; 4]%nat /\
  StronglySorted lt (map window_of (FVGDetector.fvgs gap_then_fill_fvgs)) /\
  (length (FVGDetector.fvgs gap_then_fill_fvgs) <= length gap_then_fill - 3)%nat.
Proof.
  assert (Hd : FVGDetector.detect_fvgs gap_then_fill = Ok gap_then_fill_fvgs)
    by (vm_compute; reflexivity).
  destruct (detected_windows_are_increasing _ _ Hd) as (S & _ & L).
  split; [reflexivity|]. split; [exact S | exact L].
Defined.

Section ReportedIffGap.
Import FVGDetector.

Lemma check_bullish_iff h1 l1 h2 l2 h3 l3 :
  (exists gd, _check_bullish_fvg h1 l1 h2 l2 h3 l3 = Some gd) <->
  min_gap_size <= l1 - h3.
Proof.
  split.
  - intros (gd & H). now apply check_bullish_some in H.
  - intro H. unfold _check_bullish_fvg.
    assert (P : h3 < l1) by (pose proof min_gap_size_pos; lra).
    apply Qlt_bool_iff in P. rewrite P.
    apply Qle_bool_iff in H. rewrite H. now eexists.
Qed.

Lemma check_bearish_iff h1 l1 h2 l2 h3 l3 :
  (exists gd, _check_bearish_fvg h1 l1 h2 l2 h3 l3 = Some gd) <->
  min_gap_size <= l3 - h1.
Proof.
  split.
  - intros (gd & H). now apply check_bearish_some in H.
  - intro H. unfold _check_bearish_fvg.
    assert (P : h1 < l3) by (pose proof min_gap_size_pos; lra).
    apply Qlt_bool_iff in P. rewrite P.
    apply Qle_bool_iff in H. rewrite H. now eexists.
Qed.

(** The record of one window, by the gaps the window has. *)
Lemma analyze_single_by_gap candles i :
  (2 <= i)%nat -> (i < length candles - 1)%nat ->
  match _analyze_single_fvg candles i with
  | Ok (Some f) =>
      window_of f = i /\
      ((fvg_type f = bullish /\ has_bullish_gap candles i) \/
       (fvg_type f = bearish /\ has_bearish_gap candles i /\
        ~ has_bullish_gap candles i))
  | Ok None => ~ has_bullish_gap candles i /\ ~ has_bearish_gap candles i
  | Raise _ => False
  end.
Proof.
  intros H2 Hi.
  destruct (getitem_in_range candles (i - 2)) as (c1 & G1 & E1); [lia|].
  destruct (getitem_in_range candles (i - 1)) as (c2 & G2 & E2); [lia|].
  destruct (getitem_in_range candles i) as (c3 & G3 & E3); [lia|].
  unfold has_bullish_gap, has_bearish_gap.
  rewrite (low_at_nth _ _ _ E1), (high_at_nth _ _ _ E3),
    (low_at_nth _ _ _ E3), (high_at_nth _ _ _ E1).
  destruct (_analyze_single_fvg candles i) as [[f|]|e] eqn:A.
  - split; [exact (fvg_id_of_window _ _ _ A)|].
    destruct (analyze_single_inv _ _ _ A)
      as (_ & _ & d1 & d2 & d3 & gd & t & F1 & F2 & F3 & Hgd & _ & ->).
    rewrite E1 in F1. rewrite E3 in F3. inversion F1; inversion F3; subst d1 d3.
    destruct Hgd as [(-> & Hsz & _) | (-> & Hsz & B & _)].
    + left. split; [reflexivity | exact Hsz].
    + right. split; [reflexivity|]. split; [exact Hsz|].
      intro Hb. rewrite E2 in F2. inversion F2; subst d2.
      apply (check_bullish_iff (high c1) (low c1) (high c2) (low c2)
               (high c3) (low c3)) in Hb.
      destruct Hb as (gd & Hb). congruence.
  - unfold _analyze_single_fvg in A.
    assert (G : ((i <? 2)%nat || (length candles - 1 <=? i)%nat) = false).
    { apply orb_false_iff. split; [apply Nat.ltb_ge | apply Nat.leb_gt]; lia. }
    rewrite G, G1, G2, G3 in A. cbn [bind] in A.
    destruct (_check_bullish_fvg _ _ _ _ _ _) as [gd|] eqn:B.
    { destruct (_create_fvg_record _ _ _ _ _ _ _); discriminate. }
    destruct (_check_bearish_fvg _ _ _ _ _ _) as [gd|] eqn:B'.
    { destruct (_create_fvg_record _ _ _ _ _ _ _); discriminate. }
    split; intro H.
    + apply (check_bullish_iff (high c1) (low c1) (high c2) (low c2)
               (high c3) (low c3)) in H.
      destruct H as (gd & H). congruence.
    + apply (check_bearish_iff (high c1) (low c1) (high c2) (low c2)
               (high c3) (low c3)) in H.
      destruct H as (gd & H). congruence.
  - destruct (analyze_single_total candles i) as (r & Hr). congruence.
Qed.

End ReportedIffGap.

(** X3.  For a series of at least 5 candles and a window [i] with
    [2 <= i <= n-2], [detect_fvgs] reports a bullish record for the window
    exactly when [low[i-2] - high[i] >= 0.0002], and a bearish record
    exactly when [low[i] - high[i-2] >= 0.0002] and the bullish condition
    fails (bullish is checked first); a window with neither gap is not
    reported. *)
Theorem window_reported_iff_gap :
  forall candles fa i,
    FVGDetector.detect_fvgs candles = Ok fa ->
    (5 <= length candles)%nat ->
    (2 <= i <= length candles - 2)%nat ->
    ((exists f, In f (FVGDetector.fvgs fa) /\ window_of f = i /\
                fvg_type f = bullish)
     <-> has_bullish_gap candles i)
    /\
    ((exists f, In f (FVGDetector.fvgs fa) /\ window_of f = i /\
                fvg_type f = bearish)
     <-> has_bearish_gap candles i /\ ~ has_bullish_gap candles i).
Proof.
  intros candles fa i Hd Hlen Hi.
  pose proof (analyze_single_by_gap candles i) as A.
  assert (Back : forall f, FVGDetector._analyze_single_fvg candles i
                           = Ok (Some f) -> In f (FVGDetector.fvgs fa)).
  { intros f Hf.
    destruct (detect_fvgs_contains candles i f Hlen Hf) as (fa' & Hd' & Hin).
    congruence. }
  assert (Forth : forall f, In f (FVGDetector.fvgs fa) -> window_of f = i ->
                            FVGDetector._analyze_single_fvg candles i
                            = Ok (Some f)).
  { intros f Hin <-. exact (detect_fvgs_In _ _ _ Hd Hin). }
  specialize (A ltac:(lia) ltac:(lia)).
  destruct (FVGDetector._analyze_single_fvg candles i) as [[g|]|e] eqn:E;
    [| |contradiction].
  - destruct A as (Hw & A). split; split.
    + intros (f & Hin & Hf & Ht). specialize (Forth f Hin Hf).
      inversion Forth; subst g.
      destruct A as [(_ & A) | (A & _)]; [exact A | congruence].
    + intro Hb. exists g. split; [now apply Back|]. split; [exact Hw|].
      destruct A as [(A & _) | (_ & _ & A)]; [exact A | contradiction].
    + intros (f & Hin & Hf & Ht). specialize (Forth f Hin Hf).
      inversion Forth; subst g.
      destruct A as [(A & _) | (_ & A)]; [congruence | exact A].
    + intros (Hr & Hnb). exists g. split; [now apply Back|].
      split; [exact Hw|].
      destruct A as [(_ & A) | (A & _)]; [contradiction | exact A].
  - destruct A as (Hnb & Hnr). split; split.
    + intros (f & Hin & Hf & _). specialize (Forth f Hin Hf). discriminate.
    + intro. contradiction.
    + intros (f & Hin & Hf & _). specialize (Forth f Hin Hf). discriminate.
    + intros (? & _). contradiction.
Qed.

(** The theorem on [gap_then_fill]: window 2 is bullish, window 4 bearish,
    window 3 has no gap. *)
Lemma window_reported_iff_gap_witness :
  (exists f, In f (FVGDetector.fvgs gap_then_fill_fvgs) /\ window_of f = 2%nat /\
             fvg_type f = bullish) /\
  (exists f, In f (FVGDetector.fvgs gap_then_fill_fvgs) /\ window_of f = 4%nat /\
             fvg_type f = bearish) /\
  ~ (exists f, In f (FVGDetector.fvgs gap_then_fill_fvgs) /\
               window_of f = 3%nat /\ fvg_type f = bullish).
Proof.
  assert (Hd : FVGDetector.detect_fvgs gap_then_fill = Ok gap_then_fill_fvgs)
    by (vm_compute; reflexivity).
  assert (Hlen : (5 <= length gap_then_fill)%nat) by (vm_compute; lia).
  split; [|split].
  - apply (proj1 (window_reported_iff_gap gap_then_fill _ 2 Hd Hlen
                    ltac:(vm_compute; lia))).
    vm_compute. discriminate.
  - apply (proj2 (window_reported_iff_gap gap_then_fill _ 4 Hd Hlen
                    ltac:(vm_compute; lia))).
    split; [vm_compute; discriminate|]. intro H. vm_compute in H. now apply H.
  - intro H.
    apply (proj1 (window_reported_iff_gap gap_then_fill _ 3 Hd Hlen
                    ltac:(vm_compute; lia))) in H.
    vm_compute in H. now apply H.
Defined.

(** ** Swing points *)

Section SwingPoints.
Import LiquidityAnalyzer.

Lemma is_swing_high_iff highs i : is_swing_high highs i = true <-> peak_at highs i.
Proof.
  unfold is_swing_high, peak_at. rewrite !andb_true_iff, !Qlt_bool_iff. tauto.
Qed.

Lemma is_swing_low_iff lows i : is_swing_low lows i = true <-> trough_at lows i.
Proof.
  unfold is_swing_low, trough_at. rewrite !andb_true_iff, !Qlt_bool_iff. tauto.
Qed.

Lemma strength_unit (p : Q) (l : list Q) :
  0 <= _calculate_level_strength p l /\ _calculate_level_strength p l <= 1.
Proof.
  unfold _calculate_level_strength. apply round_nd_unit.
  - apply fmin_glb; [|lra].
    apply Qle_shift_div_l; [reflexivity|]. rewrite Qmult_0_l. apply Qabs_nonneg.
  - apply fmin_le_r.
Qed.

Lemma swing_highs_loop_In highs idxs s :
  In s (swing_highs_loop highs idxs) <->
  exists i, In i idxs /\ peak_at highs i /\
            s = mkSwing (at_ highs i) i
                  (_calculate_level_strength (at_ highs i) (neighbours highs i))
                  swing_high.
Proof.
  induction idxs as [|j rest IH]; cbn [swing_highs_loop].
  - split; [intros [] | intros (i & [] & _)].
  - destruct (is_swing_high highs j) eqn:E.
    + cbn [In]. rewrite IH. split.
      * intros [<-|(i & Hi & Hp & ->)].
        -- exists j. split; [now left|]. split; [now apply is_swing_high_iff|].
           reflexivity.
        -- exists i. split; [now right|]. now split.
      * intros (i & [<-|Hi] & Hp & ->); [now left|].
        right. exists i. split; [exact Hi|]. split; [exact Hp | reflexivity].
    + rewrite IH. split.
      * intros (i & Hi & Hp & ->). exists i. split; [now right|]. now split.
      * intros (i & [<-|Hi] & Hp & ->).
        -- apply is_swing_high_iff in Hp. congruence.
        -- exists i. split; [exact Hi|]. split; [exact Hp | reflexivity].
Qed.

(** Two peaks are never within two candles of each other. *)
Lemma peaks_apart highs i j :
  peak_at highs i -> peak_at highs j -> (i < j)%nat -> (i + 3 <= j)%nat.
Proof.
  intros (_ & _ & A1 & A2) (B1 & B2 & _ & _) Hlt.
  destruct (Nat.eq_dec j (i + 1)) as [->|N1].
  - replace (i + 1 - 1)%nat with i in B1 by lia. lra.
  - destruct (Nat.eq_dec j (i + 2)) as [->|N2]; [|lia].
    replace (i + 2 - 2)%nat with i in B2 by lia. lra.
Qed.

Lemma swing_highs_loop_apart highs idxs :
  StronglySorted lt idxs ->
  StronglySorted apart (swing_highs_loop highs idxs).
Proof.
  induction 1 as [|j rest Hs IH Hall]; cbn [swing_highs_loop]; [constructor|].
  destruct (is_swing_high highs j) eqn:E; [|exact IH].
  constructor; [exact IH|].
  apply Forall_forall. intros s Hs'. apply swing_highs_loop_In in Hs'.
  destruct Hs' as (i & Hi & Hp & ->). unfold apart. cbn [sw_index].
  rewrite Forall_forall in Hall. specialize (Hall i Hi).
  apply is_swing_high_iff in E. exact (peaks_apart highs j i E Hp Hall).
Qed.

Lemma mirrored_apart l1 l2 :
  Forall2 mirrored l1 l2 -> StronglySorted apart l1 -> StronglySorted apart l2.
Proof.
  induction 1 as [|a b l1 l2 (Hi & _) HF IH]; intro HS; [constructor|].
  inversion HS as [|? ? HS' Hall]; subst. constructor; [now apply IH|].
  clear - Hi HF Hall. induction HF as [|c d l1 l2 (Hj & _) HF IH];
    [constructor|].
  inversion Hall; subst. constructor; [|now apply IH].
  unfold apart in *. lia.
Qed.

End SwingPoints.

(** X4.  [_find_swing_highs] returns exactly the indices [i] with
    [2 <= i <= n-3] at which the high is strictly above its two neighbours
    on each side, in increasing order, each with price [highs[i]] and a
    strength between 0 and 1.  Two swing highs are therefore always at
    least three candles apart, and so are two swing lows. *)
Theorem swing_highs_are_peaks_three_apart :
  forall highs lows : list Q,
    (forall s, In s (LiquidityAnalyzer._find_swing_highs highs lows) ->
       (2 <= sw_index s)%nat /\ (sw_index s + 2 < length highs)%nat /\
       peak_at highs (sw_index s) /\
       sw_price s = LiquidityAnalyzer.at_ highs (sw_index s) /\
       0 <= sw_strength s /\ sw_strength s <= 1)
    /\
    (forall i, (2 <= i)%nat -> (i + 2 < length highs)%nat ->
               peak_at highs i ->
               exists s, In s (LiquidityAnalyzer._find_swing_highs highs lows)
                         /\ sw_index s = i)
    /\
    StronglySorted apart (LiquidityAnalyzer._find_swing_highs highs lows)
    /\
    StronglySorted apart (LiquidityAnalyzer._find_swing_lows highs lows).
Proof.
  intros highs lows.
  assert (Hi : StronglySorted apart
                 (LiquidityAnalyzer._find_swing_highs highs lows)).
  { apply swing_highs_loop_apart. apply seq_sorted_lt. }
  split; [|split; [|split; [exact Hi|]]].
  - intros s Hs. apply swing_highs_loop_In in Hs.
    destruct Hs as (i & Hin & Hp & ->). cbn [sw_index sw_price sw_strength].
    unfold FVGDetector.range in Hin. apply in_seq in Hin.
    pose proof (strength_unit (LiquidityAnalyzer.at_ highs i)
                  (LiquidityAnalyzer.neighbours highs i)) as [S0 S1].
    repeat split; try assumption; try apply Hp; lia.
  - intros i H2 Hn Hp. eexists. split.
    + apply swing_highs_loop_In. exists i. split; [|split; [exact Hp|reflexivity]].
      unfold FVGDetector.range. apply in_seq. lia.
    + reflexivity.
  - eapply mirrored_apart.
    + apply (highs_loop_opp lows
               (FVGDetector.range 2 (length lows - 2))).
    + apply swing_highs_loop_apart. apply seq_sorted_lt.
Qed.

(** ** Liquidity levels *)

Section LiquidityLevels.
Import LiquidityAnalyzer.

Lemma insert_desc_In a l x : In x (insert_desc a l) <-> x = a \/ In x l.
Proof.
  induction l as [|y r IH]; cbn [insert_desc].
  - cbn. intuition.
  - destruct (Qlt_bool (ll_strength a) (ll_strength y)); cbn [In];
      [rewrite IH|]; intuition.
Qed.

Lemma sort_by_strength_In l x : In x (sort_by_strength l) <-> In x l.
Proof.
  induction l as [|a r IH]; cbn [sort_by_strength]; [tauto|].
  rewrite insert_desc_In, IH. cbn. intuition.
Qed.

Lemma insert_desc_sorted a l :
  StronglySorted stronger_first l ->
  StronglySorted stronger_first (insert_desc a l).
Proof.
  induction 1 as [|y r Hs IH Hall]; cbn [insert_desc].
  - repeat constructor.
  - destruct (Qlt_bool (ll_strength a) (ll_strength y)) eqn:E.
    + apply Qlt_bool_iff in E. constructor; [exact IH|].
      apply Forall_forall. intros x Hx. apply insert_desc_In in Hx.
      destruct Hx as [->|Hx].
      * unfold stronger_first. lra.
      * rewrite Forall_forall in Hall. now apply Hall.
    + apply Qlt_bool_false_iff in E. constructor; [now constructor|].
      constructor; [exact E|].
      rewrite Forall_forall in *. intros x Hx. specialize (Hall x Hx).
      unfold stronger_first in *. lra.
Qed.

Lemma sort_by_strength_sorted l :
  StronglySorted stronger_first (sort_by_strength l).
Proof.
  induction l as [|a r IH]; cbn [sort_by_strength]; [constructor|].
  now apply insert_desc_sorted.
Qed.

Lemma firstn_subset {A} n (l : list A) x : In x (firstn n l) -> In x l.
Proof.
  revert n. induction l as [|a l IH]; intro n.
  - now rewrite firstn_nil.
  - destruct n; cbn [firstn]; [intros []|].
    intros [<-|H]; [now left | right; eapply IH; exact H].
Qed.

Lemma firstn_sorted {A} (R : A -> A -> Prop) n l :
  StronglySorted R l -> StronglySorted R (firstn n l).
Proof.
  intro H. revert n. induction H as [|a l Hs IH Hall]; intro n.
  - rewrite firstn_nil. constructor.
  - destruct n; cbn [firstn]; constructor; [apply IH|].
    rewrite Forall_forall in *. intros x Hx. apply Hall.
    eapply firstn_subset. exact Hx.
Qed.

Lemma buy_side_loop_In swing_lows current_price l :
  In l (buy_side_loop swing_lows current_price) <->
  exists s, In s swing_lows /\ sw_price s < current_price /\
            liquidity_threshold < Qabs (current_price - sw_price s) /\
            l = mkLevel (sw_price s) (sw_strength s)
                  (round_nd (Qabs (current_price - sw_price s)) 5)
                  buy_liquidity (significance_of (sw_strength s)).
Proof.
  induction swing_lows as [|s rest IH]; cbn [buy_side_loop].
  - split; [intros [] | intros (s & [] & _)].
  - destruct (Qlt_bool (sw_price s) current_price) eqn:E1;
      [destruct (Qlt_bool liquidity_threshold
                   (Qabs (current_price - sw_price s))) eqn:E2|];
      cbn [In]; rewrite ?IH; split.
    + intros [<-|(s' & Hs & H)].
      * exists s. apply Qlt_bool_iff in E1, E2. split; [now left|]. auto.
      * exists s'. split; [now right | exact H].
    + intros (s' & [<-|Hs] & H1 & H2 & ->); [now left|].
      right. exists s'. repeat split; auto.
    + intros (s' & Hs & H). exists s'. split; [now right | exact H].
    + intros (s' & [<-|Hs] & H1 & H2 & ->).
      * apply Qlt_bool_iff in H2. congruence.
      * exists s'. repeat split; auto.
    + intros (s' & Hs & H). exists s'. split; [now right | exact H].
    + intros (s' & [<-|Hs] & H1 & H2 & ->).
      * apply Qlt_bool_iff in H1. congruence.
      * exists s'. repeat split; auto.
Qed.

Lemma sell_side_loop_In swing_highs current_price l :
  In l (sell_side_loop swing_highs current_price) <->
  exists s, In s swing_highs /\ current_price < sw_price s /\
            liquidity_threshold < Qabs (sw_price s - current_price) /\
            l = mkLevel (sw_price s) (sw_strength s)
                  (round_nd (Qabs (sw_price s - current_price)) 5)
                  sell_liquidity (significance_of (sw_strength s)).
Proof.
  induction swing_highs as [|s rest IH]; cbn [sell_side_loop].
  - split; [intros [] | intros (s & [] & _)].
  - destruct (Qlt_bool current_price (sw_price s)) eqn:E1;
      [destruct (Qlt_bool liquidity_threshold
                   (Qabs (sw_price s - current_price))) eqn:E2|];
      cbn [In]; rewrite ?IH; split.
    + intros [<-|(s' & Hs & H)].
      * exists s. apply Qlt_bool_iff in E1, E2. split; [now left|]. auto.
      * exists s'. split; [now right | exact H].
    + intros (s' & [<-|Hs] & H1 & H2 & ->); [now left|].
      right. exists s'. repeat split; auto.
    + intros (s' & Hs & H). exists s'. split; [now right | exact H].
    + intros (s' & [<-|Hs] & H1 & H2 & ->).
      * apply Qlt_bool_iff in H2. congruence.
      * exists s'. repeat split; auto.
    + intros (s' & Hs & H). exists s'. split; [now right | exact H].
    + intros (s' & [<-|Hs] & H1 & H2 & ->).
      * apply Qlt_bool_iff in H1. congruence.
      * exists s'. repeat split; auto.
Qed.

Lemma swing_lows_strength highs lows s :
  In s (_find_swing_lows highs lows) -> 0 <= sw_strength s /\ sw_strength s <= 1.
Proof.
  unfold _find_swing_lows. generalize (FVGDetector.range 2 (length lows - 2)).
  intro idxs. induction idxs as [|i rest IH]; cbn [swing_lows_loop]; [intros []|].
  destruct (is_swing_low lows i); [|exact IH].
  intros [<-|H]; [apply strength_unit | now apply IH].
Qed.

Lemma swing_highs_strength highs lows s :
  In s (_find_swing_highs highs lows) -> 0 <= sw_strength s /\ sw_strength s <= 1.
Proof.
  unfold _find_swing_highs. generalize (FVGDetector.range 2 (length highs - 2)).
  intro idxs. induction idxs as [|i rest IH]; cbn [swing_highs_loop]; [intros []|].
  destruct (is_swing_high highs i); [|exact IH].
  intros [<-|H]; [apply strength_unit | now apply IH].
Qed.

(** What [find_liquidity_levels] lists on each side. *)
Lemma buy_side_levels candles l :
  In l (buy_side_liquidity (find_liquidity_levels candles)) ->
  ll_price l < last_close candles - 0.001 /\
  0 <= ll_strength l /\ ll_strength l <= 1 /\
  ll_type l = buy_liquidity /\
  ll_distance l = round_nd (last_close candles - ll_price l) 5.
Proof.
  unfold find_liquidity_levels.
  destruct (length candles <? min_candles_for_analysis)%nat; [intros []|].
  cbn [buy_side_liquidity]. unfold _identify_buy_side_liquidity.
  intro H. apply firstn_subset, sort_by_strength_In, buy_side_loop_In in H.
  destruct H as (s & Hs & Hp & Hd & ->). fold (last_close candles) in *.
  cbn [ll_price ll_strength ll_type ll_distance].
  apply swing_lows_strength in Hs.
  assert (A : Qabs (last_close candles - sw_price s)
              == last_close candles - sw_price s)
    by (apply Qabs_pos; lra).
  unfold liquidity_threshold in Hd. rewrite A in Hd.
  repeat split; try tauto; try lra.
  now apply round_nd_comp.
Qed.

Lemma sell_side_levels candles l :
  In l (sell_side_liquidity (find_liquidity_levels candles)) ->
  last_close candles + 0.001 < ll_price l /\
  0 <= ll_strength l /\ ll_strength l <= 1 /\
  ll_type l = sell_liquidity /\
  ll_distance l = round_nd (ll_price l - last_close candles) 5.
Proof.
  unfold find_liquidity_levels.
  destruct (length candles <? min_candles_for_analysis)%nat; [intros []|].
  cbn [sell_side_liquidity]. unfold _identify_sell_side_liquidity.
  intro H. apply firstn_subset, sort_by_strength_In, sell_side_loop_In in H.
  destruct H as (s & Hs & Hp & Hd & ->). fold (last_close candles) in *.
  cbn [ll_price ll_strength ll_type ll_distance].
  apply swing_highs_strength in Hs.
  assert (A : Qabs (sw_price s - last_close candles)
              == sw_price s - last_close candles)
    by (apply Qabs_pos; lra).
  unfold liquidity_threshold in Hd. rewrite A in Hd.
  repeat split; try tauto; try lra.
  now apply round_nd_comp.
Qed.

Lemma liquidity_sides_sorted candles :
  StronglySorted stronger_first
    (buy_side_liquidity (find_liquidity_levels candles)) /\
  StronglySorted stronger_first
    (sell_side_liquidity (find_liquidity_levels candles)) /\
  (length (buy_side_liquidity (find_liquidity_levels candles)) <= 5)%nat /\
  (length (sell_side_liquidity (find_liquidity_levels candles)) <= 5)%nat.
Proof.
  unfold find_liquidity_levels.
  destruct (length candles <? min_candles_for_analysis)%nat.
  - cbn. repeat split; try constructor; lia.
  - cbn [buy_side_liquidity sell_side_liquidity].
    unfold _identify_buy_side_liquidity, _identify_sell_side_liquidity.
    repeat split; try (apply firstn_sorted, sort_by_strength_sorted);
      apply firstn_le_length.
Qed.

End LiquidityLevels.

(** X5.  On every series [find_liquidity_levels] lists at most five levels
    per side, strongest first.  Each buy-side level lies more than [0.001]
    below the last close, each sell-side level more than [0.001] above it;
    its strength is between 0 and 1 and its distance is the gap to the last
    close rounded to 5 decimals.  The analysis is complete exactly for
    series of at least 20 candles. *)
Theorem liquidity_levels_are_ranked_and_clear_of_price :
  forall candles : list Candle,
    (length (buy_side_liquidity
               (LiquidityAnalyzer.find_liquidity_levels candles)) <= 5)%nat /\
    (length (sell_side_liquidity
               (LiquidityAnalyzer.find_liquidity_levels candles)) <= 5)%nat /\
    StronglySorted stronger_first
      (buy_side_liquidity (LiquidityAnalyzer.find_liquidity_levels candles)) /\
    StronglySorted stronger_first
      (sell_side_liquidity (LiquidityAnalyzer.find_liquidity_levels candles)) /\
    (forall l,
        In l (buy_side_liquidity
                (LiquidityAnalyzer.find_liquidity_levels candles)) ->
        ll_price l < last_close candles - 0.001 /\
        0 <= ll_strength l /\ ll_strength l <= 1 /\
        ll_type l = buy_liquidity /\
        ll_distance l = round_nd (last_close candles - ll_price l) 5) /\
    (forall l,
        In l (sell_side_liquidity
                (LiquidityAnalyzer.find_liquidity_levels candles)) ->
        last_close candles + 0.001 < ll_price l /\
        0 <= ll_strength l /\ ll_strength l <= 1 /\
        ll_type l = sell_liquidity /\
        ll_distance l = round_nd (ll_price l - last_close candles) 5) /\
    (analysis_complete (LiquidityAnalyzer.find_liquidity_levels candles) = true
     <-> (20 <= length candles)%nat).
Proof.
  intro candles.
  destruct (liquidity_sides_sorted candles) as (A & B & C & D).
  split; [exact C|]. split; [exact D|]. split; [exact A|]. split; [exact B|].
  split; [intros l H; now apply buy_side_levels|].
  split; [intros l H; now apply sell_side_levels|].
  split.
  - unfold LiquidityAnalyzer.find_liquidity_levels.
    destruct (length candles <? LiquidityAnalyzer.min_candles_for_analysis)%nat
      eqn:L; cbn; [discriminate|].
    intros _. apply Nat.ltb_ge in L. exact L.
  - unfold LiquidityAnalyzer.find_liquidity_levels. intro H.
    assert (L : (length candles <? LiquidityAnalyzer.min_candles_for_analysis)%nat
                = false) by (apply Nat.ltb_ge; exact H).
    rewrite L. reflexivity.
Qed.

Section StrongestLevel.
Import LiquidityAnalyzer.

Lemma max_by_strength_head best l :
  (forall y, In y l -> ll_strength y <= ll_strength best) ->
  max_by_strength best l = best.
Proof.
  induction l as [|x r IH]; intro H; [reflexivity|].
  cbn [max_by_strength].
  assert (E : Qlt_bool (ll_strength best) (ll_strength x) = false).
  { apply Qlt_bool_false_iff. apply H. now left. }
  rewrite E. apply IH. intros y Hy. apply H. now right.
Qed.

Lemma strongest_of_sorted levels side :
  StronglySorted stronger_first levels ->
  _find_strongest_level levels side = option_map (relabel side) (hd_error levels).
Proof.
  intro H. destruct levels as [|x r]; [reflexivity|].
  cbn [_find_strongest_level hd_error option_map].
  inversion H as [|? ? _ Hall]; subst. rewrite Forall_forall in Hall.
  now rewrite (max_by_strength_head x r Hall).
Qed.

End StrongestLevel.

(** X6.  The strongest level [find_liquidity_levels] names on a side is
    the first level of that side's list, with its type replaced by the
    side; it is absent exactly when the list is empty, and no level of the
    list is stronger. *)
Theorem strongest_level_heads_its_side :
  forall candles : list Candle,
    strongest_buy (LiquidityAnalyzer.find_liquidity_levels candles)
    = option_map (relabel buy)
        (hd_error (buy_side_liquidity
                     (LiquidityAnalyzer.find_liquidity_levels candles)))
    /\
    strongest_sell (LiquidityAnalyzer.find_liquidity_levels candles)
    = option_map (relabel sell)
        (hd_error (sell_side_liquidity
                     (LiquidityAnalyzer.find_liquidity_levels candles)))
    /\
    (forall s l,
        strongest_buy (LiquidityAnalyzer.find_liquidity_levels candles) = Some s ->
        In l (buy_side_liquidity
                (LiquidityAnalyzer.find_liquidity_levels candles)) ->
        ll_strength l <= ll_strength s)
    /\
    (forall s l,
        strongest_sell (LiquidityAnalyzer.find_liquidity_levels candles) = Some s ->
        In l (sell_side_liquidity
                (LiquidityAnalyzer.find_liquidity_levels candles)) ->
        ll_strength l <= ll_strength s).
Proof.
  intro candles.
  destruct (liquidity_sides_sorted candles) as (A & B & _ & _).
  assert (Top : forall (levels : list LiquidityLevel) side s l,
             StronglySorted stronger_first levels ->
             option_map (relabel side) (hd_error levels) = Some s ->
             In l levels -> ll_strength l <= ll_strength s).
  { intros levels side s l HS Hs Hl. destruct levels as [|x r]; [destruct Hl|].
    cbn in Hs. inversion Hs; subst s. cbn [relabel ll_strength].
    destruct Hl as [<-|Hl]; [lra|].
    inversion HS as [|? ? _ Hall]; subst. rewrite Forall_forall in Hall.
    exact (Hall l Hl). }
  assert (Eb : strongest_buy (LiquidityAnalyzer.find_liquidity_levels candles)
               = option_map (relabel buy)
                   (hd_error (buy_side_liquidity
                                (LiquidityAnalyzer.find_liquidity_levels candles)))).
  { revert A. unfold LiquidityAnalyzer.find_liquidity_levels.
    destruct (length candles <? _)%nat; [reflexivity|].
    cbn [buy_side_liquidity strongest_buy]. apply strongest_of_sorted. }
  assert (Es : strongest_sell (LiquidityAnalyzer.find_liquidity_levels candles)
               = option_map (relabel sell)
                   (hd_error (sell_side_liquidity
                                (LiquidityAnalyzer.find_liquidity_levels candles)))).
  { revert B. unfold LiquidityAnalyzer.find_liquidity_levels.
    destruct (length candles <? _)%nat; [reflexivity|].
    cbn [sell_side_liquidity strongest_sell]. apply strongest_of_sorted. }
  split; [exact Eb|]. split; [exact Es|]. split.
  - intros s l Hs Hl. rewrite Eb in Hs. exact (Top _ buy s l A Hs Hl).
  - intros s l Hs Hl. rewrite Es in Hs. exact (Top _ sell s l B Hs Hl).
Qed.

Section NoSweep.
Import LiquidityAnalyzer LiquiditySweeps.

Lemma buy_sweeps_none levels price :
  (forall l, In l levels -> ll_price l <= price) ->
  buy_sweeps levels price = [].
Proof.
  induction levels as [|l r IH]; intro H; [reflexivity|].
  cbn [buy_sweeps].
  assert (E : Qlt_bool price (ll_price l) = false)
    by (apply Qlt_bool_false_iff, H; now left).
  rewrite E. apply IH. intros x Hx. apply H. now right.
Qed.

Lemma sell_sweeps_none levels price :
  (forall l, In l levels -> price <= ll_price l) ->
  sell_sweeps levels price = [].
Proof.
  induction levels as [|l r IH]; intro H; [reflexivity|].
  cbn [sell_sweeps].
  assert (E : Qlt_bool (ll_price l) price = false)
    by (apply Qlt_bool_false_iff, H; now left).
  rewrite E. apply IH. intros x Hx. apply H. now right.
Qed.

Lemma last_cons_default {A} (l : list A) (a d : A) :
  last (a :: l) d = last l a.
Proof.
  revert a d. induction l as [|x r IH]; intros a d; [reflexivity|].
  change (last (a :: x :: r) d) with (last (x :: r) d).
  now rewrite !IH.
Qed.

Lemma last_close_cons (c : Candle) rest :
  last_close (c :: rest) = close (last rest c).
Proof.
  unfold last_close. cbn [map]. rewrite last_cons_default.
  revert c. induction rest as [|d r IH]; intro c; [reflexivity|].
  cbn [map]. rewrite !last_cons_default. apply IH.
Qed.

End NoSweep.

(** X7.  A sweep check run on the series the levels were computed from
    never reports a sweep: every buy-side level is below the last close and
    every sell-side level above it, so no level is crossed. *)
Theorem no_sweep_on_the_analysed_series :
  forall candles : list Candle,
    LiquiditySweeps.check_liquidity_sweep candles
      (LiquidityAnalyzer.find_liquidity_levels candles)
    = mkSweep false [].
Proof.
  intro candles. unfold LiquiditySweeps.check_liquidity_sweep.
  destruct candles as [|c rest] eqn:Ec; [reflexivity|].
  destruct (negb (analysis_complete _)); [reflexivity|].
  cbv zeta. rewrite <- last_close_cons.
  rewrite buy_sweeps_none, sell_sweeps_none; [reflexivity| |].
  - intros l Hl. apply sell_side_levels in Hl. lra.
  - intros l Hl. apply buy_side_levels in Hl. lra.
Qed.

(** ** The EMA and the bias *)

Section Ema.
Import MarketBiasAnalyzer.

Lemma ema_step_between (k lo hi e p : Q) :
  0 <= k -> k <= 1 -> lo <= e -> e <= hi -> lo <= p -> p <= hi ->
  lo <= p * k + e * (1 - k) /\ p * k + e * (1 - k) <= hi.
Proof.
  intros K0 K1 E0 E1 P0 P1. split.
  - setoid_replace (p * k + e * (1 - k))
      with (lo + ((p - lo) * k + (e - lo) * (1 - k))) by ring.
    assert (0 <= (p - lo) * k) by (apply Qmult_le_0_compat; lra).
    assert (0 <= (e - lo) * (1 - k)) by (apply Qmult_le_0_compat; lra).
    lra.
  - setoid_replace (p * k + e * (1 - k))
      with (hi - ((hi - p) * k + (hi - e) * (1 - k))) by ring.
    assert (0 <= (hi - p) * k) by (apply Qmult_le_0_compat; lra).
    assert (0 <= (hi - e) * (1 - k)) by (apply Qmult_le_0_compat; lra).
    lra.
Qed.

Lemma product_bound (x y a b : Q) :
  - a <= x -> x <= a -> - b <= y -> y <= b ->
  - (a * b) <= x * y /\ x * y <= a * b.
Proof.
  intros X0 X1 Y0 Y1.
  assert (A : 0 <= (a - x) * (b - y)) by (apply Qmult_le_0_compat; lra).
  assert (B : 0 <= (a + x) * (b + y)) by (apply Qmult_le_0_compat; lra).
  assert (C : 0 <= (a - x) * (b + y)) by (apply Qmult_le_0_compat; lra).
  assert (D : 0 <= (a + x) * (b - y)) by (apply Qmult_le_0_compat; lra).
  setoid_replace ((a - x) * (b - y)) with (a * b - a * y - x * b + x * y)
    in A by ring.
  setoid_replace ((a + x) * (b + y)) with (a * b + a * y + x * b + x * y)
    in B by ring.
  setoid_replace ((a - x) * (b + y)) with (a * b + a * y - x * b - x * y)
    in C by ring.
  setoid_replace ((a + x) * (b - y)) with (a * b - a * y + x * b - x * y)
    in D by ring.
  split; lra.
Qed.

(** One turn of the loop on doubles: the four roundings move the exact
    combination by less than [ema_step_slack]. *)
Lemma ema_step_float (k lo hi e p d : Q) :
  0 <= k -> k <= 1 -> 0 <= lo -> hi <= 1000 ->
  lo <= p -> p <= hi -> 0 <= d -> d <= 1 ->
  lo - d <= e -> e <= hi + d ->
  lo - d - ema_step_slack
  <= f64_add (f64_mul p k) (f64_mul e (f64_sub 1 k)) /\
  f64_add (f64_mul p k) (f64_mul e (f64_sub 1 k))
  <= hi + d + ema_step_slack.
Proof.
  intros K0 K1 L0 H1 P0 P1 D0 D1 E0 E1.
  unfold f64_add, f64_mul, f64_sub, ema_step_slack.
  destruct (ema_step_between k (lo - d) (hi + d) e p K0 K1 E0 E1)
    as [X0 X1]; [lra | lra |].
  destruct (fl_unit (1 - k)) as [C0 C1]; [lra | lra |].
  destruct (fl_within (1 - k) 1) as [N0 N1]; [lra | lra |].
  set (c := fl (1 - k)) in *.
  destruct (product_bound p k 1000 1) as [A0 A1]; [lra | lra | lra | lra |].
  destruct (fl_within (p * k) (1000 * 1)) as [F0 F1]; [lra | lra |].
  set (a := fl (p * k)) in *.
  destruct (product_bound e c 1001 1) as [B0 B1]; [lra | lra | lra | lra |].
  destruct (fl_within (e * c) (1001 * 1)) as [G0 G1]; [lra | lra |].
  set (b := fl (e * c)) in *.
  unfold half_ulp in *.
  destruct (product_bound e (c - (1 - k)) 1001 (1 * (1 # 9007199254740992)))
    as [M0 M1]; [lra | lra | lra | lra |].
  setoid_replace (e * (c - (1 - k))) with (e * c - e * (1 - k)) in M0 by ring.
  setoid_replace (e * (c - (1 - k))) with (e * c - e * (1 - k)) in M1 by ring.
  destruct (fl_within (a + b) 2002) as [S0 S1]; [lra | lra |].
  unfold half_ulp in *.
  split; lra.
Qed.

Lemma ema_fold_float (k lo hi : Q) (rest : list Q) :
  0 <= k -> k <= 1 -> 0 <= lo -> hi <= 1000 ->
  forall (j : nat) (e : Q),
    (Z.of_nat (j + length rest) <= 1000000)%Z ->
    lo - inject_Z (Z.of_nat j) * ema_step_slack <= e ->
    e <= hi + inject_Z (Z.of_nat j) * ema_step_slack ->
    (forall p, In p rest -> lo <= p /\ p <= hi) ->
    lo - inject_Z (Z.of_nat (j + length rest)) * ema_step_slack
    <= fold_left
         (fun ema price =>
            f64_add (f64_mul price k) (f64_mul ema (f64_sub 1 k)))
         rest e /\
    fold_left
      (fun ema price => f64_add (f64_mul price k) (f64_mul ema (f64_sub 1 k)))
      rest e
    <= hi + inject_Z (Z.of_nat (j + length rest)) * ema_step_slack.
Proof.
  intros K0 K1 L0 H1.
  induction rest as [|p r IH]; intros j e Hj E0 E1 H.
  - cbn [fold_left length]. rewrite Nat.add_0_r. split; assumption.
  - cbn [fold_left length] in *.
    destruct (H p (or_introl eq_refl)) as [P0 P1].
    assert (J : inject_Z (Z.of_nat j) <= 1000000).
    { change 1000000 with (inject_Z 1000000). rewrite <- Zle_Qle. lia. }
    pose proof (inject_nat_nonneg j) as J0.
    pose proof (inject_nat_succ j) as JS.
    assert (D0 : 0 <= inject_Z (Z.of_nat j) * ema_step_slack)
      by (unfold ema_step_slack; lra).
    assert (D1 : inject_Z (Z.of_nat j) * ema_step_slack <= 1)
      by (unfold ema_step_slack; lra).
    destruct (ema_step_float k lo hi e p
                (inject_Z (Z.of_nat j) * ema_step_slack)
                K0 K1 L0 H1 P0 P1 D0 D1 E0 E1) as [S0 S1].
    replace (j + S (length r))%nat with (S j + length r)%nat by lia.
    apply IH.
    + lia.
    + rewrite JS. lra.
    + rewrite JS. lra.
    + intros x Hx. apply H. now right.
Qed.

Lemma multiplier_unit (period : nat) :
  (1 <= period)%nat ->
  0 <= f64_div 2 (inject_Z (Z.of_nat period + 1)) /\
  f64_div 2 (inject_Z (Z.of_nat period + 1)) <= 1.
Proof.
  intro H.
  assert (P : 2 <= inject_Z (Z.of_nat period + 1)).
  { change 2 with (inject_Z 2). rewrite <- Zle_Qle. lia. }
  apply fl_unit.
  - apply Qle_shift_div_l; lra.
  - apply Qle_shift_div_r; lra.
Qed.

Lemma last_in_range (l : list Q) (lo hi d : Q) :
  l <> [] -> (forall p, In p l -> lo <= p /\ p <= hi) ->
  lo <= last l d /\ last l d <= hi.
Proof.
  intros Hne H. apply H.
  destruct l as [|a r]; [contradiction|].
  clear. revert a. induction r as [|b r IH]; intro a; [now left|].
  change (last (a :: b :: r) d) with (last (b :: r) d). right. apply IH.
Qed.

Lemma ema_between prices period lo hi :
  (1 <= period)%nat -> prices <> [] ->
  (Z.of_nat (length prices) <= 1000000)%Z ->
  0 <= lo -> hi <= 1000 ->
  (forall p, In p prices -> lo <= p /\ p <= hi) ->
  lo - inject_Z (Z.of_nat (length prices)) * ema_step_slack
  <= calculate_ema prices period /\
  calculate_ema prices period
  <= hi + inject_Z (Z.of_nat (length prices)) * ema_step_slack.
Proof.
  intros Hp Hne Hlen L0 H1 H. unfold calculate_ema.
  pose proof (inject_nat_nonneg (length prices)) as N0.
  destruct (length prices <? period)%nat.
  - destruct (last_in_range prices lo hi 0 Hne H) as [A B].
    unfold ema_step_slack. split; lra.
  - destruct prices as [|p0 rest]; [contradiction|].
    destruct (multiplier_unit period Hp) as [K0 K1].
    destruct (H p0 (or_introl eq_refl)) as [P0 P1].
    cbn [length] in *.
    pose proof (inject_nat_succ (length rest)) as NS.
    pose proof (inject_nat_nonneg (length rest)) as R0.
    destruct (ema_fold_float _ lo hi rest K0 K1 L0 H1 0 p0) as [A B].
    + cbn [Nat.add]. lia.
    + change (inject_Z (Z.of_nat 0)) with 0. lra.
    + change (inject_Z (Z.of_nat 0)) with 0. lra.
    + intros x Hx. apply H. now right.
    + cbn [Nat.add] in A, B. rewrite NS. unfold ema_step_slack in *.
      split; lra.
Qed.

(** The slack is needed: on twenty closes at the double of [1.285] the
    loop ends one unit of the last place above them. *)
Lemma ema_can_leave_the_range :
  fl 1.285 < calculate_ema (repeat (fl 1.285) 20) 20.
Proof. vm_compute. reflexivity. Qed.

End Ema.

(** X8.  For a period of at least 1 and a non-empty list of at most a
    million prices between 0 and 1000, [calculate_ema] stays within the
    range of the prices up to the rounding of its loop: it is below the
    least or above the greatest of them by at most [10^-12] per price.  With
    fewer prices than the period it is the last price. *)
Theorem ema_stays_near_the_prices :
  forall (prices : list Q) (period : nat) (lo hi : Q),
    (1 <= period)%nat ->
    prices <> [] ->
    (Z.of_nat (length prices) <= 1000000)%Z ->
    0 <= lo -> hi <= 1000 ->
    (forall p, In p prices -> lo <= p /\ p <= hi) ->
    lo - inject_Z (Z.of_nat (length prices)) * ema_step_slack
    <= MarketBiasAnalyzer.calculate_ema prices period /\
    MarketBiasAnalyzer.calculate_ema prices period
    <= hi + inject_Z (Z.of_nat (length prices)) * ema_step_slack /\
    ((length prices < period)%nat ->
     MarketBiasAnalyzer.calculate_ema prices period = last prices 0).
Proof.
  intros prices period lo hi Hp Hne Hlen L0 H1 H.
  destruct (ema_between prices period lo hi Hp Hne Hlen L0 H1 H) as [A B].
  split; [exact A|]. split; [exact B|]. apply ema_short.
Qed.

(** The theorem on twenty closes, nineteen at [1.0] and the last at
    [1.5], with period 20. *)
Lemma ema_stays_near_the_prices_witness :
  1.0 - 20 * ema_step_slack
  <= MarketBiasAnalyzer.calculate_ema rising_closes 20 /\
  MarketBiasAnalyzer.calculate_ema rising_closes 20
  <= 1.5 + 20 * ema_step_slack.
Proof.
  destruct (ema_stays_near_the_prices rising_closes 20 1.0 1.5) as (A & B & _).
  - lia.
  - discriminate.
  - vm_compute. discriminate.
  - discriminate.
  - discriminate.
  - intros p Hp. vm_compute in Hp.
    repeat (destruct Hp as [<-|Hp]; [split; discriminate|]). destruct Hp.
  - split; assumption.
Defined.

(** X9.  The bias [determine_bias] reports agrees with the side of the EMA
    the last close is on.  With the difference of the last close and the
    EMA and the threshold [0.0005] taken as the doubles the code compares:
    bullish only if the difference is at least the threshold, and then the
    close is above the EMA; bearish only if it is at most the opposite of
    the threshold, and then the close is below the EMA; neutral only if it
    is closer than the threshold.  The confidence is always between 0 and
    1, and at least [0.25] for a bullish or bearish bias.  A series shorter
    than the EMA period of its timeframe is always neutral. *)
Theorem bias_follows_the_side_of_the_ema :
  forall (candles : list Candle) (timeframe : string),
    0 <= bd_confidence (MarketBiasAnalyzer.determine_bias candles timeframe) /\
    bd_confidence (MarketBiasAnalyzer.determine_bias candles timeframe) <= 1 /\
    (bd_bias (MarketBiasAnalyzer.determine_bias candles timeframe) = bias_bullish ->
     fl 0.0005 <= f64_sub (last_close candles) (ema_of candles timeframe) /\
     ema_of candles timeframe < last_close candles /\
     0.25 <= bd_confidence (MarketBiasAnalyzer.determine_bias candles timeframe)) /\
    (bd_bias (MarketBiasAnalyzer.determine_bias candles timeframe) = bias_bearish ->
     f64_sub (last_close candles) (ema_of candles timeframe) <= - fl 0.0005 /\
     last_close candles < ema_of candles timeframe /\
     0.25 <= bd_confidence (MarketBiasAnalyzer.determine_bias candles timeframe)) /\
    (bd_bias (MarketBiasAnalyzer.determine_bias candles timeframe) = bias_neutral ->
     Qabs (f64_sub (last_close candles) (ema_of candles timeframe)) < fl 0.0005) /\
    ((length candles < MarketBiasAnalyzer.ema_period_of timeframe)%nat ->
     bd_bias (MarketBiasAnalyzer.determine_bias candles timeframe) = bias_neutral).
Proof.
  intros candles timeframe.
  assert (Short := short_series_is_neutral candles timeframe).
  destruct (bias_confidence_unit candles timeframe) as [U0 U1].
  split; [exact U0|]. split; [exact U1|]. clear U0 U1.
  pose proof threshold_pos as T.
  destruct candles as [|c rest] eqn:Ec.
  - assert (E : ema_of [] timeframe = 0).
    { unfold ema_of, MarketBiasAnalyzer.calculate_ema. cbn [map length].
      now destruct (0 <? MarketBiasAnalyzer.ema_period_of timeframe)%nat. }
    cbn [MarketBiasAnalyzer.determine_bias bd_confidence bd_bias].
    split; [discriminate|]. split; [discriminate|]. split; [|exact Short].
    intros _. rewrite E. exact T.
  - rewrite <- Ec in *.
    assert (Hne : candles <> []) by (rewrite Ec; discriminate).
    pose proof (determine_bias_cases candles timeframe Hne) as H.
    cbv zeta in H. unfold f64_sub in *.
    set (x := last_close candles - ema_of candles timeframe) in *.
    assert (Side : x == last_close candles - ema_of candles timeframe)
      by reflexivity.
    clearbody x.
    revert Short.
    destruct H as [(D & -> & ->) | [(D & -> & ->) | (D & -> & ->)]];
      intro Short.
    + split; [discriminate|]. split; [discriminate|].
      split; [intros _; exact D | exact Short].
    + assert (A : fl 0.0005 <= Qabs (fl x)) by (rewrite Qabs_pos; lra).
      destruct (confidence_of_move (fl x) A) as [C0 C1].
      assert (X : 0 < x).
      { destruct (Qlt_le_dec 0 x) as [P|N]; [exact P|].
        pose proof (fl_nonpos x N). lra. }
      split; [intros _; repeat split; [exact D | lra | exact C0]|].
      split; [discriminate|]. split; [discriminate | exact Short].
    + assert (A : fl 0.0005 <= Qabs (fl x)) by (rewrite Qabs_neg; lra).
      destruct (confidence_of_move (fl x) A) as [C0 C1].
      assert (X : x < 0).
      { destruct (Qlt_le_dec x 0) as [P|N]; [exact P|].
        pose proof (fl_nonneg x N). lra. }
      split; [discriminate|].
      split; [intros _; repeat split; [exact D | lra | exact C0]|].
      split; [discriminate | exact Short].
Qed.

(** ** The engine *)

Section EngineGates.
Import FVGDetector SilverBullet SilverBulletEngine.

Lemma no_setups_under_neutral candles liq bias setups :
  get_silver_bullet_setups candles liq bias = Ok setups ->
  bd_bias bias = bias_neutral -> setups = [].
Proof.
  intros Hs Hn. destruct setups as [|s rest]; [reflexivity|]. exfalso.
  destruct (setups_from_detected _ _ _ _ s Hs (or_introl eq_refl))
    as (fa & _ & _ & _ & He).
  apply evaluate_some_aligned in He. rewrite Hn in He.
  destruct (fvg_type (su_fvg s)); discriminate.
Qed.

Lemma no_setups_without_liquidity candles liq bias setups :
  get_silver_bullet_setups candles liq bias = Ok setups ->
  analysis_complete liq = false -> setups = [].
Proof.
  intros Hs Hn. destruct setups as [|s rest]; [reflexivity|]. exfalso.
  destruct (setups_from_detected _ _ _ _ s Hs (or_introl eq_refl))
    as (fa & _ & _ & _ & He).
  unfold _evaluate_silver_bullet_setup in He.
  destruct (negb (aligned _)); [discriminate|].
  unfold _check_liquidity_proximity in He. rewrite Hn in He. discriminate.
Qed.

Lemma ema_period_at_least_20 timeframe : (20 <= MarketBiasAnalyzer.ema_period_of timeframe)%nat.
Proof.
  unfold MarketBiasAnalyzer.ema_period_of.
  repeat match goal with |- context [if ?b then _ else _] => destruct b end; lia.
Qed.

Lemma analyze_inv quality risk rr candles timeframe a :
  analyze_market_setup quality risk rr candles timeframe = Ok a ->
  exists fa c,
    detect_fvgs candles = Ok fa /\
    last_candle candles = Ok c /\
    an_bias a = MarketBiasAnalyzer.determine_bias candles timeframe /\
    an_liquidity a = LiquidityAnalyzer.find_liquidity_levels candles /\
    an_fvgs a = fa /\
    get_silver_bullet_setups candles (an_liquidity a) (an_bias a)
    = Ok (an_all_setups a) /\
    suggestions_of quality risk rr (an_all_setups a) (close c)
    = Ok (an_high_quality_setups a, trade_suggestions a).
Proof.
  unfold analyze_market_setup.
  destruct (detect_fvgs candles) as [fa|]; cbn [bind]; [|discriminate].
  destruct (get_silver_bullet_setups _ _ _) as [setups|] eqn:Hs;
    cbn [bind]; [|discriminate].
  destruct (last_candle candles) as [c|]; cbn [bind]; [|discriminate].
  destruct (suggestions_of _ _ _ _ _) as [[hq sugg]|] eqn:Hg;
    cbn [bind]; [|discriminate].
  intro H. inversion H; subst a. cbn. exists fa, c. repeat split; assumption.
Qed.

End EngineGates.

(** X10.  [analyze_market_setup] finds no setup, and so makes no trade
    suggestion, on any series shorter than the EMA period of its timeframe
    (200 candles for H1 and for any timeframe without an entry, 50 for H4,
    20 for D1): the bias of such a series is neutral, and a neutral bias
    accepts no gap.  That holds for every choice of the strategy
    parameters. *)
Theorem short_series_yield_no_setup :
  forall quality risk rr candles timeframe a,
    SilverBulletEngine.analyze_market_setup quality risk rr candles timeframe
    = Ok a ->
    (length candles < MarketBiasAnalyzer.ema_period_of timeframe)%nat ->
    bd_bias (an_bias a) = bias_neutral /\
    an_all_setups a = [] /\
    an_high_quality_setups a = [] /\
    trade_suggestions a = [].
Proof.
  intros quality risk rr candles timeframe a Ha Hlen.
  destruct (analyze_inv _ _ _ _ _ _ Ha)
    as (fa & c & _ & _ & Hb & _ & _ & Hs & Hg).
  assert (Hn : bd_bias (an_bias a) = bias_neutral)
    by (rewrite Hb; now apply short_series_is_neutral).
  pose proof (no_setups_under_neutral _ _ _ _ Hs Hn) as E.
  rewrite E in Hg. cbn in Hg. inversion Hg. repeat split; auto.
Qed.

(** The theorem on the ten candles of [crafted_series] as hourly
    candles. *)
Lemma short_series_yield_no_setup_witness :
  SilverBulletEngine.analyze crafted_series "H1" = Ok crafted_analysis /\
  an_all_setups crafted_analysis = [] /\
  trade_suggestions crafted_analysis = [].
Proof.
  assert (Ha : SilverBulletEngine.analyze crafted_series "H1"
               = Ok crafted_analysis) by (vm_compute; reflexivity).
  split; [exact Ha|].
  destruct (short_series_yield_no_setup _ _ _ _ _ _ Ha) as (_ & A & _ & B).
  - vm_compute. lia.
  - split; assumption.
Defined.

Section EngineTotal.
Import FVGDetector SilverBullet SilverBulletEngine.

Lemma half_unit_5 : (1 # 2) / pow10 5 == 0.000005.
Proof. reflexivity. Qed.

(** The rounded entry and stop of a detected gap stay apart. *)
Lemma window_risk candles i f :
  _analyze_single_fvg candles i = Ok (Some f) ->
  0.00009 <= Qabs (entry (target_levels f) - stop_loss (target_levels f)).
Proof.
  intro H.
  destruct (analyze_single_inv _ _ _ H)
    as (_ & _ & c1 & c2 & c3 & gd & t & _ & _ & _ & Hgd & Ht & ->).
  cbn [target_levels record_of].
  destruct Hgd as [(-> & Hsz & _) | (-> & Hsz & _)];
    unfold min_gap_size in Hsz.
  - destruct (targets_bullish (high c3) (low c1)) as (t' & Ht' & _ & _ & E & S);
      [lra|].
    change (gd_type (bullish_gap c1 c3)) with bullish in Ht.
    unfold bullish_gap in Ht. rewrite Ht' in Ht. inversion Ht; subst t'.
    rewrite E, S.
    destruct (round_nd_near (low c1) 5) as [A1 A2].
    destruct (round_nd_near (low c1 - (low c1 - high c3) * 0.5) 5) as [B1 B2].
    rewrite half_unit_5 in *.
    rewrite Qabs_pos; lra.
  - destruct (targets_bearish (low c3) (high c1)) as (t' & Ht' & _ & _ & E & S);
      [lra|].
    change (gd_type (bearish_gap c1 c3)) with bearish in Ht.
    unfold bearish_gap in Ht. rewrite Ht' in Ht. inversion Ht; subst t'.
    rewrite E, S.
    destruct (round_nd_near (low c3) 5) as [A1 A2].
    destruct (round_nd_near (low c3 + (low c3 - high c1) * 0.5) 5) as [B1 B2].
    rewrite half_unit_5 in *.
    rewrite Qabs_neg; lra.
Qed.

Lemma position_size_ok risk risk_amount price :
  0 < risk_amount ->
  exists ps, _calculate_position_size risk risk_amount price = Ok ps.
Proof.
  intro H. unfold _calculate_position_size.
  rewrite fdiv_ok; [cbn [bind]; now eexists|].
  intro E. apply Qmult_integral in E. destruct E as [E|E]; [lra|].
  revert E. discriminate.
Qed.

Lemma suggestions_total risk rr setups price :
  (forall s, In s setups ->
             0 < Qabs (entry (target_levels (su_fvg s))
                       - stop_loss (target_levels (su_fvg s)))) ->
  exists sugg, _generate_trade_suggestions risk rr setups price = Ok sugg.
Proof.
  induction setups as [|s rest IH]; intro H; cbn [_generate_trade_suggestions];
    [now eexists|].
  destruct (position_size_ok risk _ price (H s (or_introl eq_refl))) as (ps & ->).
  destruct IH as (more & ->); [intros x Hx; apply H; now right|].
  cbn [bind]. destruct (_ || _); now eexists.
Qed.

Lemma analyze_total quality risk rr candles timeframe :
  candles <> [] ->
  exists a, analyze_market_setup quality risk rr candles timeframe = Ok a.
Proof.
  intro Hne. unfold analyze_market_setup.
  destruct (detect_fvgs_total candles) as (fa & Hd). rewrite Hd. cbn [bind].
  destruct (get_silver_bullet_setups candles _ _) as [setups|] eqn:Hs.
  2:{ unfold get_silver_bullet_setups in Hs. rewrite Hd in Hs. cbn [bind] in Hs.
      destruct (negb _); discriminate. }
  cbn [bind]. destruct candles as [|c rest]; [contradiction|].
  cbn [last_candle bind]. unfold suggestions_of.
  destruct (suggestions_total risk rr
              (filter (fun setup => Qle_bool quality (su_quality_score setup))
                 setups) (close (last rest c))) as (sugg & ->).
  - intros s Hin. apply filter_In in Hin. destruct Hin as [Hin _].
    destruct (setups_from_detected _ _ _ _ _ Hs Hin) as (fa' & Hd' & Hf & _).
    pose proof (window_risk _ _ _ (detect_fvgs_In _ _ _ Hd' Hf)). lra.
  - cbn [bind]. now eexists.
Qed.

End EngineTotal.

(** X11.  Once it holds its series of candles, [analyze_market_setup]
    succeeds whenever that series is not empty, whatever the strategy
    parameters: the rounded entry and stop of a detected gap are at least
    [0.00009] apart, so the position size is never a division by zero.  On
    an empty series (a lookback of 0) it fails, reading [candles[-1]]. *)
Theorem analysis_succeeds_on_every_series :
  forall quality risk rr (candles : list Candle) (timeframe : string),
    ((exists a,
         SilverBulletEngine.analyze_market_setup quality risk rr candles
           timeframe = Ok a)
     <-> candles <> [])
    /\
    (forall fa f,
        FVGDetector.detect_fvgs candles = Ok fa ->
        In f (FVGDetector.fvgs fa) ->
        0.00009 <= Qabs (entry (target_levels f) - stop_loss (target_levels f))).
Proof.
  intros quality risk rr candles timeframe. split; [split|].
  - intros (a & Ha) ->. vm_compute in Ha. discriminate.
  - apply analyze_total.
  - intros fa f Hd Hin. eapply window_risk. eapply detect_fvgs_In; eassumption.
Qed.


(** ** The gap detector: targets and confidence *)

Section Targets.
Import FVGDetector.

Lemma targets_prices gd ty t :
  _calculate_fvg_targets gd ty = Ok t ->
  match ty with
  | bullish =>
      entry t = round_nd (gd_gap_bottom gd) 5 /\
      stop_loss t = round_nd (gd_gap_bottom gd - gd_gap_size gd * 0.5) 5 /\
      take_profit_1 t = round_nd (gd_gap_top gd) 5 /\
      take_profit_2 t = round_nd (gd_gap_top gd + gd_gap_size gd * 1) 5
  | bearish =>
      entry t = round_nd (gd_gap_top gd) 5 /\
      stop_loss t = round_nd (gd_gap_top gd + gd_gap_size gd * 0.5) 5 /\
      take_profit_1 t = round_nd (gd_gap_bottom gd) 5 /\
      take_profit_2 t = round_nd (gd_gap_bottom gd - gd_gap_size gd * 1) 5
  end.
Proof.
  unfold _calculate_fvg_targets. destruct ty.
  - destruct (fdiv _ _) as [r1|]; cbn [bind]; [|discriminate].
    destruct (fdiv _ _) as [r2|]; cbn [bind]; [|discriminate].
    intro H. inversion H. cbn. repeat split.
  - destruct (fdiv _ _) as [r1|]; cbn [bind]; [|discriminate].
    destruct (fdiv _ _) as [r2|]; cbn [bind]; [|discriminate].
    intro H. inversion H. cbn. repeat split.
Qed.

Lemma true_ranges_nonneg prev cs x : In x (true_ranges prev cs) -> 0 <= x.
Proof.
  revert prev. induction cs as [|c rest IH]; intros prev; cbn [true_ranges];
    [intros []|].
  intros [<-|H]; [|now apply (IH c)].
  unfold fmax at 1.
  destruct (Qlt_bool _ _) eqn:E; [apply Qabs_nonneg|].
  apply Qlt_bool_false_iff in E.
  eapply Qle_trans; [apply (Qabs_nonneg (low c - close prev)) | exact E].
Qed.

Lemma Qsum_nonneg (l : list Q) : (forall x, In x l -> 0 <= x) -> 0 <= Qsum l.
Proof.
  induction l as [|x r IH]; intro H; cbn [Qsum]; [apply Qle_refl|].
  assert (0 <= x) by (apply H; now left).
  assert (0 <= Qsum r) by (apply IH; intros y Hy; apply H; now right).
  lra.
Qed.

Lemma mean_nonneg (l : list Q) : (forall x, In x l -> 0 <= x) -> 0 <= _mean l.
Proof.
  intro H. unfold _mean. destruct l as [|x r]; [apply Qle_refl|].
  apply Qle_shift_div_l.
  - change 0 with (inject_Z 0). rewrite <- Zlt_Qlt. cbn [length]. lia.
  - rewrite Qmult_0_l. now apply Qsum_nonneg.
Qed.

Lemma volatility_nonneg candles index :
  0 <= _calculate_recent_volatility candles index.
Proof.
  unfold _calculate_recent_volatility.
  destruct (_ <? 5)%nat; [discriminate|].
  destruct (slice candles _ index) as [|c0 rest]; [discriminate|].
  destruct (true_ranges c0 rest) as [|x r] eqn:E; [discriminate|].
  apply mean_nonneg. intros y Hy. apply (true_ranges_nonneg c0 rest).
  now rewrite E.
Qed.

Lemma fvg_confidence_bounds gd candles index :
  0.0002 <= gd_gap_size gd ->
  0.12 <= _calculate_fvg_confidence gd candles index /\
  _calculate_fvg_confidence gd candles index <= 1.
Proof.
  intro Hsz. unfold _calculate_fvg_confidence.
  pose proof (volatility_nonneg candles index) as V.
  set (vol := _calculate_recent_volatility candles index) in *.
  assert (S1 : 0.2 <= fmin (gd_gap_size gd / 0.001) 1).
  { apply fmin_glb; [|lra]. apply Qle_shift_div_l; [reflexivity|]. lra. }
  assert (V1 : 0 <= fmin (vol / 0.002) 1).
  { apply fmin_glb; [|lra]. apply Qle_shift_div_l; [reflexivity|]. lra. }
  set (sc := fmin (gd_gap_size gd / 0.001) 1) in *.
  set (vf := fmin (vol / 0.002) 1) in *.
  assert (A : 0.12 <= fmin (sc * 0.6 + vf * 0.4) 1)
    by (apply fmin_glb; lra).
  split.
  - assert (E : round_nd 0.12 2 == 0.12) by reflexivity.
    rewrite <- E. now apply round_nd_mono.
  - apply round_nd_unit; [lra | apply fmin_le_r].
Qed.

(** What a window reports: the ladder of its targets, its rounded size and
    its confidence. *)
Lemma window_targets candles i f :
  _analyze_single_fvg candles i = Ok (Some f) ->
  price_ladder f /\
  0.0002 <= gap_size f /\
  0.12 <= confidence f /\ confidence f <= 1.
Proof.
  intro H.
  destruct (analyze_single_inv _ _ _ H)
    as (_ & _ & c1 & c2 & c3 & gd & t & _ & _ & _ & Hgd & Ht & ->).
  unfold price_ladder. cbn [target_levels record_of fvg_type gap_size confidence].
  assert (Hsz : 0.0002 <= gd_gap_size gd).
  { destruct Hgd as [(-> & Hsz & _) | (-> & Hsz & _)]; exact Hsz. }
  split; [|split; [|apply fvg_confidence_bounds; exact Hsz]].
  - apply targets_prices in Ht.
    destruct Hgd as [(-> & _ & _) | (-> & _ & _)];
      cbn [gd_type bullish_gap bearish_gap gd_gap_top gd_gap_bottom gd_gap_size] in *;
      destruct Ht as (-> & -> & -> & ->).
    + destruct (round_nd_near (high c3) 5) as [A1 A2].
      destruct (round_nd_near (low c1 - (low c1 - high c3) * 0.5) 5) as [B1 B2].
      destruct (round_nd_near (low c1) 5) as [C1 C2].
      rewrite half_unit_5 in *.
      split; [lra|]. split; [lra|].
      apply round_nd_comp. ring.
    + destruct (round_nd_near (high c1 - (low c3 - high c1) * 1) 5) as [A1 A2].
      destruct (round_nd_near (high c1) 5) as [B1 B2].
      destruct (round_nd_near (low c3) 5) as [C1 C2].
      destruct (round_nd_near (low c3 + (low c3 - high c1) * 0.5) 5) as [D1 D2].
      rewrite half_unit_5 in *.
      split; [lra|]. split; lra.
  - assert (E : round_nd 0.0002 5 == 0.0002) by reflexivity.
    rewrite <- E. now apply round_nd_mono.
Qed.

End Targets.

(** X12.  Every record of [detect_fvgs] carries targets ordered by its
    type.  For a bearish record [take_profit_2 < take_profit_1 < entry <
    stop_loss].  For a bullish record the first target lies beyond the stop,
    [take_profit_1 < stop_loss < entry], and the second target is the entry
    itself.  The rounded [gap_size] is at least [0.0002] and the confidence
    lies between [0.12] and [1]. *)
Theorem reported_targets_are_ordered_by_type :
  forall candles fa f,
    FVGDetector.detect_fvgs candles = Ok fa ->
    In f (FVGDetector.fvgs fa) ->
    price_ladder f /\
    0.0002 <= gap_size f /\
    0.12 <= confidence f /\ confidence f <= 1.
Proof.
  intros candles fa f Hd Hin.
  eapply window_targets. eapply detect_fvgs_In; eassumption.
Qed.

(** The theorem at the bullish gap of [gap_then_fill]. *)
Lemma reported_targets_are_ordered_by_type_witness :
  fvg_type gap_then_fill_first = bullish /\
  take_profit_1 (target_levels gap_then_fill_first)
  < stop_loss (target_levels gap_then_fill_first) /\
  take_profit_2 (target_levels gap_then_fill_first)
  = entry (target_levels gap_then_fill_first).
Proof.
  split; [reflexivity|].
  destruct (reported_targets_are_ordered_by_type gap_then_fill
              gap_then_fill_fvgs gap_then_fill_first) as (L & _).
  - vm_compute. reflexivity.
  - left. reflexivity.
  - destruct L as (A & _ & B). split; [exact A | exact B].
Defined.


(** ** The engine: setups and suggestions *)

Section Suggestions.
Import FVGDetector LiquidityAnalyzer MarketBiasAnalyzer SilverBullet
       SilverBulletEngine.

Lemma strongest_strength_unit candles l :
  strongest_buy (find_liquidity_levels candles) = Some l \/
  strongest_sell (find_liquidity_levels candles) = Some l ->
  0 <= ll_strength l /\ ll_strength l <= 1.
Proof.
  destruct (liquidity_sides_sorted candles) as (A & B & _ & _).
  pose proof (buy_side_levels candles) as Hb.
  pose proof (sell_side_levels candles) as Hs.
  revert A B Hb Hs. unfold find_liquidity_levels.
  destruct (length candles <? min_candles_for_analysis)%nat;
    [intros _ _ _ _ [H|H]; discriminate|].
  cbn [buy_side_liquidity sell_side_liquidity strongest_buy strongest_sell].
  intros A B Hb Hs [H|H].
  - rewrite (strongest_of_sorted _ buy A) in H.
    destruct (_identify_buy_side_liquidity _ _) as [|x r]; [discriminate|].
    cbn in H. inversion H; subst l. cbn [relabel ll_strength].
    destruct (Hb x (or_introl eq_refl)) as (_ & L & U & _). split; assumption.
  - rewrite (strongest_of_sorted _ sell B) in H.
    destruct (_identify_sell_side_liquidity _ _) as [|x r]; [discriminate|].
    cbn in H. inversion H; subst l. cbn [relabel ll_strength].
    destruct (Hs x (or_introl eq_refl)) as (_ & L & U & _). split; assumption.
Qed.

Lemma setup_quality_unit fvg candles timeframe :
  0 <= confidence fvg -> confidence fvg <= 1 -> 0 <= gap_size fvg ->
  0 <= _calculate_setup_quality fvg (find_liquidity_levels candles)
         (determine_bias candles timeframe) /\
  _calculate_setup_quality fvg (find_liquidity_levels candles)
    (determine_bias candles timeframe) <= 1.
Proof.
  intros C0 C1 G0. unfold _calculate_setup_quality.
  destruct (bias_confidence_unit candles timeframe) as [B0 B1].
  set (bc := bd_confidence (determine_bias candles timeframe)) in *.
  assert (F0 : 0 <= fmin (gap_size fvg / 0.001) 1).
  { apply fmin_glb; [|lra]. apply Qle_shift_div_l; [reflexivity|]. lra. }
  pose proof (fmin_le_r (gap_size fvg / 0.001) 1) as F1.
  set (gf := fmin (gap_size fvg / 0.001) 1) in *.
  pose proof (strongest_strength_unit candles) as S.
  set (liq := find_liquidity_levels candles) in *.
  assert (L : forall st,
             st = (if analysis_complete liq then
                     match fvg_type fvg, strongest_buy liq, strongest_sell liq with
                     | bullish, Some l, _ => ll_strength l
                     | bearish, _, Some l => ll_strength l
                     | _, _, _ => 0.5
                     end
                   else 0.5) -> 0 <= st /\ st <= 1).
  { intros st ->. destruct (analysis_complete liq); [|split; lra].
    destruct (fvg_type fvg).
    - destruct (strongest_buy liq) as [l|] eqn:E; [|split; lra].
      apply S. now left.
    - destruct (strongest_sell liq) as [l|] eqn:E;
        [|destruct (strongest_buy liq); split; lra].
      assert (0 <= ll_strength l /\ ll_strength l <= 1) by (apply S; now right).
      destruct (strongest_buy liq); assumption. }
  specialize (L _ eq_refl).
  set (st := if analysis_complete liq then _ else _) in *.
  destruct L as [L0 L1].
  cbn [Qsum]. apply round_nd_unit; lra.
Qed.

Lemma evaluate_inv fvg liq bias s :
  _evaluate_silver_bullet_setup fvg liq bias = Some s ->
  su_fvg s = fvg /\
  su_quality_score s = _calculate_setup_quality fvg liq bias /\
  su_confidence s = su_quality_score s.
Proof.
  unfold _evaluate_silver_bullet_setup.
  destruct (negb _); [discriminate|]. destruct (negb _); [discriminate|].
  intro H. inversion H. cbn. repeat split.
Qed.

Lemma suggestions_In risk rr setups price sugg x :
  _generate_trade_suggestions risk rr setups price = Ok sugg -> In x sugg ->
  exists s ps,
    In s setups /\
    _calculate_position_size risk
      (Qabs (entry (target_levels (su_fvg s))
             - stop_loss (target_levels (su_fvg s)))) price = Ok ps /\
    (rr <= risk_reward_1 (target_levels (su_fvg s)) \/
     rr <= risk_reward_2 (target_levels (su_fvg s))) /\
    x = suggestion_from s ps.
Proof.
  revert sugg. induction setups as [|s rest IH]; intro sugg;
    cbn [_generate_trade_suggestions].
  - intro H. inversion H. intros [].
  - destruct (_calculate_position_size _ _ _) as [ps|] eqn:Ep; cbn [bind];
      [|discriminate].
    destruct (_generate_trade_suggestions risk rr rest price) as [more|];
      cbn [bind]; [|discriminate].
    assert (Lift : In x more ->
              exists s0 ps0,
                In s0 (s :: rest) /\
                _calculate_position_size risk
                  (Qabs (entry (target_levels (su_fvg s0))
                         - stop_loss (target_levels (su_fvg s0)))) price
                = Ok ps0 /\
                (rr <= risk_reward_1 (target_levels (su_fvg s0)) \/
                 rr <= risk_reward_2 (target_levels (su_fvg s0))) /\
                x = suggestion_from s0 ps0).
    { intro Hx. destruct (IH more eq_refl Hx) as (s0 & ps0 & H0 & H1).
      exists s0, ps0. split; [now right | exact H1]. }
    destruct (_ || _) eqn:G; intro H; inversion H; subst sugg.
    + intros [<-|Hx]; [|now apply Lift].
      exists s, ps. split; [now left|]. split; [exact Ep|].
      split; [|reflexivity].
      apply orb_true_iff in G. destruct G as [G|G]; apply Qle_bool_iff in G;
        [now left | now right].
    + exact Lift.
Qed.

Lemma suggestions_length risk rr setups price sugg :
  _generate_trade_suggestions risk rr setups price = Ok sugg ->
  (length sugg <= length setups)%nat.
Proof.
  revert sugg. induction setups as [|s rest IH]; intro sugg;
    cbn [_generate_trade_suggestions].
  - intro H. inversion H. cbn. lia.
  - destruct (_calculate_position_size _ _ _) as [ps|]; cbn [bind];
      [|discriminate].
    destruct (_generate_trade_suggestions risk rr rest price) as [more|];
      cbn [bind]; [|discriminate].
    specialize (IH more eq_refl).
    destruct (_ || _); intro H; inversion H; subst sugg; cbn [length]; lia.
Qed.

Lemma int_of_bounds (x : Q) (n : Z) :
  0 <= x -> x < inject_Z (n + 1) -> (0 <= int_of x <= n)%Z.
Proof.
  intros H0 H1. unfold int_of.
  assert (N : (0 <= Qnum x)%Z).
  { unfold Qle in H0. cbn in H0. lia. }
  rewrite Z.quot_div_nonneg by lia.
  assert (E : (Qnum x / Z.pos (Qden x))%Z = Qfloor x) by now destruct x.
  rewrite E.
  split.
  - change 0%Z with (Qfloor 0). now apply Qfloor_resp_le.
  - assert (inject_Z (Qfloor x) < inject_Z (n + 1)).
    { eapply Qle_lt_trans; [apply Qfloor_le | exact H1]. }
    rewrite <- Zlt_Qlt in H. lia.
Qed.

(** The position size of the default engine for a risk of at least
    [0.00009]. *)
Lemma default_position risk_amt price ps :
  0.00009 <= risk_amt ->
  _calculate_position_size default_max_risk_per_trade risk_amt price = Ok ps ->
  (0 <= units ps <= 222)%Z /\ risk_amount ps == 200 /\ risk_percentage ps == 2.
Proof.
  intros Hr. unfold _calculate_position_size.
  assert (Hne : ~ risk_amt / 0.0001 == 0).
  { intro E. assert (risk_amt / 0.0001 == risk_amt * 10000) by (field).
    lra. }
  rewrite fdiv_ok by exact Hne. cbn [bind]. intro H. inversion H.
  cbn [units risk_amount risk_percentage]. unfold default_max_risk_per_trade.
  split; [|split; reflexivity].
  assert (P : 0 < risk_amt / 0.0001).
  { apply Qlt_shift_div_l; [reflexivity|]. lra. }
  apply int_of_bounds.
  - apply Qle_shift_div_l; [exact P|]. rewrite Qmult_0_l. discriminate.
  - apply Qlt_shift_div_r; [exact P|].
    assert (E : risk_amt / 0.0001 == risk_amt * 10000) by field.
    rewrite E.
    setoid_replace (inject_Z (222 + 1)) with 223 by reflexivity.
    lra.
Qed.

End Suggestions.


(** X13.  What the engine with its default parameters returns.  Every
    setup comes from an active gap of the series, and its quality score,
    which is also its confidence, lies between [0] and [1]; the high-quality
    setups are exactly the setups scoring at least [0.7].  Every trade
    suggestion is a sell ladder, [take_profit_2 < take_profit_1 <
    entry_price < stop_loss], with ratios [2] and [4], a quality of at least
    [0.7], a position of at most 222 units risking [200], and the labels
    [EUR/USD] and [H1] whatever the timeframe asked for; and a suggestion is
    made only under a bearish bias. *)
Theorem default_engine_suggests_sell_ladders :
  forall candles timeframe a,
    SilverBulletEngine.analyze candles timeframe = Ok a ->
    (forall s, In s (an_all_setups a) ->
       In (su_fvg s) (FVGDetector.fvgs (an_fvgs a)) /\
       status (su_fvg s) = active /\
       0 <= su_quality_score s /\ su_quality_score s <= 1 /\
       su_confidence s = su_quality_score s) /\
    (forall s, In s (an_high_quality_setups a) <->
               In s (an_all_setups a) /\ 0.7 <= su_quality_score s) /\
    (length (trade_suggestions a) <= length (an_high_quality_setups a))%nat /\
    (forall x, In x (trade_suggestions a) ->
       ts_take_profit_2 x < ts_take_profit_1 x /\
       ts_take_profit_1 x < ts_entry_price x /\
       ts_entry_price x < ts_stop_loss x /\
       ts_risk_reward_1 x == 2 /\ ts_risk_reward_2 x == 4 /\
       0.7 <= ts_setup_quality x /\ ts_setup_quality x <= 1 /\
       ts_confidence x = ts_setup_quality x /\
       (0 <= units (ts_position_size x) <= 222)%Z /\
       risk_amount (ts_position_size x) == 200 /\
       ts_symbol x = "EUR/USD"%string /\ ts_timeframe x = "H1"%string /\
       bd_bias (an_bias a) = bias_bearish).
Proof.
  intros candles timeframe a Ha. unfold SilverBulletEngine.analyze in Ha.
  destruct (analyze_inv _ _ _ _ _ _ Ha)
    as (fa & c & Hd & _ & Hb & Hl & Hf & Hs & Hg).
  assert (Facts : forall s, In s (an_all_setups a) ->
            In (su_fvg s) (FVGDetector.fvgs (an_fvgs a)) /\
            status (su_fvg s) = active /\
            0 <= su_quality_score s /\ su_quality_score s <= 1 /\
            su_confidence s = su_quality_score s /\
            bias_of_type (fvg_type (su_fvg s)) = bd_bias (an_bias a) /\
            price_ladder (su_fvg s) /\ rr_by_type (su_fvg s) /\
            0.00009 <= Qabs (entry (target_levels (su_fvg s))
                             - stop_loss (target_levels (su_fvg s)))).
  { intros s Hin.
    destruct (setups_from_detected _ _ _ _ _ Hs Hin) as (fa' & Hd' & Hin' & Hst & He).
    rewrite Hd in Hd'. inversion Hd'; subst fa'. rewrite Hf.
    pose proof (detect_fvgs_In _ _ _ Hd Hin') as Hw.
    destruct (window_targets _ _ _ Hw) as (Lad & G & C0 & C1).
    destruct (evaluate_inv _ _ _ _ He) as (_ & Eq & Ec).
    split; [exact Hin'|]. split; [exact Hst|].
    rewrite Eq, Hl, Hb.
    destruct (setup_quality_unit (su_fvg s) candles timeframe) as [Q0 Q1];
      [lra | lra | lra |].
    split; [exact Q0|]. split; [exact Q1|].
    split; [rewrite Ec, Eq, Hl, Hb; reflexivity|].
    split; [rewrite <- Hb; exact (evaluate_some_aligned _ _ _ _ He)|].
    split; [exact Lad|]. split; [exact (window_rr _ _ _ Hw)|].
    exact (window_risk _ _ _ Hw). }
  unfold SilverBulletEngine.suggestions_of in Hg.
  destruct (SilverBulletEngine._generate_trade_suggestions _ _ _ _)
    as [sugg|] eqn:Eg; cbn [bind] in Hg; [|discriminate].
  injection Hg as Ehq Esg.
  assert (HQ : forall s, In s (an_high_quality_setups a) <->
                         In s (an_all_setups a) /\ 0.7 <= su_quality_score s).
  { intro s. rewrite <- Ehq. rewrite filter_In.
    unfold SilverBulletEngine.default_min_setup_quality.
    split; intros [A B]; (split; [exact A|]); apply Qle_bool_iff; exact B. }
  split; [|split; [exact HQ|split]].
  - intros s Hin. destruct (Facts s Hin) as (A & B & C & D & E & _).
    repeat split; assumption.
  - rewrite Ehq in Eg. rewrite <- Esg.
    exact (suggestions_length _ _ _ _ _ Eg).
  - intros x Hx. rewrite <- Esg in Hx. rewrite Ehq in Eg.
    destruct (suggestions_In _ _ _ _ _ _ Eg Hx) as (s & ps & Hin & Hp & Gate & ->).
    apply HQ in Hin. destruct Hin as [Hin Hq].
    destruct (Facts s Hin) as (_ & _ & Q0 & Q1 & Ec & Al & Lad & RR & Risk).
    unfold suggestion_from. cbv zeta.
    cbn [ts_take_profit_2 ts_take_profit_1 ts_entry_price ts_stop_loss
         ts_risk_reward_1 ts_risk_reward_2 ts_setup_quality ts_confidence
         ts_position_size ts_symbol ts_timeframe].
    unfold price_ladder, rr_by_type in *.
    unfold SilverBulletEngine.default_min_risk_reward in Gate.
    destruct (fvg_type (su_fvg s)).
    + exfalso. destruct RR as (_ & R1 & R2). destruct Gate as [G|G]; lra.
    + destruct Lad as (L1 & L2 & L3). destruct RR as (_ & R1 & R2).
      destruct (default_position _ _ _ Risk Hp) as (U & RA & _).
      repeat (split; [first [assumption | reflexivity | lia]|]).
      symmetry. exact Al.
Qed.

(** The theorem on [bearish_series] read as daily candles: the one
    suggestion of [bearish_analysis]. *)
Lemma default_engine_suggests_sell_ladders_witness :
  SilverBulletEngine.analyze bearish_series "D1" = Ok bearish_analysis /\
  In bearish_suggestion (trade_suggestions bearish_analysis) /\
  ts_take_profit_1 bearish_suggestion < ts_entry_price bearish_suggestion /\
  ts_entry_price bearish_suggestion < ts_stop_loss bearish_suggestion.
Proof.
  assert (Ha : SilverBulletEngine.analyze bearish_series "D1"
               = Ok bearish_analysis) by (vm_compute; reflexivity).
  assert (Hx : In bearish_suggestion (trade_suggestions bearish_analysis))
    by (left; reflexivity).
  split; [exact Ha|]. split; [exact Hx|].
  destruct (default_engine_suggests_sell_ladders _ _ _ Ha) as (_ & _ & _ & S).
  destruct (S _ Hx) as (_ & A & B & _). split; [exact A | exact B].
Defined.


(** ** The signal lifecycle: exits *)

Section ExitReasons.
Import LiveSignalGenerator.

Ltac exit_facts :=
  repeat match goal with
         | H : Qlt_bool _ _ = true |- _ => apply Qlt_bool_iff in H
         | H : Qlt_bool _ _ = false |- _ => apply Qlt_bool_false_iff in H
         | H : Qle_bool _ _ = true |- _ => apply Qle_bool_iff in H
         | H : Qle_bool _ _ = false |- _ => apply Qle_bool_false_iff in H
         | H : (_ <? _)%Z = true |- _ => apply Z.ltb_lt in H
         | H : (_ <? _)%Z = false |- _ => apply Z.ltb_ge in H
         end.

(** The branch [check_exit_conditions] takes for an active signal. *)
Lemma check_exit_branches signal price now :
  sg_status signal = signal_active ->
  (target_reached signal price /\
   check_exit_conditions signal price now
   = Some (mkExit target_hit (sg_take_profit signal)
             (py_round
                (f64_mul (Qabs (f64_sub (sg_take_profit signal)
                                  (sg_entry signal))) 10000) 1)
             (sg_signal_id signal)))
  \/
  (~ target_reached signal price /\ stop_reached signal price /\
   check_exit_conditions signal price now
   = Some (mkExit stop_loss_hit (sg_stop_loss signal)
             (- py_round
                  (f64_mul (Qabs (f64_sub (sg_stop_loss signal)
                                    (sg_entry signal))) 10000) 1)
             (sg_signal_id signal)))
  \/
  (~ target_reached signal price /\ ~ stop_reached signal price /\
   (sg_expires_at signal < now)%Z /\
   ((in_favour signal price /\
     check_exit_conditions signal price now
     = Some (mkExit time_expired price
               (py_round
                  (f64_mul (Qabs (f64_sub price (sg_entry signal))) 10000) 1)
               (sg_signal_id signal)))
    \/
    (~ in_favour signal price /\
     check_exit_conditions signal price now
     = Some (mkExit time_expired price
               (py_round
                  (- f64_mul (Qabs (f64_sub price (sg_entry signal))) 10000) 1)
               (sg_signal_id signal)))))
  \/
  (~ target_reached signal price /\ ~ stop_reached signal price /\
   (now <= sg_expires_at signal)%Z /\
   check_exit_conditions signal price now = None).
Proof.
  intro Ha. unfold check_exit_conditions, target_reached, stop_reached, in_favour.
  rewrite Ha. cbn [SignalStatus_eqb negb]. cbv zeta.
  destruct (Qlt_bool (sg_entry signal) (sg_take_profit signal)) eqn:B;
    cbn [andb negb orb].
  - destruct (Qle_bool (sg_take_profit signal) price) eqn:T.
    + left. exit_facts. split; [left; split; assumption | reflexivity].
    + destruct (Qle_bool price (sg_stop_loss signal)) eqn:S.
      * right; left. exit_facts. split; [|split; [|reflexivity]].
        -- intros [[_ H]|[H _]]; lra.
        -- left. split; assumption.
      * assert (NT : ~ (sg_entry signal < sg_take_profit signal /\
                        sg_take_profit signal <= price \/
                        sg_take_profit signal <= sg_entry signal /\
                        price <= sg_take_profit signal)).
        { exit_facts. intros [[_ H]|[H _]]; lra. }
        assert (NS : ~ (sg_entry signal < sg_take_profit signal /\
                        price <= sg_stop_loss signal \/
                        sg_take_profit signal <= sg_entry signal /\
                        sg_stop_loss signal <= price)).
        { exit_facts. intros [[_ H]|[H _]]; lra. }
        destruct (sg_expires_at signal <? now)%Z eqn:X.
        -- right; right; left. split; [exact NT|]. split; [exact NS|].
           split; [now apply Z.ltb_lt|].
           rewrite orb_false_r.
           destruct (Qlt_bool (sg_entry signal) price) eqn:F.
           ++ left. exit_facts. split; [left; split; assumption | reflexivity].
           ++ right. exit_facts. split; [|reflexivity].
              intros [[_ H]|[H _]]; lra.
        -- right; right; right. split; [exact NT|]. split; [exact NS|].
           split; [now apply Z.ltb_ge | reflexivity].
  - destruct (Qle_bool price (sg_take_profit signal)) eqn:T.
    + left. exit_facts. split; [right; split; assumption | reflexivity].
    + destruct (Qle_bool (sg_stop_loss signal) price) eqn:S.
      * right; left. exit_facts. split; [|split; [|reflexivity]].
        -- intros [[H _]|[_ H]]; lra.
        -- right. split; assumption.
      * assert (NT : ~ (sg_entry signal < sg_take_profit signal /\
                        sg_take_profit signal <= price \/
                        sg_take_profit signal <= sg_entry signal /\
                        price <= sg_take_profit signal)).
        { exit_facts. intros [[H _]|[_ H]]; lra. }
        assert (NS : ~ (sg_entry signal < sg_take_profit signal /\
                        price <= sg_stop_loss signal \/
                        sg_take_profit signal <= sg_entry signal /\
                        sg_stop_loss signal <= price)).
        { exit_facts. intros [[H _]|[_ H]]; lra. }
        destruct (sg_expires_at signal <? now)%Z eqn:X.
        -- right; right; left. split; [exact NT|]. split; [exact NS|].
           split; [now apply Z.ltb_lt|].
           destruct (Qlt_bool price (sg_entry signal)) eqn:F.
           ++ left. exit_facts. split; [right; split; assumption | reflexivity].
           ++ right. exit_facts. split; [|reflexivity].
              intros [[H _]|[_ H]]; lra.
        -- right; right; right. split; [exact NT|]. split; [exact NS|].
           split; [now apply Z.ltb_ge | reflexivity].
Qed.

Lemma losing_exit stats ex :
  ex_pips_gained ex <= 0 ->
  winning_trades (update_session_stats stats ex) = winning_trades stats /\
  losing_trades (update_session_stats stats ex) = S (losing_trades stats).
Proof.
  intro H. unfold update_session_stats. cbv zeta.
  cbn [winning_trades losing_trades].
  assert (E : Qlt_bool 0 (ex_pips_gained ex) = false)
    by now apply Qlt_bool_false_iff.
  rewrite E. split; reflexivity.
Qed.

End ExitReasons.

(** X14.  What [check_exit_conditions] answers for any signal.  An exit is
    returned only for an active signal and carries that signal's id.  With
    [target_hit] the take-profit is reached, the exit price is the
    take-profit and the pips are not negative.  With [stop_loss_hit] the
    stop is reached and the take-profit is not, the exit price is the stop
    and the pips are not positive, so that [update_session_stats] books the
    exit as a losing trade.  With [time_expired] neither is reached, the
    signal has expired, the exit price is the price given, and the pips are
    not negative after a move in favour and not positive otherwise.  No exit
    is returned exactly when the signal is not active, or neither level is
    reached and the signal has not expired. *)
Theorem exit_reason_fixes_price_and_sign :
  forall (signal : Signal) (price : Q) (now : Z),
    (forall ex,
        LiveSignalGenerator.check_exit_conditions signal price now = Some ex ->
        sg_status signal = signal_active /\
        ex_signal_id ex = sg_signal_id signal /\
        match ex_reason ex with
        | target_hit =>
            target_reached signal price /\
            ex_exit_price ex = sg_take_profit signal /\
            ex_pips_gained ex
            = py_round
                (f64_mul (Qabs (f64_sub (sg_take_profit signal)
                                  (sg_entry signal))) 10000) 1 /\
            0 <= ex_pips_gained ex
        | stop_loss_hit =>
            stop_reached signal price /\ ~ target_reached signal price /\
            ex_exit_price ex = sg_stop_loss signal /\
            ex_pips_gained ex
            = - py_round
                  (f64_mul (Qabs (f64_sub (sg_stop_loss signal)
                                    (sg_entry signal))) 10000) 1 /\
            ex_pips_gained ex <= 0 /\
            forall stats,
              losing_trades (LiveSignalGenerator.update_session_stats stats ex)
              = S (losing_trades stats)
        | time_expired =>
            ~ target_reached signal price /\ ~ stop_reached signal price /\
            (sg_expires_at signal < now)%Z /\
            ex_exit_price ex = price /\
            (in_favour signal price -> 0 <= ex_pips_gained ex) /\
            (~ in_favour signal price -> ex_pips_gained ex <= 0)
        end)
    /\
    (LiveSignalGenerator.check_exit_conditions signal price now = None <->
     sg_status signal = signal_closed \/
     (~ target_reached signal price /\ ~ stop_reached signal price /\
      (now <= sg_expires_at signal)%Z)).
Proof.
  intros signal price now.
  destruct (sg_status signal) eqn:Ha.
  - pose proof (check_exit_branches signal price now Ha) as H.
    assert (P : forall a b, 0 <= f64_mul (Qabs (f64_sub a b)) 10000).
    { intros a b. apply fl_nonneg.
      apply Qmult_le_0_compat; [apply Qabs_nonneg | discriminate]. }
    split.
    + intros ex Hex. split; [reflexivity|].
      destruct H as [(T & E) | [(NT & S & E) | [(NT & NS & X & [(F & E)|(F & E)])
                                               | (NT & NS & X & E)]]];
        rewrite E in Hex; inversion Hex; subst ex;
        cbn [ex_signal_id ex_reason ex_exit_price ex_pips_gained];
        (split; [reflexivity|]).
      * split; [exact T|]. split; [reflexivity|]. split; [reflexivity|].
        apply pips_nonneg.
      * assert (N : - py_round
                        (f64_mul (Qabs (f64_sub (sg_stop_loss signal)
                                          (sg_entry signal))) 10000) 1 <= 0).
        { pose proof (pips_nonneg (sg_stop_loss signal) (sg_entry signal)). lra. }
        split; [exact S|]. split; [exact NT|]. split; [reflexivity|].
        split; [reflexivity|]. split; [exact N|].
        intro stats. now apply losing_exit.
      * split; [exact NT|]. split; [exact NS|]. split; [exact X|].
        split; [reflexivity|].
        split; [intros _; apply py_round_nonneg, P|].
        intro NF. contradiction.
      * split; [exact NT|]. split; [exact NS|]. split; [exact X|].
        split; [reflexivity|]. split; [intro; contradiction|].
        intros _. apply py_round_nonpos.
        pose proof (P price (sg_entry signal)) as P'.
        apply (Qopp_le_compat 0) in P'. exact P'.
    + split.
      * intro Hn. right.
        destruct H as [(T & E) | [(NT & S & E) | [(NT & NS & X & [(F & E)|(F & E)])
                                                 | (NT & NS & X & E)]]];
          try (rewrite E in Hn; discriminate).
        repeat split; assumption.
      * intros [C | (NT & NS & X)]; [discriminate|].
        destruct H as [(T & E) | [(NT' & S & E) | [(NT' & NS' & X' & _)
                                                  | (_ & _ & _ & E)]]];
          [contradiction | contradiction | lia | exact E].
  - split.
    + intros ex Hex. rewrite check_exit_inactive in Hex; [discriminate|].
      rewrite Ha. discriminate.
    + split; [intros _; now left|]. intros _.
      apply check_exit_inactive. rewrite Ha. discriminate.
Qed.


(** ** The signal lifecycle: the session statistics *)

Section Books.
Import LiveSignalGenerator SignalSession.

Lemma ratio_unit (w t : nat) :
  (w <= t)%nat -> (0 < t)%nat ->
  0 <= inject_Z (Z.of_nat w) / inject_Z (Z.of_nat t) /\
  inject_Z (Z.of_nat w) / inject_Z (Z.of_nat t) <= 1.
Proof.
  intros Hw Ht.
  assert (W0 : 0 <= inject_Z (Z.of_nat w)).
  { change 0 with (inject_Z 0). rewrite <- Zle_Qle. lia. }
  assert (WT : inject_Z (Z.of_nat w) <= inject_Z (Z.of_nat t)).
  { rewrite <- Zle_Qle. lia. }
  assert (T0 : 0 < inject_Z (Z.of_nat t)).
  { change 0 with (inject_Z 0). rewrite <- Zlt_Qlt. lia. }
  split.
  - apply Qle_shift_div_l; [exact T0|]. lra.
  - apply Qle_shift_div_r; [exact T0|]. lra.
Qed.

(** The win rate on doubles stays a percentage: rounding is monotone and
    leaves [0] and [100] where they are. *)
Lemma win_rate_bounds (w t : nat) :
  (w <= t)%nat -> (0 < t)%nat ->
  0 <= py_round
         (f64_mul (f64_div (inject_Z (Z.of_nat w)) (inject_Z (Z.of_nat t)))
            100) 1 /\
  py_round
    (f64_mul (f64_div (inject_Z (Z.of_nat w)) (inject_Z (Z.of_nat t))) 100) 1
  <= 100.
Proof.
  intros Hw Ht. destruct (ratio_unit w t Hw Ht) as [R0 R1].
  unfold f64_mul, f64_div.
  destruct (fl_unit _ R0 R1) as [F0 F1].
  set (x := fl (inject_Z (Z.of_nat w) / inject_Z (Z.of_nat t))) in *.
  clearbody x.
  assert (H100 : fl 100 == 100) by (vm_compute; reflexivity).
  assert (P100 : py_round 100 1 == 100) by (vm_compute; reflexivity).
  assert (M0 : 0 <= fl (x * 100)) by (apply fl_nonneg; lra).
  assert (M1 : fl (x * 100) <= 100).
  { apply (Qle_trans _ (fl 100)); [apply fl_mono; lra|].
    rewrite H100. apply Qle_refl. }
  split; [now apply py_round_nonneg|].
  eapply Qle_trans; [apply py_round_mono, M1|]. rewrite P100. apply Qle_refl.
Qed.

Lemma books_after_update g signal ex now buckets :
  books_balance g ->
  books_balance
    (mkGenerator buckets (closed_signals g ++ [mark_closed signal ex now])
       (update_session_stats (session_stats g) ex)).
Proof.
  intros (Ht & Hw & Hs & Hp & Hc & _ & _ & _).
  unfold books_balance, update_session_stats. cbv zeta.
  cbn [session_stats closed_signals total_trades winning_trades losing_trades
       total_pips win_rate Nat.ltb Nat.leb].
  unfold wins in *. rewrite filter_app, !length_app, map_app, fold_left_app.
  cbn [filter map fold_left].
  change (booked_pips (mark_closed signal ex now)) with (ex_pips_gained ex).
  assert (Rate : forall w,
             (w <= S (total_trades (session_stats g)))%nat ->
             0 <= py_round
                    (f64_mul
                       (f64_div (inject_Z (Z.of_nat w))
                          (inject_Z (Z.of_nat (S (total_trades (session_stats g))))))
                       100) 1 /\
             py_round
               (f64_mul
                  (f64_div (inject_Z (Z.of_nat w))
                     (inject_Z (Z.of_nat (S (total_trades (session_stats g))))))
                  100) 1 <= 100).
  { intros w Hle. apply win_rate_bounds; lia. }
  split; [cbn [length]; lia|].
  destruct (Qlt_bool 0 (ex_pips_gained ex)); cbn [length].
  - split; [lia|]. split; [lia|].
    split; [now rewrite Hp|].
    split; [apply Forall_app; split; [exact Hc | now constructor]|].
    destruct (Rate (S (winning_trades (session_stats g)))) as [R0 R1]; [lia|].
    repeat split; assumption.
  - split; [lia|]. split; [lia|].
    split; [now rewrite Hp|].
    split; [apply Forall_app; split; [exact Hc | now constructor]|].
    destruct (Rate (winning_trades (session_stats g))) as [R0 R1]; [lia|].
    repeat split; assumption.
Qed.

Lemma reachable_books g : reachable g -> books_balance g.
Proof.
  induction 1 as [|g signal _ IH|g id ex now _ IH].
  - unfold books_balance. cbn [new_generator session_stats closed_signals
                               total_trades winning_trades losing_trades
                               total_pips win_rate length wins filter map
                               fold_left Nat.add].
    repeat (split; [reflexivity || lra || constructor|]).
    intro H. now contradiction H.
  - exact IH.
  - unfold close_signal.
    destruct (take_from_buckets (active_signals g) id) as [[signal buckets]|];
      cbn [snd]; [|exact IH].
    now apply books_after_update.
Qed.

End Books.

(** X15.  In every state a generator reaches from a fresh one by
    [add_signal] and [close_signal], the session statistics agree with the
    closed log: [total_trades] is its length, [winning_trades] the number of
    its entries booked with positive pips, winning and losing trades add up
    to the total, [total_pips] is the running sum of the booked pips, added
    as doubles in the order of closing, every entry has status closed, and
    [win_rate] lies between [0] and [100], being, once a trade is closed,
    the quotient of winning and total trades times [100], both operations
    on doubles, rounded to one decimal by [round]. *)
Theorem session_statistics_match_the_closed_log :
  forall g : Generator,
    reachable g ->
    total_trades (session_stats g) = length (closed_signals g) /\
    winning_trades (session_stats g) = length (wins (closed_signals g)) /\
    (winning_trades (session_stats g) + losing_trades (session_stats g)
     = total_trades (session_stats g))%nat /\
    total_pips (session_stats g)
    = fold_left f64_add (map booked_pips (closed_signals g)) 0 /\
    Forall (fun signal => sg_status signal = signal_closed) (closed_signals g) /\
    0 <= win_rate (session_stats g) /\ win_rate (session_stats g) <= 100 /\
    (closed_signals g <> [] ->
     win_rate (session_stats g)
     = py_round
         (f64_mul
            (f64_div (inject_Z (Z.of_nat (winning_trades (session_stats g))))
               (inject_Z (Z.of_nat (total_trades (session_stats g))))) 100) 1)
    /\
    sm_total_trades (SignalSession.get_session_summary g)
    = length (closed_signals g) /\
    sm_win_rate (SignalSession.get_session_summary g) <= 100.
Proof.
  intros g Hg.
  destruct (reachable_books g Hg) as (A & B & C & D & E & F & G & H).
  cbn [SignalSession.get_session_summary sm_total_trades sm_win_rate].
  repeat (split; [assumption|]). assumption.
Qed.

(** The theorem at [after_close]: [example_signal] added to a fresh
    generator and closed on its target. *)
Lemma session_statistics_match_the_closed_log_witness :
  reachable after_close /\
  total_trades (session_stats after_close) = 1%nat /\
  winning_trades (session_stats after_close) = 1%nat /\
  win_rate (session_stats after_close) <= 100.
Proof.
  assert (R : reachable after_close).
  { change after_close
      with (snd (LiveSignalGenerator.close_signal
                   (LiveSignalGenerator.add_signal SignalSession.new_generator
                      example_signal)
                   "signal_frxEURUSD_H1_0" target_exit 100)).
    apply reach_close, reach_add, reach_new. }
  split; [exact R|].
  destruct (session_statistics_match_the_closed_log after_close R)
    as (A & B & _ & _ & _ & _ & G & _).
  split; [exact A|]. split; [exact B | exact G].
Defined.


(** ** The signal lifecycle: the index by symbol *)

Section Index.
Import LiveSignalGenerator MarketBiasAnalyzer.

Lemma dict_get_In {V} (d : list (string * V)) k v :
  dict_get d k = Some v -> In (k, v) d.
Proof.
  induction d as [|[k' v'] r IH]; cbn [dict_get]; [discriminate|].
  destruct (String.eqb k' k) eqn:E.
  - apply String.eqb_eq in E. intro H. inversion H; subst. now left.
  - intro H. right. now apply IH.
Qed.

Lemma dict_get_set_same {V} (d : list (string * V)) k v :
  dict_get (dict_set d k v) k = Some v.
Proof.
  induction d as [|[k' v'] r IH]; cbn [dict_set dict_get].
  - now rewrite String.eqb_refl.
  - destruct (String.eqb k' k) eqn:E; cbn [dict_get]; rewrite E;
      [reflexivity | exact IH].
Qed.

Lemma dict_get_set_other {V} (d : list (string * V)) k k' v :
  k' <> k -> dict_get (dict_set d k v) k' = dict_get d k'.
Proof.
  intro N. induction d as [|[k0 v0] r IH]; cbn [dict_set dict_get].
  - apply not_eq_sym in N. apply String.eqb_neq in N. now rewrite N.
  - destruct (String.eqb k0 k) eqn:E; cbn [dict_get].
    + apply String.eqb_eq in E. subst k0.
      apply not_eq_sym in N. apply String.eqb_neq in N. now rewrite N.
    + destruct (String.eqb k0 k'); [reflexivity | exact IH].
Qed.

Lemma dict_set_keys {V} (d : list (string * V)) k v :
  map fst (dict_set d k v)
  = if in_dec string_dec k (map fst d) then map fst d else map fst d ++ [k].
Proof.
  induction d as [|[k' v'] r IH]; cbn [dict_set map fst app]; [reflexivity|].
  destruct (String.eqb k' k) eqn:E.
  - apply String.eqb_eq in E. subst k'. cbn [map fst].
    destruct (in_dec string_dec k (k :: map fst r)) as [_|N]; [reflexivity|].
    exfalso. apply N. now left.
  - apply String.eqb_neq in E. cbn [map fst]. rewrite IH.
    destruct (in_dec string_dec k (map fst r)) as [I|N],
             (in_dec string_dec k (k' :: map fst r)) as [I'|N'];
      try reflexivity.
    + exfalso. apply N'. now right.
    + exfalso. destruct I' as [->|I']; [now apply E | now apply N].
Qed.

Lemma dict_set_In {V} (d : list (string * V)) k v k' v' :
  In (k', v') (dict_set d k v) -> (k' = k /\ v' = v) \/ In (k', v') d.
Proof.
  induction d as [|[k0 v0] r IH]; cbn [dict_set].
  - intros [H|[]]. inversion H. now left.
  - destruct (String.eqb k0 k) eqn:E.
    + apply String.eqb_eq in E. subst k0.
      intros [H|H]; [inversion H; now left | right; now right].
    + intros [H|H]; [right; now left|].
      destruct (IH H) as [L|R]; [now left | right; now right].
Qed.

Lemma add_signal_filed g signal :
  well_filed (active_signals g) -> well_filed (active_signals (add_signal g signal)).
Proof.
  intros [Hk Hf]. unfold add_signal. cbn [active_signals]. split.
  - rewrite dict_set_keys.
    destruct (in_dec string_dec (sg_symbol signal) (map fst (active_signals g)))
      as [I|N]; [exact Hk|].
    apply NoDup_app; [exact Hk | repeat constructor; intros [] |].
    intros x Hx [<-|[]]. exact (N Hx).
  - intros symbol bucket s Hin Hs.
    apply dict_set_In in Hin. destruct Hin as [[-> ->]|Hin];
      [|exact (Hf _ _ _ Hin Hs)].
    apply in_app_or in Hs. destruct Hs as [Hs|[<-|[]]]; [|reflexivity].
    destruct (dict_get (active_signals g) (sg_symbol signal)) as [b|] eqn:E;
      [|destruct Hs].
    exact (Hf _ _ _ (dict_get_In _ _ _ E) Hs).
Qed.

Lemma take_signal_incl signals id found rest s :
  take_signal signals id = Some (found, rest) -> In s rest -> In s signals.
Proof.
  intros H Hs.
  destruct (take_signal_some _ _ _ _ H) as (_ & pre & post & -> & -> & _).
  apply in_app_or in Hs. apply in_or_app.
  destruct Hs; [now left | right; now right].
Qed.

Lemma take_from_buckets_incl buckets id found buckets' k b' :
  take_from_buckets buckets id = Some (found, buckets') ->
  In (k, b') buckets' ->
  exists b, In (k, b) buckets /\ forall s, In s b' -> In s b.
Proof.
  revert buckets'. induction buckets as [|[k0 b0] r IH]; intro buckets';
    [discriminate|].
  cbn [take_from_buckets].
  destruct (take_signal b0 id) as [[f b1]|] eqn:E.
  - intro H. inversion H; subst. intros [Hin|Hin].
    + inversion Hin; subst. exists b0. split; [now left|].
      intros s Hs. exact (take_signal_incl _ _ _ _ _ E Hs).
    + exists b'. split; [now right | auto].
  - destruct (take_from_buckets r id) as [[f r']|]; [|discriminate].
    intro H. inversion H; subst. intros [Hin|Hin].
    + inversion Hin; subst. exists b'. split; [now left | auto].
    + destruct (IH r' eq_refl Hin) as (b & Hb & Hs).
      exists b. split; [now right | exact Hs].
Qed.

Lemma close_signal_filed g id ex now :
  well_filed (active_signals g) ->
  well_filed (active_signals (snd (close_signal g id ex now))).
Proof.
  intros [Hk Hf]. unfold close_signal.
  destruct (take_from_buckets (active_signals g) id) as [[f b']|] eqn:E;
    cbn [snd active_signals]; [|split; assumption].
  split.
  - destruct (take_from_buckets_some _ _ _ _ E) as (_ & -> & _). exact Hk.
  - intros symbol bucket s Hin Hs.
    destruct (take_from_buckets_incl _ _ _ _ _ _ E Hin) as (b & Hb & Hsub).
    exact (Hf _ _ _ Hb (Hsub _ Hs)).
Qed.

Lemma reachable_filed g : reachable g -> well_filed (active_signals g).
Proof.
  induction 1 as [|g signal _ IH|g id ex now _ IH].
  - split; [constructor | intros ? ? ? []].
  - now apply add_signal_filed.
  - now apply close_signal_filed.
Qed.

Lemma filter_all {A} (f : A -> bool) (l : list A) :
  (forall x, In x l -> f x = true) -> filter f l = l.
Proof.
  induction l as [|x r IH]; intro H; [reflexivity|].
  cbn [filter]. rewrite (H x (or_introl eq_refl)).
  f_equal. apply IH. intros y Hy. apply H. now right.
Qed.

Lemma filter_none {A} (f : A -> bool) (l : list A) :
  (forall x, In x l -> f x = false) -> filter f l = [].
Proof.
  induction l as [|x r IH]; intro H; [reflexivity|].
  cbn [filter]. rewrite (H x (or_introl eq_refl)).
  apply IH. intros y Hy. apply H. now right.
Qed.

(** In a well-filed index the bucket of a symbol is the listing of all
    signals cut down to that symbol. *)
Lemma bucket_is_filter buckets symbol :
  well_filed buckets ->
  match dict_get buckets symbol with
  | Some signals => signals
  | None => []
  end = of_symbol symbol (flat_map snd buckets).
Proof.
  unfold of_symbol.
  induction buckets as [|[k b] r IH]; intros [Hk Hf]; [reflexivity|].
  cbn [map fst] in Hk. inversion Hk as [|? ? Hnew Hk']; subst.
  assert (Wr : well_filed r).
  { split; [exact Hk'|]. intros k0 b0 s Hin Hs. apply (Hf k0 b0 s); [now right | exact Hs]. }
  cbn [dict_get flat_map snd]. rewrite filter_app.
  destruct (String.eqb k symbol) eqn:E.
  - apply String.eqb_eq in E. subst k.
    rewrite filter_all.
    2:{ intros s Hs. apply String.eqb_eq. apply (Hf symbol b s); [now left | exact Hs]. }
    rewrite filter_none; [now rewrite app_nil_r|].
    intros s Hs. apply String.eqb_neq. intro Es.
    apply in_flat_map in Hs. destruct Hs as ([k0 b0] & Hin & Hs0). cbn [snd] in Hs0.
    assert (sg_symbol s = k0) by (apply (Hf k0 b0 s); [now right | exact Hs0]).
    apply Hnew. apply in_map_iff. exists (k0, b0). split; [cbn; congruence | exact Hin].
  - rewrite filter_none.
    2:{ intros s Hs. apply String.eqb_neq. intro Es.
        apply String.eqb_neq in E. apply E.
        rewrite <- Es. symmetry. apply (Hf k b s); [now left | exact Hs]. }
    cbn [app]. exact (IH Wr).
Qed.

End Index.

(** X16.  In every state a generator reaches from a fresh one by
    [add_signal] and [close_signal], the active index has one bucket per
    symbol and files every signal under its own symbol, so
    [get_active_signals] for a symbol returns exactly the signals of that
    symbol among those it returns without one, in the same order.  Asked
    for the empty symbol it returns every signal. *)
Theorem active_signals_are_indexed_by_symbol :
  forall g : Generator,
    reachable g ->
    NoDup (map fst (active_signals g)) /\
    (forall symbol bucket signal,
        In (symbol, bucket) (active_signals g) -> In signal bucket ->
        sg_symbol signal = symbol) /\
    (forall symbol,
        symbol <> ""%string ->
        LiveSignalGenerator.get_active_signals g (Some symbol)
        = of_symbol symbol (LiveSignalGenerator.get_active_signals g None)) /\
    LiveSignalGenerator.get_active_signals g (Some ""%string)
    = LiveSignalGenerator.get_active_signals g None.
Proof.
  intros g Hg. pose proof (reachable_filed g Hg) as W.
  destruct W as [Hk Hf]. split; [exact Hk|]. split; [exact Hf|].
  split; [|reflexivity].
  intros symbol Hne. unfold LiveSignalGenerator.get_active_signals.
  cbn [LiveSignalGenerator.truthy].
  apply String.eqb_neq in Hne. rewrite Hne.
  apply (bucket_is_filter (active_signals g) symbol). split; assumption.
Qed.

(** The theorem at [two_signals]: the two example signals added to a fresh
    generator. *)
Lemma active_signals_are_indexed_by_symbol_witness :
  reachable two_signals /\
  LiveSignalGenerator.get_active_signals two_signals (Some "frxEURUSD"%string)
  = of_symbol "frxEURUSD" (LiveSignalGenerator.get_active_signals two_signals None).
Proof.
  assert (R : reachable two_signals).
  { change two_signals
      with (LiveSignalGenerator.add_signal
              (LiveSignalGenerator.add_signal SignalSession.new_generator
                 example_m15) example_signal).
    apply reach_add, reach_add, reach_new. }
  split; [exact R|].
  destruct (active_signals_are_indexed_by_symbol two_signals R) as (_ & _ & L & _).
  apply L. discriminate.
Defined.


(** ** The signal lifecycle: adding and closing *)

Section AddAndClose.
Import LiveSignalGenerator MarketBiasAnalyzer.

Lemma add_signal_listing (d : list (string * list Signal)) signal :
  exists pre post,
    flat_map snd d = pre ++ post /\
    flat_map snd
      (dict_set d (sg_symbol signal)
         (match dict_get d (sg_symbol signal) with
          | Some signals => signals
          | None => []
          end ++ [signal]))
    = pre ++ signal :: post.
Proof.
  induction d as [|[k b] r IH]; cbn [dict_set dict_get flat_map snd].
  - exists [], []. split; reflexivity.
  - destruct (String.eqb k (sg_symbol signal)); cbn [flat_map snd].
    + exists b, (flat_map snd r). split; [reflexivity|].
      now rewrite <- app_assoc.
    + destruct IH as (pre & post & E1 & E2).
      exists (b ++ pre), post. rewrite E1, E2, !app_assoc. split; reflexivity.
Qed.

End AddAndClose.

(** X17.  [add_signal] puts the signal at the end of the bucket of its
    symbol and touches nothing else: [get_active_signals] for that symbol
    returns the former list followed by the signal, for any other symbol the
    former list, and without a symbol the former listing with the signal
    inserted; the closed log and the statistics are unchanged.  The signal
    can then be closed by its id. *)
Theorem added_signal_ends_its_bucket :
  forall (g : Generator) (signal : Signal),
    (sg_symbol signal <> ""%string ->
     LiveSignalGenerator.get_active_signals
       (LiveSignalGenerator.add_signal g signal) (Some (sg_symbol signal))
     = LiveSignalGenerator.get_active_signals g (Some (sg_symbol signal))
       ++ [signal]) /\
    (forall symbol,
        symbol <> ""%string -> symbol <> sg_symbol signal ->
        LiveSignalGenerator.get_active_signals
          (LiveSignalGenerator.add_signal g signal) (Some symbol)
        = LiveSignalGenerator.get_active_signals g (Some symbol)) /\
    (exists pre post,
        LiveSignalGenerator.get_active_signals g None = pre ++ post /\
        LiveSignalGenerator.get_active_signals
          (LiveSignalGenerator.add_signal g signal) None
        = pre ++ signal :: post) /\
    closed_signals (LiveSignalGenerator.add_signal g signal) = closed_signals g /\
    session_stats (LiveSignalGenerator.add_signal g signal) = session_stats g /\
    (forall exit_signal now,
        fst (LiveSignalGenerator.close_signal
               (LiveSignalGenerator.add_signal g signal)
               (sg_signal_id signal) exit_signal now) = true).
Proof.
  intros g signal.
  pose proof (add_signal_listing (active_signals g) signal) as L.
  split; [|split; [|split; [exact L|split; [reflexivity|split; [reflexivity|]]]]].
  - intro Hne. apply String.eqb_neq in Hne.
    unfold LiveSignalGenerator.get_active_signals, LiveSignalGenerator.add_signal.
    cbn [LiveSignalGenerator.truthy active_signals]. rewrite Hne.
    now rewrite dict_get_set_same.
  - intros symbol Hne Hother. apply String.eqb_neq in Hne.
    unfold LiveSignalGenerator.get_active_signals, LiveSignalGenerator.add_signal.
    cbn [LiveSignalGenerator.truthy active_signals]. rewrite Hne.
    now rewrite dict_get_set_other.
  - intros exit_signal now.
    assert (Hin : In (sg_signal_id signal)
                    (active_ids (LiveSignalGenerator.add_signal g signal))).
    { unfold active_ids, LiveSignalGenerator.all_signals,
        LiveSignalGenerator.add_signal. cbn [active_signals].
      destruct L as (pre & post & _ & ->).
      apply in_map, in_or_app. right. now left. }
    destruct (close_signal_known _ _ exit_signal now Hin) as (s & g' & -> & _).
    reflexivity.
Qed.

(** X18.  [close_signal] succeeds exactly when some active signal carries
    the id.  It then takes one signal out of the active index, the first
    with that id in the order of the listing, and leaves every other signal
    and every bucket in place, an emptied bucket included; the signal goes
    to the end of the closed log with status closed and the reason, price
    and pips of the exit given, whose own id is not looked at; the
    statistics are updated with that exit. *)
Theorem close_moves_the_first_match :
  forall (g : Generator) (signal_id : string) (exit_signal : Exit) (now : Z),
    (fst (LiveSignalGenerator.close_signal g signal_id exit_signal now) = true
     <-> In signal_id (active_ids g)) /\
    (forall g',
        LiveSignalGenerator.close_signal g signal_id exit_signal now = (true, g') ->
        exists signal pre post,
          sg_signal_id signal = signal_id /\
          LiveSignalGenerator.all_signals g = pre ++ signal :: post /\
          LiveSignalGenerator.all_signals g' = pre ++ post /\
          (forall s, In s pre -> sg_signal_id s <> signal_id) /\
          map fst (active_signals g') = map fst (active_signals g) /\
          closed_signals g'
          = closed_signals g
            ++ [mkSignal (sg_signal_id signal) (sg_symbol signal)
                  (sg_timeframe signal) (sg_entry signal) (sg_stop_loss signal)
                  (sg_take_profit signal) (sg_confidence signal)
                  (sg_expires_at signal) signal_closed
                  (Some (ex_reason exit_signal))
                  (Some (ex_exit_price exit_signal))
                  (Some (ex_pips_gained exit_signal)) (Some now)] /\
          session_stats g'
          = LiveSignalGenerator.update_session_stats (session_stats g)
              exit_signal).
Proof.
  intros g signal_id exit_signal now. split.
  - split.
    + intro H. destruct (in_dec string_dec signal_id (active_ids g)) as [I|N];
        [exact I|].
      rewrite (close_signal_unknown g signal_id exit_signal now N) in H.
      discriminate.
    + intro I.
      destruct (close_signal_known g signal_id exit_signal now I)
        as (s & g' & -> & _). reflexivity.
  - intros g'. unfold LiveSignalGenerator.close_signal.
    destruct (LiveSignalGenerator.take_from_buckets (active_signals g) signal_id)
      as [[found buckets']|] eqn:E; [|discriminate].
    intro H. inversion H; subst g'.
    destruct (take_from_buckets_some _ _ _ _ E)
      as (Hid & Hk & pre & post & E1 & E2 & Hpre).
    exists found, pre, post. unfold LiveSignalGenerator.all_signals.
    cbn [active_signals closed_signals session_stats].
    repeat split; assumption.
Qed.


(** ** The scheduler's pass: the signal after an exit *)

Section SkippedSignal.
Import LiveSignalGenerator SignalSchedulerService.

Lemma NoDup_app_disjoint {A} (l1 l2 : list A) a :
  NoDup (l1 ++ l2) -> In a l1 -> In a l2 -> False.
Proof.
  induction l1 as [|x r IH]; cbn [app]; [intros _ []|].
  intros H [->|H1] H2; inversion H as [|? ? Hx Hr]; subst.
  - apply Hx. apply in_or_app. now right.
  - now apply IH.
Qed.

Lemma take_signal_nth b idx s :
  NoDup (map sg_signal_id b) -> nth_error b idx = Some s ->
  take_signal b (sg_signal_id s)
  = Some (s, firstn idx b ++ skipn (S idx) b).
Proof.
  revert idx. induction b as [|x l IH]; intros idx Hnd Hn.
  - destruct idx; discriminate.
  - cbn [map] in Hnd. inversion Hnd as [|? ? Hx Hl]; subst.
    destruct idx as [|i]; cbn [nth_error] in Hn.
    + inversion Hn; subst x. cbn [take_signal]. now rewrite String.eqb_refl.
    + cbn [take_signal].
      assert (E : String.eqb (sg_signal_id x) (sg_signal_id s) = false).
      { apply String.eqb_neq. intro E. apply Hx. rewrite E.
        apply in_map. eapply nth_error_In. exact Hn. }
      rewrite E, (IH i Hl Hn). reflexivity.
Qed.

Lemma dict_get_listed (d : list (string * list Signal)) k b s :
  dict_get d k = Some b -> In s b -> In s (flat_map snd d).
Proof.
  intros H Hs. apply in_flat_map. exists (k, b).
  split; [now apply dict_get_In | exact Hs].
Qed.

Lemma dict_get_segment (d : list (string * list Signal)) k b :
  dict_get d k = Some b ->
  exists before after, flat_map snd d = before ++ b ++ after.
Proof.
  induction d as [|[k' b'] r IH]; cbn [dict_get flat_map snd]; [discriminate|].
  destruct (String.eqb k' k).
  - intro H. inversion H; subst. exists [], (flat_map snd r). reflexivity.
  - intro H. destruct (IH H) as (before & after & ->).
    exists (b' ++ before), after. now rewrite <- app_assoc.
Qed.

Lemma bucket_ids_distinct g symbol bucket :
  NoDup (active_ids g) -> dict_get (active_signals g) symbol = Some bucket ->
  NoDup (map sg_signal_id bucket).
Proof.
  unfold active_ids, all_signals. intros Hnd Hb.
  destruct (dict_get_segment _ _ _ Hb) as (before & after & E).
  rewrite E, !map_app in Hnd.
  apply NoDup_app_remove_l in Hnd. now apply NoDup_app_remove_r in Hnd.
Qed.

Lemma take_from_buckets_at buckets symbol bucket idx s :
  NoDup (map sg_signal_id (flat_map snd buckets)) ->
  dict_get buckets symbol = Some bucket -> nth_error bucket idx = Some s ->
  exists buckets',
    take_from_buckets buckets (sg_signal_id s) = Some (s, buckets') /\
    dict_get buckets' symbol = Some (firstn idx bucket ++ skipn (S idx) bucket).
Proof.
  induction buckets as [|[k b] r IH]; intros Hnd Hb Hn; [discriminate|].
  cbn [flat_map snd] in Hnd. rewrite map_app in Hnd.
  cbn [dict_get] in Hb. cbn [take_from_buckets].
  destruct (String.eqb k symbol) eqn:E.
  - inversion Hb; subst b.
    rewrite (take_signal_nth bucket idx s); [|now apply NoDup_app_remove_r in Hnd|exact Hn].
    eexists. split; [reflexivity|]. cbn [dict_get]. now rewrite E.
  - rewrite take_signal_none.
    2:{ intros x Hx Ex.
        apply (NoDup_app_disjoint _ _ (sg_signal_id s) Hnd).
        - rewrite <- Ex. now apply in_map.
        - apply in_map. eapply dict_get_listed; [exact Hb|].
          eapply nth_error_In. exact Hn. }
    destruct (IH (NoDup_app_remove_l _ _ Hnd) Hb Hn) as (r' & -> & Hr').
    eexists. split; [reflexivity|]. cbn [dict_get]. now rewrite E.
Qed.

(** Closing the signal at position [idx] of the bucket of [symbol]. *)
Lemma close_at g symbol bucket idx s ex now :
  NoDup (active_ids g) ->
  dict_get (active_signals g) symbol = Some bucket ->
  nth_error bucket idx = Some s ->
  ex_signal_id ex = sg_signal_id s ->
  exists g',
    close_signal g (ex_signal_id ex) ex now = (true, g') /\
    dict_get (active_signals g') symbol
    = Some (firstn idx bucket ++ skipn (S idx) bucket) /\
    NoDup (active_ids g').
Proof.
  intros Hnd Hb Hn Hid. unfold close_signal. rewrite Hid.
  destruct (take_from_buckets_at _ _ _ _ _ Hnd Hb Hn) as (buckets' & E & Hb').
  rewrite E. eexists. split; [reflexivity|]. cbn [active_signals].
  split; [exact Hb'|].
  destruct (take_from_buckets_some _ _ _ _ E) as (_ & _ & pre & post & E1 & E2 & _).
  unfold active_ids, all_signals in *. cbn [active_signals].
  rewrite E2. rewrite E1 in Hnd. rewrite map_app in *. cbn [map] in Hnd.
  exact (NoDup_remove_1 _ _ _ Hnd).
Qed.

Lemma exit_step_at g symbol bucket idx s price now :
  NoDup (active_ids g) ->
  dict_get (active_signals g) symbol = Some bucket ->
  nth_error bucket idx = Some s ->
  (check_exit_conditions s price now = None /\
   exit_step g s price now = (g, []))
  \/
  (exists ex g' ev,
      check_exit_conditions s price now = Some ex /\
      exit_step g s price now = (g', [ev]) /\
      ev_signal_id ev = sg_signal_id s /\
      dict_get (active_signals g') symbol
      = Some (firstn idx bucket ++ skipn (S idx) bucket) /\
      NoDup (active_ids g')).
Proof.
  intros Hnd Hb Hn. unfold exit_step.
  destruct (check_exit_conditions s price now) as [ex|] eqn:Hex;
    [right | left; split; reflexivity].
  destruct (close_at g symbol bucket idx s ex now Hnd Hb Hn
              (exit_carries_id _ _ _ _ Hex)) as (g' & -> & Hb' & Hnd').
  exists ex, g'. eexists. split; [reflexivity|]. split; [reflexivity|].
  split; [reflexivity|]. split; assumption.
Qed.

(** What the iterator has passed stays in the bucket, and no exit is
    broadcast for it later in the pass. *)
Lemma loop_keeps_prefix symbol price now fuel :
  forall idx g pre rest,
    NoDup (active_ids g) ->
    dict_get (active_signals g) symbol = Some (pre ++ rest) ->
    (length pre <= idx)%nat ->
    exists rest',
      dict_get
        (active_signals (fst (exit_loop_live fuel symbol idx g price now)))
        symbol = Some (pre ++ rest') /\
      forall s, In s pre ->
        ~ In (sg_signal_id s)
            (map ev_signal_id
               (snd (exit_loop_live fuel symbol idx g price now))).
Proof.
  induction fuel as [|fuel IH]; intros idx g pre rest Hnd Hb Hlen.
  - exists rest. split; [exact Hb | intros s _ []].
  - cbn [exit_loop_live]. rewrite Hb.
    destruct (nth_error (pre ++ rest) idx) as [signal|] eqn:Hn;
      [|exists rest; split; [exact Hb | intros s _ []]].
    destruct (exit_step_at g symbol _ idx signal price now Hnd Hb Hn)
      as [(_ & ->) | (ex & g1 & ev & _ & -> & Hev & Hb1 & Hnd1)].
    + destruct (IH (S idx) g pre rest Hnd Hb) as (rest' & Hr & He); [lia|].
      destruct (exit_loop_live fuel symbol (S idx) g price now) as [g2 evs2].
      exists rest'. split; assumption.
    + rewrite firstn_app, firstn_all2, <- app_assoc in Hb1 by exact Hlen.
      destruct (IH (S idx) g1 pre _ Hnd1 Hb1) as (rest' & Hr & He); [lia|].
      destruct (exit_loop_live fuel symbol (S idx) g1 price now) as [g2 evs2].
      exists rest'. split; [exact Hr|].
      intros s Hs. cbn [snd app map]. intros [Hin|Hin]; [|exact (He s Hs Hin)].
      rewrite Hev in Hin.
      pose proof (bucket_ids_distinct g symbol _ Hnd Hb) as Hd.
      rewrite map_app in Hd.
      apply (NoDup_app_disjoint _ _ (sg_signal_id s) Hd).
      * now apply in_map.
      * rewrite <- Hin. apply in_map.
        rewrite nth_error_app2 in Hn by exact Hlen.
        eapply nth_error_In. exact Hn.
Qed.

(** The iterator walks over signals that do not exit without changing
    anything. *)
Lemma loop_over_quiet_signals symbol price now g bucket n :
  forall fuel idx,
    dict_get (active_signals g) symbol = Some bucket ->
    (forall i s, (idx <= i < idx + n)%nat -> nth_error bucket i = Some s ->
                 check_exit_conditions s price now = None) ->
    (idx + n <= length bucket)%nat ->
    exit_loop_live (n + fuel) symbol idx g price now
    = exit_loop_live fuel symbol (idx + n) g price now.
Proof.
  induction n as [|n IH]; intros fuel idx Hb Hq Hlen.
  - now rewrite Nat.add_0_r.
  - cbn [Nat.add exit_loop_live]. rewrite Hb.
    destruct (nth_error bucket idx) as [s|] eqn:Hn.
    2:{ apply nth_error_None in Hn. lia. }
    unfold exit_step. rewrite (Hq idx s); [|lia|exact Hn].
    rewrite (IH fuel (S idx) Hb).
    + replace (S idx + n)%nat with (idx + S n)%nat by lia.
      now destruct (exit_loop_live fuel symbol (idx + S n) g price now).
    + intros i x Hi. apply Hq. lia.
    + lia.
Qed.

End SkippedSignal.

(** X19.  A pass of [_check_exit_conditions] over the bucket of a symbol
    does not evaluate the signal listed right after the first signal that
    exits: with distinct signal ids, if the signals before [s1] do not exit
    and [s1] does, then [s1] is closed and its exit broadcast, while the
    next signal [s2] keeps its place in the active index and no exit is
    broadcast for it in that pass, whatever its own exit conditions. *)
Theorem pass_skips_the_signal_after_an_exit :
  forall (g : Generator) (symbol : string) (pre : list Signal)
         (s1 s2 : Signal) (rest : list Signal) (price : Q) (now : Z) (ex : Exit),
    symbol <> ""%string ->
    LiveSignalGenerator.dict_get (active_signals g) symbol
    = Some (pre ++ s1 :: s2 :: rest) ->
    NoDup (active_ids g) ->
    (forall s, In s pre ->
               LiveSignalGenerator.check_exit_conditions s price now = None) ->
    LiveSignalGenerator.check_exit_conditions s1 price now = Some ex ->
    exists g' evs rest',
      SignalSchedulerService._check_exit_conditions g symbol price now
      = (g', evs) /\
      LiveSignalGenerator.get_active_signals g' (Some symbol)
      = pre ++ s2 :: rest' /\
      In (sg_signal_id s1) (map ev_signal_id evs) /\
      ~ In (sg_signal_id s2) (map ev_signal_id evs).
Proof.
  intros g symbol pre s1 s2 rest price now ex Hsym Hb Hnd Hquiet Hex.
  apply String.eqb_neq in Hsym.
  unfold SignalSchedulerService._check_exit_conditions,
    LiveSignalGenerator.get_active_signals.
  cbn [LiveSignalGenerator.truthy]. rewrite Hsym, Hb.
  rewrite length_app. cbn [length].
  rewrite (loop_over_quiet_signals symbol price now g _ (length pre)
             (S (S (length rest))) 0 Hb).
  2:{ intros i s Hi Hn. apply Hquiet.
      rewrite nth_error_app1 in Hn by lia. eapply nth_error_In. exact Hn. }
  2:{ rewrite length_app. cbn [length]. lia. }
  remember (S (length rest)) as fuel eqn:Hfuel. clear Hfuel.
  cbn [Nat.add SignalSchedulerService.exit_loop_live]. rewrite Hb.
  assert (Hn : nth_error (pre ++ s1 :: s2 :: rest) (length pre) = Some s1).
  { rewrite nth_error_app2 by lia. now rewrite Nat.sub_diag. }
  rewrite Hn.
  destruct (exit_step_at g symbol _ (length pre) s1 price now Hnd Hb Hn)
    as [(C & _) | (ex' & g1 & ev & _ & -> & Hev & Hb1 & Hnd1)];
    [rewrite C in Hex; discriminate|].
  assert (E : firstn (length pre) (pre ++ s1 :: s2 :: rest)
              ++ skipn (S (length pre)) (pre ++ s1 :: s2 :: rest)
              = (pre ++ [s2]) ++ rest).
  { rewrite firstn_app, firstn_all, Nat.sub_diag. cbn [firstn].
    rewrite app_nil_r.
    replace (S (length pre)) with (length (pre ++ [s1]))
      by (rewrite length_app; cbn [length]; lia).
    replace (pre ++ s1 :: s2 :: rest) with ((pre ++ [s1]) ++ s2 :: rest)
      by (now rewrite <- app_assoc).
    rewrite skipn_app, skipn_all, Nat.sub_diag. cbn [skipn app].
    now rewrite <- app_assoc. }
  rewrite E in Hb1.
  destruct (loop_keeps_prefix symbol price now fuel
              (S (length pre)) g1 (pre ++ [s2]) rest Hnd1 Hb1)
    as (rest' & Hr & He).
  { rewrite length_app. cbn [length]. lia. }
  destruct (SignalSchedulerService.exit_loop_live fuel symbol
              (S (length pre)) g1 price now) as [g2 evs2].
  cbn [fst snd] in Hr, He.
  exists g2, ([ev] ++ evs2), rest'. split; [reflexivity|].
  rewrite Hr, <- app_assoc. split; [reflexivity|].
  cbn [app map]. split; [left; exact Hev|].
  intros [Hin|Hin].
  - rewrite Hev in Hin.
    pose proof (bucket_ids_distinct g symbol _ Hnd Hb) as Hd.
    rewrite map_app in Hd. apply NoDup_app_remove_l in Hd.
    cbn [map] in Hd. inversion Hd as [|? ? Hx _]; subst.
    apply Hx. rewrite Hin. now left.
  - apply (He s2); [apply in_or_app; right; now left | exact Hin].
Qed.

(** The theorem at [two_signals] and the tick [1.1105], where both targets
    are hit: the M15 signal exits, the H1 signal stays. *)
Lemma pass_skips_the_signal_after_an_exit_witness :
  exists g' evs rest',
    SignalSchedulerService._check_exit_conditions two_signals "frxEURUSD"
      1.1105 100 = (g', evs) /\
    LiveSignalGenerator.get_active_signals g' (Some "frxEURUSD"%string)
    = [] ++ example_signal :: rest' /\
    In (sg_signal_id example_m15) (map ev_signal_id evs) /\
    ~ In (sg_signal_id example_signal) (map ev_signal_id evs).
Proof.
  apply (pass_skips_the_signal_after_an_exit two_signals "frxEURUSD" []
           example_m15 example_signal [] 1.1105 100
           (mkExit target_hit 1.1100 (fl 100) "signal_frxEURUSD_M15_0")).
  - discriminate.
  - reflexivity.
  - vm_compute. repeat constructor; cbn; intuition discriminate.
  - intros s [].
  - vm_compute. reflexivity.
Defined.


(** ** The scheduler's pass: exits and bookings *)

Section PassAccounts.
Import LiveSignalGenerator SignalSchedulerService.

Lemma pass_effect_refl g : pass_effect g g [].
Proof.
  unfold pass_effect. split; [exists []; split; [now rewrite app_nil_r | constructor]|].
  cbn [length]. repeat split; auto; lia.
Qed.

Lemma pass_effect_trans g g1 g2 evs1 evs2 :
  pass_effect g g1 evs1 -> pass_effect g1 g2 evs2 ->
  pass_effect g g2 (evs1 ++ evs2).
Proof.
  intros ((b1 & C1 & F1) & L1 & T1 & K1 & R1) ((b2 & C2 & F2) & L2 & T2 & K2 & R2).
  unfold pass_effect. split.
  - exists (b1 ++ b2). split; [rewrite C2, C1; now rewrite app_assoc|].
    now apply Forall2_app.
  - rewrite length_app. repeat split; [lia | lia | congruence | auto].
Qed.

Lemma exit_step_effect g signal price now :
  pass_effect g (fst (exit_step g signal price now))
    (snd (exit_step g signal price now)).
Proof.
  unfold exit_step.
  destruct (check_exit_conditions signal price now) as [ex|] eqn:Hex;
    [|apply pass_effect_refl].
  pose proof (exit_carries_id _ _ _ _ Hex) as Hid.
  pose proof (reach_close g (ex_signal_id ex) ex now) as Hreach.
  unfold close_signal in *.
  destruct (take_from_buckets (active_signals g) (ex_signal_id ex))
    as [[found buckets']|] eqn:E; cbn [fst snd] in *; [|apply pass_effect_refl].
  destruct (take_from_buckets_some _ _ _ _ E) as (Hf & Hk & pre & post & E1 & E2 & _).
  unfold pass_effect, all_signals.
  cbn [closed_signals active_signals session_stats length].
  split; [|split; [|split; [|split]]].
  - eexists. split; [reflexivity|]. repeat constructor.
    cbn [mark_closed sg_signal_id ev_signal_id]. congruence.
  - rewrite E1, E2, !length_app. cbn [length]. lia.
  - unfold update_session_stats. cbn [total_trades]. lia.
  - exact Hk.
  - exact Hreach.
Qed.

Lemma exit_loop_live_effect fuel symbol price now :
  forall idx g,
    pass_effect g (fst (exit_loop_live fuel symbol idx g price now))
      (snd (exit_loop_live fuel symbol idx g price now)).
Proof.
  induction fuel as [|fuel IH]; intros idx g; [apply pass_effect_refl|].
  cbn [exit_loop_live].
  destruct (dict_get (active_signals g) symbol) as [bucket|];
    [|apply pass_effect_refl].
  destruct (nth_error bucket idx) as [signal|]; [|apply pass_effect_refl].
  pose proof (exit_step_effect g signal price now) as S1.
  destruct (exit_step g signal price now) as [g1 evs1]. cbn [fst snd] in S1.
  specialize (IH (S idx) g1).
  destruct (exit_loop_live fuel symbol (S idx) g1 price now) as [g2 evs2].
  cbn [fst snd] in *. now apply (pass_effect_trans g g1 g2).
Qed.

Lemma exit_loop_copy_effect signals price now :
  forall g,
    pass_effect g (fst (exit_loop_copy signals g price now))
      (snd (exit_loop_copy signals g price now)).
Proof.
  induction signals as [|signal rest IH]; intro g; [apply pass_effect_refl|].
  cbn [exit_loop_copy].
  pose proof (exit_step_effect g signal price now) as S1.
  destruct (exit_step g signal price now) as [g1 evs1]. cbn [fst snd] in S1.
  specialize (IH g1).
  destruct (exit_loop_copy rest g1 price now) as [g2 evs2].
  cbn [fst snd] in *. now apply (pass_effect_trans g g1 g2).
Qed.

Lemma check_exit_conditions_effect g symbol price now :
  pass_effect g (after_pass g symbol price now) (exits_of_pass g symbol price now).
Proof.
  unfold after_pass, exits_of_pass, _check_exit_conditions.
  destruct (truthy (Some symbol)) as [s|]; [|apply exit_loop_copy_effect].
  destruct (dict_get (active_signals g) s) as [bucket|];
    [apply exit_loop_live_effect | apply pass_effect_refl].
Qed.

End PassAccounts.

(** X20.  A pass of [_check_exit_conditions] books what it broadcasts: the
    closed log grows by exactly one entry per exit message, in the order of
    the messages, each entry carrying the id, reason, exit price and pips of
    its message with status closed; the active index loses as many signals
    as there are messages and keeps its buckets; [total_trades] grows by
    the number of messages; and a state reached by [add_signal] and
    [close_signal] stays one. *)
Theorem pass_books_every_exit_it_broadcasts :
  forall (g : Generator) (symbol : string) (price : Q) (now : Z),
    (exists booked,
        closed_signals (after_pass g symbol price now)
        = closed_signals g ++ booked /\
        Forall2 booked_as (exits_of_pass g symbol price now) booked) /\
    (length (LiveSignalGenerator.all_signals (after_pass g symbol price now))
     + length (exits_of_pass g symbol price now)
     = length (LiveSignalGenerator.all_signals g))%nat /\
    total_trades (session_stats (after_pass g symbol price now))
    = (total_trades (session_stats g)
       + length (exits_of_pass g symbol price now))%nat /\
    map fst (active_signals (after_pass g symbol price now))
    = map fst (active_signals g) /\
    (reachable g -> reachable (after_pass g symbol price now)).
Proof.
  intros g symbol price now.
  exact (check_exit_conditions_effect g symbol price now).
Qed.


(** ** The scheduler: admission of new signals *)

Section Admission.
Import LiveSignalGenerator SignalSchedulerService SignalAdmission
       MarketBiasAnalyzer.

Lemma distinct_snoc (bucket : list Signal) (signal : Signal) :
  distinct_entries bucket ->
  (forall existing, In existing bucket -> ~ near_duplicate signal existing) ->
  distinct_entries (bucket ++ [signal]).
Proof.
  unfold distinct_entries. intros H Hn.
  induction H as [|x l Hx Hl IH]; cbn [app].
  - constructor; [constructor | constructor].
  - constructor.
    + apply Forall_app. split; [exact Hx|].
      constructor; [|constructor]. apply Hn. now left.
    + apply IH. intros e He. apply Hn. now right.
Qed.

Lemma distinct_remove (pre post : list Signal) (x : Signal) :
  distinct_entries (pre ++ x :: post) -> distinct_entries (pre ++ post).
Proof.
  unfold distinct_entries. induction pre as [|y pre IH]; cbn [app]; intro H.
  - now inversion H.
  - inversion H as [|? ? Hy Hr]; subst. constructor.
    + apply Forall_app in Hy. destruct Hy as [A B].
      apply Forall_app. split; [exact A | now inversion B].
    + now apply IH.
Qed.

Lemma not_duplicate g signal :
  _is_duplicate_signal g signal = false ->
  forall existing,
    In existing (get_active_signals g (Some (sg_symbol signal))) ->
    ~ near_duplicate signal existing.
Proof.
  unfold _is_duplicate_signal. intros H existing Hin (Htf & Hd & Hst).
  assert (T : existsb
                (fun existing_signal =>
                   String.eqb (sg_timeframe existing_signal) (sg_timeframe signal)
                   && Qlt_bool (Qabs (sg_entry existing_signal - sg_entry signal))
                        0.001
                   && SignalStatus_eqb (sg_status existing_signal) signal_active)
                (get_active_signals g (Some (sg_symbol signal))) = true).
  { apply existsb_exists. exists existing. split; [exact Hin|].
    apply String.eqb_eq in Htf. apply Qlt_bool_iff in Hd.
    rewrite Htf, Hd, Hst. reflexivity. }
  rewrite T in H. discriminate.
Qed.

Lemma bucket_in_active g symbol bucket s :
  dict_get (active_signals g) symbol = Some bucket -> In s bucket ->
  In s (get_active_signals g (Some symbol)).
Proof.
  intros Hb Hs. unfold get_active_signals, truthy.
  destruct (String.eqb symbol ""); [|now rewrite Hb].
  unfold all_signals. eapply dict_get_listed; eassumption.
Qed.

Lemma add_signal_distinct g signal :
  entries_distinct g -> _is_duplicate_signal g signal = false ->
  entries_distinct (add_signal g signal).
Proof.
  intros Hd Hn symbol bucket. unfold add_signal. cbn [active_signals].
  destruct (string_dec symbol (sg_symbol signal)) as [->|Hne].
  - rewrite dict_get_set_same. intro H. inversion H; subst bucket.
    destruct (dict_get (active_signals g) (sg_symbol signal)) as [b|] eqn:E.
    + apply distinct_snoc; [exact (Hd _ _ E)|].
      intros existing He. apply (not_duplicate g signal Hn).
      exact (bucket_in_active g _ _ _ E He).
    + apply distinct_snoc; [constructor | intros ? []].
  - rewrite dict_get_set_other by exact Hne. apply Hd.
Qed.

Lemma take_from_buckets_get buckets id found buckets' symbol bucket' :
  take_from_buckets buckets id = Some (found, buckets') ->
  dict_get buckets' symbol = Some bucket' ->
  dict_get buckets symbol = Some bucket' \/
  exists pre post,
    dict_get buckets symbol = Some (pre ++ found :: post) /\
    bucket' = pre ++ post.
Proof.
  revert buckets'. induction buckets as [|[k b] r IH]; intro buckets';
    [discriminate|].
  cbn [take_from_buckets].
  destruct (take_signal b id) as [[f b1]|] eqn:E.
  - intro H. inversion H; subst. cbn [dict_get].
    destruct (String.eqb k symbol); [|now left].
    intro Hb. inversion Hb; subst.
    destruct (take_signal_some _ _ _ _ E) as (_ & pre & post & -> & -> & _).
    right. exists pre, post. split; reflexivity.
  - destruct (take_from_buckets r id) as [[f r']|]; [|discriminate].
    intro H. inversion H; subst. cbn [dict_get].
    destruct (String.eqb k symbol); [now left|]. now apply IH.
Qed.

Lemma close_signal_distinct g id ex now :
  entries_distinct g -> entries_distinct (snd (close_signal g id ex now)).
Proof.
  intros Hd. unfold close_signal.
  destruct (take_from_buckets (active_signals g) id) as [[f b']|] eqn:E;
    cbn [snd]; [|exact Hd].
  intros symbol bucket Hb. cbn [active_signals] in Hb.
  destruct (take_from_buckets_get _ _ _ _ _ _ E Hb)
    as [H | (pre & post & H & ->)].
  - exact (Hd _ _ H).
  - eapply distinct_remove. exact (Hd _ _ H).
Qed.

Lemma exit_step_distinct g signal price now :
  entries_distinct g -> entries_distinct (fst (exit_step g signal price now)).
Proof.
  intro Hd. unfold exit_step.
  destruct (check_exit_conditions signal price now) as [ex|]; [|exact Hd].
  pose proof (close_signal_distinct g (ex_signal_id ex) ex now Hd) as H.
  destruct (close_signal g (ex_signal_id ex) ex now) as [[|] g'];
    cbn [fst snd] in *; exact H.
Qed.

Lemma check_exit_conditions_distinct g symbol price now :
  entries_distinct g -> entries_distinct (after_pass g symbol price now).
Proof.
  unfold after_pass, _check_exit_conditions.
  destruct (truthy (Some symbol)) as [s|].
  - destruct (dict_get (active_signals g) s) as [bucket|]; [|auto].
    generalize (length bucket) 0%nat. intros fuel. revert g.
    induction fuel as [|fuel IH]; intros g idx Hd; [exact Hd|].
    cbn [exit_loop_live].
    destruct (dict_get (active_signals g) s) as [b|]; [|exact Hd].
    destruct (nth_error b idx) as [signal|]; [|exact Hd].
    pose proof (exit_step_distinct g signal price now Hd) as H1.
    destruct (exit_step g signal price now) as [g1 evs1]. cbn [fst] in H1.
    specialize (IH g1 (S idx) H1).
    now destruct (exit_loop_live fuel s (S idx) g1 price now).
  - generalize (all_signals g) at 1. intros signals. revert g.
    induction signals as [|signal rest IH]; intros g Hd; [exact Hd|].
    cbn [exit_loop_copy].
    pose proof (exit_step_distinct g signal price now Hd) as H1.
    destruct (exit_step g signal price now) as [g1 evs1]. cbn [fst] in H1.
    specialize (IH g1 H1).
    now destruct (exit_loop_copy rest g1 price now).
Qed.

(** What the admission loop does. *)
Lemma admit_signals_facts new_signals :
  forall g,
    closed_signals (fst (admit_signals g new_signals)) = closed_signals g /\
    session_stats (fst (admit_signals g new_signals)) = session_stats g /\
    length (all_signals (fst (admit_signals g new_signals)))
    = (length (all_signals g) + length (snd (admit_signals g new_signals)))%nat /\
    (forall s, In s (snd (admit_signals g new_signals)) -> In s new_signals) /\
    (forall s, In s (snd (admit_signals g new_signals)) ->
               In s (all_signals (fst (admit_signals g new_signals)))) /\
    (forall s, In s (all_signals g) ->
               In s (all_signals (fst (admit_signals g new_signals)))) /\
    (entries_distinct g -> entries_distinct (fst (admit_signals g new_signals))) /\
    (reachable g -> reachable (fst (admit_signals g new_signals))).
Proof.
  induction new_signals as [|signal rest IH]; intro g; cbn [admit_signals].
  - cbn [fst snd length]. repeat split; auto. intros s [].
  - destruct (_is_duplicate_signal g signal) eqn:D; cbn [negb].
    + destruct (IH g) as (C & St & L & I & A & K & E & R).
      repeat split; auto. intros s Hs. right. now apply I.
    + destruct (IH (add_signal g signal)) as (C & St & L & I & A & K & E & R).
      destruct (add_signal_listing (active_signals g) signal)
        as (pre & post & E1 & E2).
      assert (Hlen : length (all_signals (add_signal g signal))
                     = S (length (all_signals g))).
      { unfold all_signals, add_signal. cbn [active_signals].
        rewrite E2, E1, !length_app. cbn [length]. lia. }
      assert (Hnew : In signal (all_signals (add_signal g signal))).
      { unfold all_signals, add_signal. cbn [active_signals].
        rewrite E2. apply in_or_app. right. now left. }
      assert (Hold : forall s, In s (all_signals g) ->
                               In s (all_signals (add_signal g signal))).
      { unfold all_signals, add_signal. cbn [active_signals].
        rewrite E2, E1. intros s Hs. apply in_app_or in Hs. apply in_or_app.
        destruct Hs; [now left | right; now right]. }
      destruct (admit_signals (add_signal g signal) rest) as [g' sent].
      cbn [fst snd length] in *.
      split; [exact C|]. split; [exact St|]. split; [lia|].
      split; [intros s [<-|Hs]; [now left | right; now apply I]|].
      split; [intros s [<-|Hs]; [now apply K | now apply A]|].
      split; [intros s Hs; now apply K, Hold|].
      split; [intro Hd; apply E; now apply add_signal_distinct|].
      intro Hr. apply R. now constructor.
Qed.

End Admission.

(** X21.  [_process_symbol_timeframe] keeps the entries of every bucket
    distinct: if no signal of a bucket is a near-duplicate of one listed
    before it (same timeframe, entries less than [0.001] apart, the earlier
    one active), the same holds after the exit pass and the admission of
    any list of new signals, so near-duplicates within one batch are
    admitted once.  The admission closes nothing and leaves the statistics
    alone, every signal it broadcasts is one of the new signals and is in
    the active index afterwards, and without a price the call changes
    nothing. *)
Theorem scheduler_keeps_entries_distinct :
  forall (g : Generator) (symbol : string) (answer : PriceAnswer)
         (now : Z) (new_signals : list Signal),
    entries_distinct g ->
    entries_distinct
      (fst (fst (SignalAdmission._process_symbol_timeframe g symbol
                   answer now new_signals))) /\
    (forall s,
        In s (snd (SignalAdmission._process_symbol_timeframe g symbol
                     answer now new_signals)) ->
        In s new_signals /\
        In s (LiveSignalGenerator.all_signals
                (fst (fst (SignalAdmission._process_symbol_timeframe g symbol
                             answer now new_signals))))) /\
    (forall price,
        SignalAdmission.price_used answer = Some price ->
        closed_signals
          (fst (fst (SignalAdmission._process_symbol_timeframe g symbol
                       answer now new_signals)))
        = closed_signals (after_pass g symbol price now) /\
        session_stats
          (fst (fst (SignalAdmission._process_symbol_timeframe g symbol
                       answer now new_signals)))
        = session_stats (after_pass g symbol price now) /\
        snd (fst (SignalAdmission._process_symbol_timeframe g symbol
               answer now new_signals))
        = exits_of_pass g symbol price now) /\
    (answer = no_quote ->
     SignalAdmission._process_symbol_timeframe g symbol answer now
       new_signals = (g, [], [])).
Proof.
  intros g symbol answer now new_signals Hd.
  unfold SignalAdmission._process_symbol_timeframe.
  destruct (SignalAdmission.price_used answer) as [price|] eqn:Hp.
  - pose proof (check_exit_conditions_distinct g symbol price now Hd) as H1.
    unfold after_pass in H1.
    destruct (SignalSchedulerService._check_exit_conditions g symbol price now)
      as [g1 exits] eqn:Er. cbn [fst snd] in *.
    destruct (admit_signals_facts new_signals g1)
      as (C & St & _ & I & A & _ & E & _).
    destruct (SignalAdmission.admit_signals g1 new_signals) as [g2 sent].
    cbn [fst snd] in *.
    split; [now apply E|]. split; [intros s Hs; split; auto|].
    split; [|intros ->; discriminate].
    intros p Hp'. inversion Hp'; subst p.
    unfold after_pass, exits_of_pass. rewrite Er. cbn [fst snd].
    repeat split; assumption.
  - cbn [fst snd]. split; [exact Hd|]. split; [intros s []|].
    split; [discriminate | reflexivity].
Qed.

(** The theorem at [index_with "frxEURUSD"], holding an active H1 signal at
    [1.0850], and [h1_candidates]: only the third candidate is admitted. *)
Lemma scheduler_keeps_entries_distinct_witness :
  entries_distinct (index_with "frxEURUSD") /\
  snd (SignalAdmission._process_symbol_timeframe (index_with "frxEURUSD")
         "frxEURUSD" (quoted 1.0850) 100 h1_candidates)
  = [candidate_h1 "frxEURUSD" 1.0900] /\
  entries_distinct
    (fst (fst (SignalAdmission._process_symbol_timeframe
                 (index_with "frxEURUSD") "frxEURUSD" (quoted 1.0850) 100
                 h1_candidates))).
Proof.
  assert (H : entries_distinct (index_with "frxEURUSD")).
  { intros symbol bucket E. unfold index_with in E.
    cbn [active_signals LiveSignalGenerator.dict_get] in E.
    destruct (String.eqb "frxEURUSD" symbol); [|discriminate E].
    inversion E. repeat constructor. }
  split; [exact H|]. split; [vm_compute; reflexivity|].
  exact (proj1 (scheduler_keeps_entries_distinct (index_with "frxEURUSD")
                  "frxEURUSD" (quoted 1.0850) 100 h1_candidates H)).
Defined.

(** ** Setups: the nearest liquidity level *)

Section Proximity.
Import SilverBullet.

Lemma nearest_loop_spec p levels :
  forall acc d l,
    nearest_loop p levels acc = Some (d, l) ->
    (acc = Some (d, l) \/ (In l levels /\ d = Qabs (p - ll_price l))) /\
    (forall l', In l' levels -> d <= Qabs (p - ll_price l')) /\
    (forall d0 l0, acc = Some (d0, l0) -> d <= d0).
Proof.
  induction levels as [|x r IH]; intros acc d l; cbn [nearest_loop].
  - intros ->. split; [now left|]. split; [intros ? []|].
    intros d0 l0 H. inversion H. apply Qle_refl.
  - intro H. apply IH in H. destruct H as (Hsrc & Hmin & Hacc).
    destruct acc as [[d0 l0]|].
    + destruct (Qlt_bool (Qabs (p - ll_price x)) d0) eqn:C.
      * apply Qlt_bool_iff in C.
        pose proof (Hacc _ _ eq_refl) as Hd.
        split; [|split].
        -- right. destruct Hsrc as [Hs|[Hin ->]].
           ++ inversion Hs; subst. split; [now left | reflexivity].
           ++ split; [now right | reflexivity].
        -- intros l' [<-|Hl']; [exact Hd | now apply Hmin].
        -- intros d1 l1 H1. inversion H1; subst. lra.
      * apply Qlt_bool_false_iff in C.
        pose proof (Hacc _ _ eq_refl) as Hd.
        split; [|split].
        -- destruct Hsrc as [Hs|[Hin ->]]; [now left|].
           right. split; [now right | reflexivity].
        -- intros l' [<-|Hl']; [lra | now apply Hmin].
        -- intros d1 l1 H1. inversion H1; subst. exact Hd.
    + pose proof (Hacc _ _ eq_refl) as Hd.
      split; [|split].
      * right. destruct Hsrc as [Hs|[Hin ->]].
        -- inversion Hs; subst. split; [now left | reflexivity].
        -- split; [now right | reflexivity].
      * intros l' [<-|Hl']; [exact Hd | now apply Hmin].
      * discriminate.
Qed.

Lemma nearest_loop_none p levels acc :
  nearest_loop p levels acc = None -> levels = [] /\ acc = None.
Proof.
  revert acc. induction levels as [|x r IH]; intro acc; cbn [nearest_loop].
  - intros ->. split; reflexivity.
  - intro H. apply IH in H. destruct H as [_ H].
    destruct acc as [[d0 l0]|]; [destruct (Qlt_bool _ _)|]; discriminate.
Qed.

Lemma proximity_cases fvg liq :
  analysis_complete liq = true ->
  (exists l,
      _check_liquidity_proximity fvg liq
      = mkProximity true (Some l) (Some (away fvg l)) near_significant_liquidity /\
      In l (relevant_side fvg liq) /\ away fvg l < 0.002 /\
      forall l', In l' (relevant_side fvg liq) -> away fvg l <= away fvg l')
  \/
  (_check_liquidity_proximity fvg liq
   = mkProximity false None None no_significant_liquidity_nearby /\
   forall l', In l' (relevant_side fvg liq) -> 0.002 <= away fvg l').
Proof.
  intro Hc. unfold _check_liquidity_proximity. rewrite Hc. cbn [negb].
  fold (anchor_price fvg). fold (relevant_side fvg liq).
  destruct (nearest_loop (anchor_price fvg) (relevant_side fvg liq) None)
    as [[d l]|] eqn:E.
  - destruct (nearest_loop_spec _ _ _ _ _ E) as ([H|[Hin ->]] & Hmin & _);
      [discriminate|].
    fold (away fvg l) in *.
    destruct (Qlt_bool (away fvg l) 0.002) eqn:C.
    + left. exists l. apply Qlt_bool_iff in C. repeat split; assumption.
    + right. apply Qlt_bool_false_iff in C. split; [reflexivity|].
      intros l' Hl'. specialize (Hmin l' Hl'). fold (away fvg l') in Hmin. lra.
  - right. split; [reflexivity|].
    destruct (nearest_loop_none _ _ _ E) as [-> _]. intros l' [].
Qed.

End Proximity.

(** X22.  [_check_liquidity_proximity] measures from [gap_bottom] of a
    bullish gap to the buy-side levels and from [gap_top] of a bearish gap
    to the sell-side levels.  It answers valid exactly when the liquidity
    analysis is complete and some level of that side is less than [0.002]
    away; the level and distance it then reports are those of a level of
    that side than which none is nearer.  Hence every setup of
    [get_silver_bullet_setups] names such a level. *)
Theorem proximity_reports_a_nearest_level :
  forall (fvg : FVG) (liq : LiquidityAnalysis),
    (valid (SilverBullet._check_liquidity_proximity fvg liq) = true <->
     analysis_complete liq = true /\
     exists l, In l (relevant_side fvg liq) /\ away fvg l < 0.002) /\
    (valid (SilverBullet._check_liquidity_proximity fvg liq) = true ->
     exists l,
       nearest_level (SilverBullet._check_liquidity_proximity fvg liq) = Some l /\
       distance (SilverBullet._check_liquidity_proximity fvg liq)
       = Some (away fvg l) /\
       In l (relevant_side fvg liq) /\ away fvg l < 0.002 /\
       forall l', In l' (relevant_side fvg liq) -> away fvg l <= away fvg l') /\
    (forall candles bias setups s,
        SilverBullet.get_silver_bullet_setups candles liq bias = Ok setups ->
        In s setups ->
        su_liquidity_proximity s
        = SilverBullet._check_liquidity_proximity (su_fvg s) liq /\
        valid (su_liquidity_proximity s) = true).
Proof.
  intros fvg liq.
  assert (Inc : analysis_complete liq = false ->
                valid (SilverBullet._check_liquidity_proximity fvg liq) = false).
  { intro H. unfold SilverBullet._check_liquidity_proximity. now rewrite H. }
  split; [|split].
  - split.
    + intro V. destruct (analysis_complete liq) eqn:Hc;
        [|rewrite (Inc eq_refl) in V; discriminate].
      split; [reflexivity|].
      destruct (proximity_cases fvg liq Hc) as [(l & _ & Hin & Hd & _) | (E & _)].
      * exists l. split; assumption.
      * rewrite E in V. discriminate.
    + intros (Hc & l & Hin & Hd).
      destruct (proximity_cases fvg liq Hc) as [(l0 & E & _) | (_ & Hfar)].
      * now rewrite E.
      * specialize (Hfar l Hin). lra.
  - intro V. destruct (analysis_complete liq) eqn:Hc;
      [|rewrite (Inc eq_refl) in V; discriminate].
    destruct (proximity_cases fvg liq Hc) as [(l & E & Hin & Hd & Hmin) | (E & _)].
    + exists l. rewrite E. cbn. repeat split; assumption.
    + rewrite E in V. discriminate.
  - intros candles bias setups s Hs Hin.
    destruct (setups_from_detected _ _ _ _ _ Hs Hin) as (fa & _ & _ & _ & He).
    unfold SilverBullet._evaluate_silver_bullet_setup in He.
    destruct (negb (aligned _)); [discriminate|].
    destruct (valid (SilverBullet._check_liquidity_proximity (su_fvg s) liq))
      eqn:V; cbn [negb] in He; [|discriminate].
    inversion He as [Es]. rewrite <- Es at 1 3. cbn [su_liquidity_proximity].
    split; [reflexivity | exact V].
Qed.
